(** * A shallow embedding of the canonical-Huffman codec of [huff.go].

    Go's fixed-width integers are integers of [Z] with the wrap-around
    written out ([u32], [int64]); a run-time panic (index out of range,
    [make] with a bad length) is the [Panic] result; slices are lists;
    a [*symbol] pointing into a codebook is the index of the slot it
    points to, so the writes that [calculateCodes] performs through the
    sorted pointers land in the codebook itself, as they do in the Go
    code. *)

From Stdlib Require Import ZArith List Lia Bool Permutation Sorted.
From stdpp Require Import base list.

Local Open Scope Z_scope.

(** ** Machine integers *)

(** [uint32] arithmetic wraps modulo 2^32. *)
Definition u32 (x : Z) : Z := x mod 2 ^ 32.

(** [uint64] arithmetic wraps modulo 2^64. *)
Definition u64 (x : Z) : Z := x mod 2 ^ 64.

(** [int] is the 64-bit two's complement integer. *)
Definition int64 (x : Z) : Z := (x + 2 ^ 63) mod 2 ^ 64 - 2 ^ 63.

(** [x << n] on a [uint32], for a shift count [n] of type [uint]: a
    count of 32 or more gives 0. *)
Definition shl32 (x n : Z) : Z :=
  if n <? 32 then u32 (Z.shiftl x n) else 0.

(** [var EOF uint32 = 0xffffffff] *)
Definition EOF : Z := 4294967295.

(** ** Results and panics *)

Inductive res (A : Type) : Type :=
| Ret (a : A)
| Panic.
Arguments Ret {A} a.
Arguments Panic {A}.

#[global] Instance res_ret : MRet res := fun A a => Ret a.
#[global] Instance res_bind : MBind res := fun A B k r =>
  match r with
  | Ret a => k a
  | Panic => Panic
  end.

(** The errors of the package, and the errors of its collaborators. *)
Inductive error : Type :=
| ErrInvalidCodebook
| ErrUnknownSymbol
| io_EOF
| io_ErrUnexpectedEOF
| errOverflow
| ErrStream (n : nat).

(** Length of a slice as an [int]. *)
Definition len {A : Type} (l : list A) : Z := Z.of_nat (List.length l).

(** [l[i]] for an [int] index: out of range is a panic. *)
Definition index {A : Type} (l : list A) (i : Z) : res A :=
  if (0 <=? i) && (i <? len l) then
    match l !! Z.to_nat i with
    | Some a => Ret a
    | None => Panic
    end
  else Panic.

(** The allocation limit of the runtime ([maxAlloc] on 64-bit Linux). *)
Definition maxAlloc : Z := 2 ^ 48.

(** [make([]T, n)] with elements of [size] bytes: a panic when [n] is
    negative or the slice is larger than the runtime can allocate. *)
Definition make {A : Type} (zero : A) (size n : Z) : res (list A) :=
  if (0 <=? n) && (n * size <=? maxAlloc) then Ret (replicate (Z.to_nat n) zero)
  else Panic.

(** ** Symbols and codebooks *)

Module symbol.
Record t : Type := mk { s : Z; code : Z; length : Z }.
Definition zero : t := mk 0 0 0.
Definition with_code (x : t) (c : Z) : t := mk (s x) c (length x).
End symbol.

(** [type codebook []symbol] *)
Abbreviation codebook := (list symbol.t).

(** [type symptrs []*symbol]: every pointer is the index of a slot of
    the codebook the pointers were taken from. *)
Abbreviation symptrs := (list nat).

(** [symptrs.Less], on the pointers themselves. *)
Definition symptrs_Less (c : codebook) (p q : nat) : bool :=
  match c !! p, c !! q with
  | Some a, Some b =>
      (symbol.length a <? symbol.length b)
      || ((symbol.length a =? symbol.length b) && (symbol.s a <? symbol.s b))
  | _, _ => false
  end.

(** [sort.Sort(sptrs)].  The library sort is specified up to the order
    of elements that compare equal; two pointers compare equal only when
    their symbols agree on length and value, and insertion keeps such
    pointers in their original order. *)
Fixpoint sort_insert (c : codebook) (p : nat) (l : symptrs) : symptrs :=
  match l with
  | [] => [p]
  | q :: l' => if symptrs_Less c q p then q :: sort_insert c p l' else p :: l
  end.

Fixpoint sort_Sort (c : codebook) (l : symptrs) : symptrs :=
  match l with
  | [] => []
  | p :: l' => sort_insert c p (sort_Sort c l')
  end.

(** The first loop of [calculateCodes]: pointers to the slots of nonzero
    length, in slot order, starting at slot [i]. *)
Fixpoint select_from (i : nat) (c : codebook) : symptrs :=
  match c with
  | [] => []
  | x :: c' =>
      if symbol.length x =? 0 then select_from (S i) c'
      else i :: select_from (S i) c'
  end.

(** The second loop of [calculateCodes], over the sorted pointers. *)
Fixpoint assign (sptrs : symptrs) (c : codebook) (code prevlen : Z)
    (numl : list Z) : res (codebook * list Z) :=
  match sptrs with
  | [] => Ret (c, numl)
  | p :: rest =>
      match c !! p with
      | None => Panic
      | Some x =>
          let l := symbol.length x in
          let code1 := if prevlen <? l then shl32 code (u64 (l - prevlen)) else code in
          let prevlen1 := if prevlen <? l then l else prevlen in
          k ← index numl l;
          assign rest (<[p := symbol.with_code x code1]> c)
                 (u32 (code1 + 1)) prevlen1
                 (<[Z.to_nat l := u32 (k + 1)]> numl)
      end
  end.

(** [func (c codebook) calculateCodes() (symptrs, []uint32)].  The
    codebook comes back too: the codes are written into it through the
    pointers. *)
Definition calculateCodes (c : codebook) : res (codebook * symptrs * list Z) :=
  let sptrs := sort_Sort c (select_from 0 c) in
  match last sptrs with
  | None => Panic
  | Some p =>
      match c !! p with
      | None => Panic
      | Some x =>
          numl ← make 0 4 (int64 (symbol.length x + 1));
          '(c', numl') ← assign sptrs c 0 (-1) numl;
          Ret (c', sptrs, numl')
      end
  end.

(** ** The tree builder *)

(** [type node struct].  A leaf carries its symbol; a node that is not a
    leaf carries its two children ([child[0]], then [child[1]]). *)
Inductive node : Type :=
| Leaf (weight : Z) (sym : Z)
| Node (weight : Z) (child0 child1 : node).

Definition weight (n : node) : Z :=
  match n with
  | Leaf w _ => w
  | Node w _ _ => w
  end.

(** [type nodes []node] *)
Abbreviation nodes := (list node).

(** [nodes.Less]: called by [container/heap] with indices in range. *)
Definition Less (n : nodes) (i j : nat) : bool :=
  match n !! i, n !! j with
  | Some a, Some b => weight a <? weight b
  | _, _ => false
  end.

(** [nodes.Swap] *)
Definition Swap (n : nodes) (i j : nat) : nodes :=
  match n !! i, n !! j with
  | Some a, Some b => <[j := a]> (<[i := b]> n)
  | _, _ => n
  end.

(** [container/heap]'s [up]; the loop runs at most once per index below
    [j], so [fuel] above [j] is enough. *)
Fixpoint up (fuel : nat) (h : nodes) (j : nat) : nodes :=
  match fuel with
  | O => h
  | S fuel' =>
      let i := ((j - 1) / 2)%nat in
      if (i =? j)%nat || negb (Less h j i) then h
      else up fuel' (Swap h i j) i
  end.

(** [container/heap]'s [down] on the first [n] elements. *)
Fixpoint down (fuel : nat) (h : nodes) (i n : nat) : nodes :=
  match fuel with
  | O => h
  | S fuel' =>
      let j1 := (2 * i + 1)%nat in
      if (n <=? j1)%nat then h
      else
        let j2 := (j1 + 1)%nat in
        let j := if (j2 <? n)%nat && Less h j2 j1 then j2 else j1 in
        if negb (Less h j i) then h
        else down fuel' (Swap h i j) j n
  end.

(** [heap.Push(&n, x)]: [nodes.Push] appends, then [up] from the end. *)
Definition heap_Push (h : nodes) (x : node) : nodes :=
  let h' := h ++ [x] in
  up (List.length h') h' (List.length h' - 1)%nat.

(** [heap.Pop(&n)]: swap the root to the end, [down] on the rest, then
    [nodes.Pop] takes the last element off.  On an empty heap the swap
    indexes out of range. *)
Definition heap_Pop (h : nodes) : res (node * nodes) :=
  match h with
  | [] => Panic
  | _ :: _ =>
      let n := (List.length h - 1)%nat in
      let h1 := down (List.length h) (Swap h 0 n) 0 n in
      match last h1 with
      | Some x => Ret (x, removelast h1)
      | None => Panic
      end
  end.

(** The first loop of [NewEncoder]: one leaf per nonzero count. *)
Fixpoint push_counts (i : nat) (counts : list Z) (n : nodes) : nodes :=
  match counts with
  | [] => n
  | v :: counts' =>
      push_counts (S i) counts'
        (if v =? 0 then n else heap_Push n (Leaf v (u32 (Z.of_nat i))))
  end.

(** The merge loop of [NewEncoder]; every round shortens the heap by
    one, so [fuel] equal to its length is enough. *)
Fixpoint merge_loop (fuel : nat) (n : nodes) : res nodes :=
  match fuel with
  | O => Ret n
  | S fuel' =>
      if 1 <? len n then
        '(n1, n) ← heap_Pop n;
        '(n2, n) ← heap_Pop n;
        merge_loop fuel'
          (heap_Push n (Node (int64 (weight n1 + weight n2)) n2 n1))
      else Ret n
  end.

(** [func walk(n *node, depth int, m codebook)] *)
Fixpoint walk (n : node) (depth : Z) (m : codebook) : res codebook :=
  match n with
  | Leaf _ sym =>
      _ ← index m sym;
      Ret (<[Z.to_nat sym := symbol.mk sym 0 depth]> m)
  | Node _ c0 c1 =>
      m1 ← walk c0 (int64 (depth + 1)) m;
      walk c1 (int64 (depth + 1)) m1
  end.

Module Encoder.
Record t : Type := mk { eof : Z; m : codebook; sym : symptrs; numl : list Z }.
End Encoder.

(** [func NewEncoder(counts []int) *Encoder] *)
Definition NewEncoder (counts : list Z) : res Encoder.t :=
  let n := push_counts 0 counts [] in
  let eof := u32 (len counts) in
  let n := heap_Push n (Leaf 0 eof) in
  n ← merge_loop (List.length n) n;
  root ← index n 0;
  m ← make symbol.zero 16 (u32 (eof + 1));
  m ← walk root 0 m;
  '(m, sptrs, numl) ← calculateCodes m;
  Ret (Encoder.mk eof m sptrs numl).

(** [func (e *Encoder) SymbolLen(s uint32) int] *)
Definition SymbolLen (e : Encoder.t) (s : Z) : res Z :=
  let s := if s =? EOF then Encoder.eof e else s in
  if u32 (len (Encoder.m e)) <=? s then Ret 0
  else x ← index (Encoder.m e) s; Ret (symbol.length x).

(** ** The codebook on the wire *)

(** [binary.PutUvarint(buf, x)] into a buffer of [room] bytes; the
    bytes it writes are returned.  Writing past the end of the buffer
    panics. *)
Fixpoint PutUvarint (room : nat) (x : Z) : res (list Z) :=
  match room with
  | O => Panic
  | S room' =>
      if 128 <=? x then
        rest ← PutUvarint room' (Z.shiftr x 7);
        Ret (Z.lor (x mod 256) 128 :: rest)
      else Ret [x]
  end.

(** [binary.MaxVarintLen32] and [binary.MaxVarintLen64] *)
Definition MaxVarintLen32 : nat := 5.
Definition MaxVarintLen64 : nat := 10.

(** The loop of [MarshalBinary] over the slots. *)
Fixpoint marshal_lengths (c : codebook) : res (list Z) :=
  match c with
  | [] => Ret []
  | x :: c' =>
      l ← PutUvarint MaxVarintLen32 (u64 (symbol.length x));
      rest ← marshal_lengths c';
      Ret (l ++ rest)
  end.

(** [func (c codebook) MarshalBinary() ([]byte, error)]; the error is
    always nil. *)
Definition MarshalBinary (c : codebook) : res (list Z) :=
  l ← PutUvarint MaxVarintLen32 (u64 (len c));
  rest ← marshal_lengths c;
  Ret (l ++ rest).

(** [binary.ReadUvarint] on a [bytes.Reader] over the bytes [r]; [k]
    counts the bytes the loop may still read, [i] the bytes read. *)
Fixpoint ReadUvarint_loop (k : nat) (i x s : Z) (r : list Z)
    : Z * option error * list Z :=
  match k with
  | O => (x, Some errOverflow, r)
  | S k' =>
      match r with
      | [] => (x, Some (if 0 <? i then io_ErrUnexpectedEOF else io_EOF), [])
      | b :: r' =>
          if b <? 128 then
            if (i =? 9) && (1 <? b) then (x, Some errOverflow, r')
            else (Z.lor x (u64 (Z.shiftl b s)), None, r')
          else
            ReadUvarint_loop k' (i + 1)
              (Z.lor x (u64 (Z.shiftl (Z.land b 127) s))) (s + 7) r'
      end
  end.

Definition ReadUvarint (r : list Z) : Z * option error * list Z :=
  ReadUvarint_loop MaxVarintLen64 0 0 0 r.

(** The loop of [UnmarshalBinary]: [k] rounds are left, [i] is the
    slot to fill. *)
Fixpoint unmarshal_loop (k : nat) (i : Z) (r : list Z) (c : codebook)
    : codebook * option error :=
  match k with
  | O => (c, None)
  | S k' =>
      match ReadUvarint r with
      | (_, Some _, _) => (c, Some ErrInvalidCodebook)
      | (clen, None, r') =>
          unmarshal_loop k' (i + 1) r'
            (<[Z.to_nat i := symbol.mk i 0 (int64 clen)]> c)
      end
  end.

(** [func (c *codebook) UnmarshalBinary(data []byte) error], started
    on the nil codebook. *)
Definition UnmarshalBinary (data : list Z) : res (codebook * option error) :=
  match ReadUvarint data with
  | (_, Some _, _) => Ret ([], Some ErrInvalidCodebook)
  | (l, None, r) =>
      c ← make symbol.zero 16 l;
      Ret (unmarshal_loop (Z.to_nat (u32 l)) 0 r c)
  end.

(** [func (e *Encoder) CodebookBytes() []byte] *)
Definition CodebookBytes (e : Encoder.t) : res (list Z) :=
  MarshalBinary (Encoder.m e).

(** ** The bit stream *)

(** Modelled from the spec: the Bit Stream collaborator (the
    [bitstream] package the Go file imports) is not among the sources.
    Its contract is section 6 of the specification: a writer accepts N
    bits of an unsigned value, most-significant bit first, and a flush
    with a pad bit for the final partial byte; a reader returns one bit
    and an error indicator. *)
Class BitWriter (W : Type) : Type := {
  WriteBits : W -> Z -> Z -> W * option error;
  Flush : W -> bool -> W * option error
}.

Class BitReader (R : Type) : Type := {
  ReadBit : R -> R * bool * option error
}.

(** The [n] low bits of [u], most-significant bit first. *)
Fixpoint bits_msb (n : nat) (u : Z) : list bool :=
  match n with
  | O => []
  | S n' => Z.testbit u (Z.of_nat n') :: bits_msb n' u
  end.

(** Modelled from the spec: a bit stream over memory that never fails,
    as the sequence of the bits written so far.  A flush pads with the
    pad bit up to the next multiple of eight bits. *)
Definition pad_count (w : list bool) : nat :=
  ((8 - List.length w mod 8) mod 8)%nat.

#[global] Instance mem_writer : BitWriter (list bool) := {
  WriteBits w u nbits := (w ++ bits_msb (Z.to_nat nbits) u, None);
  Flush w pad := (w ++ repeat pad (pad_count w), None)
}.

#[global] Instance mem_reader : BitReader (list bool) := {
  ReadBit r :=
    match r with
    | [] => ([], false, Some io_EOF)
    | b :: r' => (r', b, None)
    end
}.

(** ** The writer *)

Module Writer.
Record t (W : Type) : Type := mk { e : Encoder.t; bw : W; closed : bool }.
Arguments mk {W} e bw closed.
Arguments e {W} t.
Arguments bw {W} t.
Arguments closed {W} t.
End Writer.

Section WithBitWriter.
Context {W : Type} `{BitWriter W}.

(** [func (e *Encoder) Writer(w io.Writer) *Writer], on the bit
    writer made for [w]. *)
Definition Encoder_Writer (e : Encoder.t) (bw : W) : Writer.t W :=
  Writer.mk e bw false.

(** [func (w *Writer) WriteSymbol(s uint32) (int, error)] *)
Definition WriteSymbol (w : Writer.t W) (s : Z)
    : res (Writer.t W * Z * option error) :=
  let e := Writer.e w in
  let s := if s =? EOF then Encoder.eof e else s in
  if Encoder.eof e <? s then Ret (w, 0, Some ErrUnknownSymbol)
  else
    sym ← index (Encoder.m e) s;
    let bw' := fst (WriteBits (Writer.bw w) (u64 (symbol.code sym))
                      (symbol.length sym)) in
    Ret (Writer.mk e bw' (Writer.closed w), symbol.length sym, None).

(** [func (w *Writer) Close()] *)
Definition Close (w : Writer.t W) : Writer.t W :=
  if Writer.closed w then w
  else Writer.mk (Writer.e w) (fst (Flush (Writer.bw w) false))
         (Writer.closed w).
End WithBitWriter.

(** ** The decoder *)

Module Decoder.
(** [mem] is the codebook the pointers of [sym] point into. *)
Record t : Type :=
  mk { eof : Z; numl : list Z; sym : symptrs; mem : codebook }.
End Decoder.

(** [func (e *Encoder) Decoder() *Decoder] *)
Definition Encoder_Decoder (e : Encoder.t) : Decoder.t :=
  Decoder.mk (Encoder.eof e) (Encoder.numl e) (Encoder.sym e) (Encoder.m e).

(** [func NewDecoder(cb []byte)], returning a [Decoder] pointer (nil on
    failure) and an error. *)
Definition NewDecoder (cb : list Z) : res (option Decoder.t * option error) :=
  '(c, err) ← UnmarshalBinary cb;
  match err with
  | Some e => Ret (None, Some e)
  | None =>
      '(c', sptrs, numl) ← calculateCodes c;
      let eof := u32 (u32 (len c) - 1) in
      Ret (Some (Decoder.mk eof numl sptrs c'), None)
  end.

(** [d.sym[i]], dereferenced. *)
Definition sym_at (d : Decoder.t) (i : Z) : res symbol.t :=
  p ← index (Decoder.sym d) i;
  match Decoder.mem d !! p with
  | Some x => Ret x
  | None => Panic
  end.

Section WithBitReader.
Context {R : Type} `{BitReader R}.

(** The loop of [ReadSymbol]: [k] rounds are left, [i] is the loop
    index. *)
Fixpoint read_loop (d : Decoder.t) (k : nat) (i offset code : Z) (br : R)
    : res (R * Z * option error) :=
  match k with
  | O => Ret (br, 0, Some ErrUnknownSymbol)
  | S k' =>
      let '(br1, b, err) := ReadBit br in
      match err with
      | Some e => Ret (br1, 0, Some e)
      | None =>
          let code1 := u32 (Z.shiftl code 1) in
          let code2 := if b : bool then Z.lor code1 1 else code1 in
          n ← index (Decoder.numl d) i;
          let offset1 := u32 (offset + n) in
          first ← sym_at d offset1;
          n1 ← index (Decoder.numl d) (i + 1);
          if u32 (code2 - symbol.code first) <? n1 then
            x ← sym_at d (u32 (u32 (code2 - symbol.code first) + offset1));
            let s := symbol.s x in
            Ret (br1, (if s =? Decoder.eof d then EOF else s), None)
          else read_loop d k' (i + 1) offset1 code2 br1
      end
  end.

(** [func (d *Decoder) ReadSymbol(br *bitstream.BitReader)], returning
    the symbol and an error. *)
Definition ReadSymbol (d : Decoder.t) (br : R) : res (R * Z * option error) :=
  read_loop d (List.length (Decoder.numl d)) 0 0 0 br.
End WithBitReader.

(** ** A bit stream that fails *)

(** A bit stream whose transport has failed: every write reports the
    transport's error. *)
#[global] Instance broken_writer : BitWriter unit := {
  WriteBits w _ _ := (w, Some (ErrStream 0));
  Flush w _ := (w, Some (ErrStream 0))
}.

(** A slot that carries a code. *)
Definition nonzero_length (x : symbol.t) : Prop := symbol.length x <> 0.

(** ** Varints, as the wire format describes them *)

(** A continuation byte has its top bit set; a final byte has not. *)
Definition cont_byte (b : Z) : Prop := 128 <= b < 256.
Definition final_byte (b : Z) : Prop := 0 <= b < 128.

(** The value a varint carries: seven bits a byte, least-significant
    group first. *)
Fixpoint varint_value (bs : list Z) : Z :=
  match bs with
  | [] => 0
  | b :: bs' => Z.lor (Z.land b 127) (Z.shiftl (varint_value bs') 7)
  end.

(** A complete varint of a [uint64]: at most nine continuation bytes,
    then a final byte, which after nine continuation bytes is 0 or 1. *)
Definition complete_varint (bs : list Z) : Prop :=
  exists conts b,
    bs = conts ++ [b]
    /\ Forall cont_byte conts
    /\ final_byte b
    /\ (List.length conts <= 9)%nat
    /\ (List.length conts = 9%nat -> b <= 1).

(** Bytes that end inside a varint: continuation bytes only (none at
    all when the input ends where a varint should start). *)
Definition partial_varint (bs : list Z) : Prop := Forall cont_byte bs.

(** The input ends before the slot count could be read. *)
Definition cut_in_count (data : list Z) : Prop := partial_varint data.

(** The input declares [l] slots and ends before [l] lengths could be
    read. *)
Definition cut_in_lengths (l : Z) (data : list Z) : Prop :=
  exists cb vs tail,
    data = cb ++ concat vs ++ tail
    /\ complete_varint cb
    /\ varint_value cb = l
    /\ Forall complete_varint vs
    /\ len vs < l
    /\ partial_varint tail.

(** Truncated in the middle of a varint. *)
Definition truncated (data : list Z) : Prop :=
  cut_in_count data \/ exists l, cut_in_lengths l data.

(** ** The canonical assignment, without the store *)

(** The symbols the pointers [ps] point to in [c]. *)
Definition deref (c : codebook) (ps : symptrs) : list (option symbol.t) :=
  map (fun p => c !! p) ps.

(** The codes the second loop of [calculateCodes] assigns along the
    lengths [ls], from the running [code] and [prevlen]. *)
Fixpoint canon (code prevlen : Z) (ls : list Z) : list Z :=
  match ls with
  | [] => []
  | l :: ls' =>
      let code1 := if prevlen <? l then shl32 code (u64 (l - prevlen)) else code in
      let prevlen1 := if prevlen <? l then l else prevlen in
      code1 :: canon (u32 (code1 + 1)) prevlen1 ls'
  end.

(** The histogram the loop builds along the lengths [ls]. *)
Fixpoint tally (ls : list Z) (numl : list Z) : list Z :=
  match ls with
  | [] => numl
  | l :: ls' =>
      tally ls' (<[Z.to_nat l := u32 (default 0 (numl !! Z.to_nat l) + 1)]> numl)
  end.

(** The store after the loop wrote the codes [codes] through [ps]. *)
Fixpoint set_codes (ps : symptrs) (codes : list Z) (c : codebook) : codebook :=
  match ps, codes with
  | p :: ps', k :: codes' =>
      set_codes ps' codes'
        (match c !! p with
         | Some x => <[p := symbol.with_code x k]> c
         | None => c
         end)
  | _, _ => c
  end.

(** [symptrs.Less] on the symbols themselves. *)
Definition symbol_less (a b : symbol.t) : bool :=
  (symbol.length a <? symbol.length b)
  || ((symbol.length a =? symbol.length b) && (symbol.s a <? symbol.s b)).

(** The canonical symbol order: length first, then symbol value. *)
Definition canonical_le (a b : symbol.t) : Prop :=
  symbol.length a < symbol.length b
  \/ (symbol.length a = symbol.length b /\ symbol.s a <= symbol.s b).

(** Kraft's sum of the lengths [ls], in units of 2^-32. *)
Definition kraft (ls : list Z) : Z :=
  fold_right (fun l acc => 2 ^ (32 - l) + acc) 0 ls.

(** The code of a slot as a bit string of its length. *)
Definition code_bits (x : symbol.t) : list bool :=
  bits_msb (Z.to_nat (symbol.length x)) (symbol.code x).

(** The lengths of the slots that carry a code. *)
Definition code_lengths (c : codebook) : list Z :=
  map symbol.length (filter (fun x => symbol.length x <> 0) c).

(** The pointers [calculateCodes] returns for [c], and the symbols
    they point to. *)
Definition sorted_ptrs (c : codebook) : symptrs :=
  sort_Sort c (select_from 0 c).

Definition sorted_syms (c : codebook) : list symbol.t :=
  map (fun p => default symbol.zero (c !! p)) (sorted_ptrs c).

Definition sorted_lengths (c : codebook) : list Z :=
  map symbol.length (sorted_syms c).

(** The greatest length of [c], the length of the last sorted symbol. *)
Definition max_length (c : codebook) : Z :=
  default 0 (last (sorted_lengths c)).

(** ** The heap order of [container/heap] *)

(** The weight at index [i] of the heap. *)
Definition wt (h : nodes) (i : nat) : Z :=
  match h !! i with
  | Some a => weight a
  | None => 0
  end.

(** The first [n] elements are in heap order: no element is lighter
    than its parent. *)
Definition heap_ok_n (h : nodes) (n : nat) : Prop :=
  forall k : nat, (0 < k < n)%nat -> wt h ((k - 1) / 2) <= wt h k.

Definition heap_ok (h : nodes) : Prop := heap_ok_n h (List.length h).

(** Heap order but for the element at [j], which may be lighter than
    its parent; its children are not lighter than its parent. *)
Definition up_inv (h : nodes) (j : nat) : Prop :=
  (forall k : nat, (0 < k < List.length h)%nat -> k <> j ->
     wt h ((k - 1) / 2) <= wt h k)
  /\ ((0 < j)%nat ->
      forall k : nat, (0 < k < List.length h)%nat -> ((k - 1) / 2)%nat = j ->
        wt h ((j - 1) / 2) <= wt h k).

(** Heap order on the first [n] elements but for the element at [i],
    which may be heavier than its children; they are not lighter than
    its parent. *)
Definition down_inv (h : nodes) (i n : nat) : Prop :=
  (forall k : nat, (0 < k < n)%nat -> ((k - 1) / 2)%nat <> i ->
     wt h ((k - 1) / 2) <= wt h k)
  /\ ((0 < i)%nat ->
      forall k : nat, (0 < k < n)%nat -> ((k - 1) / 2)%nat = i ->
        wt h ((i - 1) / 2) <= wt h k).

(** ** Trees and forests *)

(** The symbols at the leaves of a tree, left to right. *)
Fixpoint leaves (t : node) : list Z :=
  match t with
  | Leaf _ sym => [sym]
  | Node _ c0 c1 => leaves c0 ++ leaves c1
  end.

(** The leaves of a tree with their depths, for a root at depth [d]. *)
Fixpoint leaves_at (t : node) (d : Z) : list (Z * Z) :=
  match t with
  | Leaf _ sym => [(sym, d)]
  | Node _ c0 c1 => leaves_at c0 (d + 1) ++ leaves_at c1 (d + 1)
  end.

(** The leaves of a tree with their weights. *)
Fixpoint leaf_weights (t : node) : list (Z * Z) :=
  match t with
  | Leaf w sym => [(sym, w)]
  | Node _ c0 c1 => leaf_weights c0 ++ leaf_weights c1
  end.

Fixpoint height (t : node) : Z :=
  match t with
  | Leaf _ _ => 0
  | Node _ c0 c1 => 1 + Z.max (height c0) (height c1)
  end.

(** The symbols at the leaves of all the trees of a heap. *)
Definition forest_leaves (h : nodes) : list Z := concat (map leaves h).

(** The leaves [NewEncoder] pushes for the counts from index [i] on. *)
Fixpoint count_leaves (i : nat) (counts : list Z) : nodes :=
  match counts with
  | [] => []
  | v :: counts' =>
      if v =? 0 then count_leaves (S i) counts'
      else Leaf v (u32 (Z.of_nat i)) :: count_leaves (S i) counts'
  end.

(** One round of the merge loop, up to the order of the heap: two
    lightest trees [n1] and [n2] leave, their parent enters. *)
Inductive huff_step : nodes -> nodes -> Prop :=
| huff_step_intro (h h' rest : nodes) (n1 n2 : node) :
    h ≡ₚ n1 :: n2 :: rest ->
    (forall y, y ∈ n2 :: rest -> weight n1 <= weight y) ->
    (forall y, y ∈ rest -> weight n2 <= weight y) ->
    h' ≡ₚ Node (int64 (weight n1 + weight n2)) n2 n1 :: rest ->
    huff_step h h'.

(** The rounds from a heap to the tree that is left. *)
Inductive huff_run : nodes -> node -> Prop :=
| huff_run_done (t : node) : huff_run [t] t
| huff_run_step (h h' : nodes) (t : node) :
    huff_step h h' -> huff_run h' t -> huff_run h t.

(** The slots [walk] writes for a list of leaves with their depths. *)
Definition write_leaves (ls : list (Z * Z)) (m : codebook) : codebook :=
  foldl (fun m l => <[Z.to_nat (fst l) := symbol.mk (fst l) 0 (snd l)]> m) m ls.

(** The codebook [NewEncoder] hands to [calculateCodes]: [n] empty
    slots, written by [walk] from the root of [t]. *)
Definition tree_codebook (t : node) (n : nat) : codebook :=
  write_leaves (leaves_at t 0) (replicate n symbol.zero).

(** The codebook [UnmarshalBinary] rebuilds from the lengths of [c]:
    slot [i] holds symbol [i], no code yet, and the length. *)
Fixpoint restore (i : Z) (c : codebook) : codebook :=
  match c with
  | [] => []
  | x :: c' => symbol.mk i 0 (symbol.length x) :: restore (i + 1) c'
  end.

(** The canonically ordered table of a decoder. *)
Definition table (d : Decoder.t) : list (option symbol.t) :=
  deref (Decoder.mem d) (Decoder.sym d).

(** Two decoders with the same end-of-input slot, histogram and table. *)
Definition decoder_equiv (d1 d2 : Decoder.t) : Prop :=
  Decoder.eof d1 = Decoder.eof d2
  /\ Decoder.numl d1 = Decoder.numl d2
  /\ table d1 = table d2.

(** ** Counting lengths *)

(** How many of the lengths [ls] are at most [i], and how many are
    exactly [i]. *)
Definition below (i : Z) (ls : list Z) : Z :=
  len (filter (fun l => l <= i) ls).

Definition cnt_eq (i : Z) (ls : list Z) : Z :=
  len (filter (fun l => l = i) ls).

(** ** Sequences of symbols *)

(** [WriteSymbol] for each symbol in turn; what each call returned. *)
Fixpoint write_symbols {W : Type} `{BitWriter W} (w : Writer.t W)
    (syms : list Z) : res (Writer.t W * list (Z * option error)) :=
  match syms with
  | [] => Ret (w, [])
  | s :: syms' =>
      '(w1, n, err) ← WriteSymbol w s;
      '(w2, outs) ← write_symbols w1 syms';
      Ret (w2, (n, err) :: outs)
  end.

(** [n] calls of [ReadSymbol]; what each call returned. *)
Fixpoint read_symbols {R : Type} `{BitReader R} (d : Decoder.t) (n : nat)
    (br : R) : res (R * list (Z * option error)) :=
  match n with
  | O => Ret (br, [])
  | S n' =>
      '(br1, s, err) ← ReadSymbol d br;
      '(br2, outs) ← read_symbols d n' br1;
      Ret (br2, (s, err) :: outs)
  end.

(** The slot of the codebook a symbol of the interface stands for. *)
Definition slot_of (eof s : Z) : Z := if s =? EOF then eof else s.

(** The bits [WriteSymbol] emits for [s]. *)
Definition encoding (e : Encoder.t) (s : Z) : list bool :=
  match Encoder.m e !! Z.to_nat (slot_of (Encoder.eof e) s) with
  | Some x => code_bits x
  | None => []
  end.

(** Counts whose tree is a chain: 1, and the powers of two up to 2^32;
    the deepest leaves are at depth 34. *)
Definition deep_counts : list Z :=
  1 :: map (fun k => 2 ^ Z.of_nat k) (seq 0 33).

(** ** Depths in the tree *)

(** [at_depth x t d]: the tree [x] sits in [t], [d] levels below the
    root. *)
Inductive at_depth (x : node) : node -> nat -> Prop :=
| at_root : at_depth x x 0
| at_child0 (w : Z) (c0 c1 : node) (d : nat) :
    at_depth x c0 d -> at_depth x (Node w c0 c1) (S d)
| at_child1 (w : Z) (c0 c1 : node) (d : nat) :
    at_depth x c1 d -> at_depth x (Node w c0 c1) (S d).

(** The number of nodes of a tree. *)
Fixpoint size (t : node) : nat :=
  match t with
  | Leaf _ _ => 1
  | Node _ c0 c1 => S (size c0 + size c1)
  end.

(** The weights of a heap, added up without wrap-around. *)
Definition total_weight (h : nodes) : Z :=
  fold_right (fun x acc => weight x + acc) 0 h.

(** A heap in which no weight is negative, the weights add up within
    [int], and no symbol sits at two leaves. *)
Definition wf_forest (h : nodes) : Prop :=
  Forall (fun x => 0 <= weight x) h
  /\ total_weight h < 2 ^ 63
  /\ NoDup (forest_leaves h).

(** The counts added up without wrap-around. *)
Definition sum_counts (counts : list Z) : Z := fold_right Z.add 0 counts.

(** Counts whose weights overflow [int] when added. *)
Definition overflow_counts : list Z :=
  [2 ^ 62 - 1; 2 ^ 62 - 1; 2 ^ 62 + 1; 2 ^ 62 + 1; 2 ^ 62 + 1].

(** The encoder [NewEncoder] returns when its merge loop leaves the
    tree [t]. *)
Definition encoder_of (counts : list Z) (t : node) : Encoder.t :=
  let m0 := tree_codebook t (S (List.length counts)) in
  Encoder.mk (len counts)
    (set_codes (sorted_ptrs m0) (canon 0 (-1) (sorted_lengths m0)) m0)
    (sorted_ptrs m0)
    (tally (sorted_lengths m0) (replicate (Z.to_nat (max_length m0 + 1)) 0)).

(** Counts with 2^32-1 entries, every one of them 1. *)
Definition uint32_max_counts : list Z := replicate (Z.to_nat (2 ^ 32 - 1)) 1.

(* PROPERTIES *)

(** * Properties *)

(** ** The single-symbol alphabet *)

(** C9: [NewEncoder [5]] gives length 1 to symbol 0 and to the
    end-of-input symbol; writing symbol 0 and then the end-of-input
    sentinel emits two bits in all; reading them back returns symbol 0
    and then the sentinel. *)
Theorem single_symbol_alphabet :
  exists e w1 w2 r1 r2,
    NewEncoder [5] = Ret e
    /\ SymbolLen e 0 = Ret 1
    /\ SymbolLen e EOF = Ret 1
    /\ WriteSymbol (Encoder_Writer e ([] : list bool)) 0 = Ret (w1, 1, None)
    /\ WriteSymbol w1 EOF = Ret (w2, 1, None)
    /\ List.length (Writer.bw w2) = 2%nat
    /\ ReadSymbol (Encoder_Decoder e) (Writer.bw (Close w2)) = Ret (r1, 0, None)
    /\ ReadSymbol (Encoder_Decoder e) r1 = Ret (r2, EOF, None).
Proof.
  do 5 eexists.
  split; [vm_compute; reflexivity|].
  repeat split; vm_compute; reflexivity.
Qed.

(** ** Bits that match no code *)

(** C2: on the decoder of the one-slot codebook whose only length is 1
    (code 0), the bits 1, 0 match no code; the loop of [ReadSymbol]
    then indexes [d.sym] at its length and panics: the error return
    behind the loop is not reached. *)
Theorem ReadSymbol_unmatched_bits_panic :
  exists d,
    NewDecoder [1; 1] = Ret (Some d, None)
    /\ Decoder.numl d = [0; 1]
    /\ List.length (Decoder.sym d) = 1%nat
    /\ ReadSymbol d [true; false] = Panic.
Proof.
  eexists. split; [vm_compute; reflexivity|].
  repeat split.
Qed.

(** ** Closing a writer twice *)

(** [Close] never sets the [closed] flag. *)
Lemma Close_keeps_closed {W : Type} `{BitWriter W} (w : Writer.t W) :
  Writer.closed (Close w) = Writer.closed w.
Proof. unfold Close. destruct (Writer.closed w) eqn:E; simpl; auto. Qed.

(** A flush pads with fewer than eight bits, up to a byte boundary. *)
Lemma pad_mod (n : nat) :
  ((8 - n mod 8) mod 8 < 8)%nat /\ ((n + (8 - n mod 8) mod 8) mod 8 = 0)%nat.
Proof.
  pose proof (Nat.mod_upper_bound n 8 ltac:(lia)) as Hr.
  pose proof (Nat.div_mod_eq n 8) as Hn.
  split; [apply Nat.mod_upper_bound; lia|].
  destruct (Nat.eq_dec (n mod 8)%nat 0%nat) as [E|E].
  - rewrite E. change ((8 - 0) mod 8)%nat with 0%nat.
    rewrite Nat.add_0_r. exact E.
  - rewrite (Nat.mod_small (8 - n mod 8)%nat 8%nat) by lia.
    replace (n + (8 - n mod 8))%nat with ((n / 8 + 1) * 8)%nat by lia.
    apply Nat.Div0.mod_mul.
Qed.

(** A stream that was flushed needs no padding. *)
Lemma pad_count_flushed (w : list bool) (pad : bool) :
  pad_count (w ++ repeat pad (pad_count w)) = 0%nat.
Proof.
  unfold pad_count. rewrite length_app, repeat_length.
  rewrite (proj2 (pad_mod (List.length w))). reflexivity.
Qed.

(** C3: over the bit stream of the specification, [Close] on a writer
    that is not closed (every writer [Encoder.Writer] makes, whatever
    was written since) flushes the stream: it pads the bits written
    with fewer than eight zero bits, up to a byte boundary.  A second
    [Close] leaves the writer and its stream exactly as the first left
    them: [closed] is never set, so [Flush] is called again, and the
    flush of a stream that ends on a byte boundary adds nothing. *)
Theorem Close_idempotent (w : Writer.t (list bool)) :
  Writer.closed w = false ->
  (exists k : nat,
     (k < 8)%nat
     /\ Writer.bw (Close w) = Writer.bw w ++ repeat false k
     /\ (List.length (Writer.bw (Close w)) mod 8 = 0)%nat)
  /\ Close (Close w) = Close w.
Proof.
  intros Hc.
  assert (H1 : Close w
               = Writer.mk (Writer.e w)
                   (Writer.bw w ++ repeat false (pad_count (Writer.bw w)))
                   false).
  { unfold Close. rewrite Hc. reflexivity. }
  rewrite H1. split.
  - exists (pad_count (Writer.bw w)).
    split; [apply (proj1 (pad_mod (List.length (Writer.bw w))))|].
    split; [reflexivity|].
    cbn [Writer.bw]. rewrite length_app, repeat_length.
    apply (proj2 (pad_mod (List.length (Writer.bw w)))).
  - unfold Close. cbn [Writer.closed Writer.bw Writer.e Flush mem_writer fst].
    rewrite pad_count_flushed. cbn [repeat]. rewrite app_nil_r. reflexivity.
Qed.

Lemma Close_idempotent_witness :
  (exists k : nat,
     (k < 8)%nat
     /\ Writer.bw
          (Close (Encoder_Writer
                    (Encoder.mk 1 [symbol.mk 0 0 1; symbol.mk 1 1 1]
                       [0%nat; 1%nat] [0; 2]) [true; false; true]))
        = Writer.bw
            (Encoder_Writer
               (Encoder.mk 1 [symbol.mk 0 0 1; symbol.mk 1 1 1]
                  [0%nat; 1%nat] [0; 2]) [true; false; true])
          ++ repeat false k
     /\ (List.length
           (Writer.bw
              (Close (Encoder_Writer
                        (Encoder.mk 1%Z [symbol.mk 0%Z 0%Z 1%Z;
                                         symbol.mk 1%Z 1%Z 1%Z]
                           [0; 1] [0%Z; 2%Z]) [true; false; true])))
         mod 8 = 0)%nat)
  /\ Close (Close (Encoder_Writer
                     (Encoder.mk 1 [symbol.mk 0 0 1; symbol.mk 1 1 1]
                        [0%nat; 1%nat] [0; 2]) [true; false; true]))
     = Close (Encoder_Writer
                (Encoder.mk 1 [symbol.mk 0 0 1; symbol.mk 1 1 1]
                   [0%nat; 1%nat] [0; 2]) [true; false; true]).
Proof.
  apply (Close_idempotent
           (Encoder_Writer
              (Encoder.mk 1 [symbol.mk 0 0 1; symbol.mk 1 1 1]
                 [0%nat; 1%nat] [0; 2]) [true; false; true])).
  reflexivity.
Defined.

(** ** A failing bit stream under [WriteSymbol] *)

(** The error [WriteSymbol] returns is nil or the unknown-symbol error,
    whatever the bit stream answers. *)
Lemma WriteSymbol_error {W : Type} `{BitWriter W} (w w' : Writer.t W)
    (s n : Z) (err : option error) :
  WriteSymbol w s = Ret (w', n, err) ->
  err = None \/ (err = Some ErrUnknownSymbol /\ n = 0 /\ w' = w).
Proof.
  unfold WriteSymbol.
  destruct (Encoder.eof (Writer.e w) <? _).
  - intros [= <- <- <-]. auto.
  - destruct (index _ _); simpl; [|discriminate].
    intros [= <- <- <-]. auto.
Qed.

(** C4: on a bit stream whose every write fails, [WriteSymbol] of the
    in-range symbol 0 still returns one bit written and a nil error. *)
Theorem WriteSymbol_drops_stream_error :
  exists e,
    NewEncoder [5] = Ret e
    /\ snd (WriteBits tt (u64 0) 1) = Some (ErrStream 0)
    /\ WriteSymbol (Encoder_Writer e tt) 0 = Ret (Encoder_Writer e tt, 1, None).
Proof.
  eexists. split; [vm_compute; reflexivity|].
  split; reflexivity.
Qed.

(** ** Where the constructors panic *)

Lemma select_from_nil (c : codebook) (i : nat) :
  select_from i c = [] <-> Forall (fun x => symbol.length x = 0) c.
Proof.
  revert i. induction c as [|x c IH]; intros i; simpl.
  - split; auto.
  - destruct (Z.eqb_spec (symbol.length x) 0) as [E|E].
    + rewrite IH. split; [intros; constructor; auto|].
      intros Hc. inversion Hc; auto.
    + split; [discriminate|]. intros Hc. inversion Hc; subst. contradiction.
Qed.

Lemma Forall_zero_or_Exists (c : codebook) :
  Forall (fun x => symbol.length x = 0) c \/ Exists nonzero_length c.
Proof.
  induction c as [|x c [IH|IH]].
  - left; constructor.
  - destruct (Z.eq_dec (symbol.length x) 0).
    + left; constructor; auto.
    + right; constructor; auto.
  - right; apply Exists_cons_tl; auto.
Qed.

Lemma Exists_not_Forall_zero (c : codebook) :
  Exists nonzero_length c -> ~ Forall (fun x => symbol.length x = 0) c.
Proof.
  induction 1 as [x c Hx|x c _ IH]; intros Hc; inversion Hc; subst; auto.
Qed.

Lemma sort_insert_length (c : codebook) (p : nat) (l : symptrs) :
  List.length (sort_insert c p l) = S (List.length l).
Proof.
  induction l as [|q l IH]; simpl; auto.
  destruct (symptrs_Less c q p); simpl; auto.
Qed.

Lemma sort_Sort_length (c : codebook) (l : symptrs) :
  List.length (sort_Sort c l) = List.length l.
Proof.
  induction l as [|p l IH]; simpl; auto.
  rewrite sort_insert_length; auto.
Qed.

Lemma sort_Sort_nil (c : codebook) (l : symptrs) :
  sort_Sort c l = [] <-> l = [].
Proof.
  split; [|intros ->; reflexivity].
  intros E. apply (f_equal (@List.length nat)) in E.
  rewrite sort_Sort_length in E. destruct l; auto; discriminate.
Qed.

Lemma last_None_nil {A : Type} (l : list A) : last l = None <-> l = [].
Proof. apply last_None. Qed.

(** The index [len(sptrs)-1] is in range exactly when some slot has a
    nonzero length. *)
Lemma last_sptrs_in_range (c : codebook) :
  last (sort_Sort c (select_from 0 c)) <> None <-> Exists nonzero_length c.
Proof.
  rewrite last_None_nil, sort_Sort_nil, select_from_nil.
  split.
  - intros Hn. destruct (Forall_zero_or_Exists c); auto. contradiction.
  - apply Exists_not_Forall_zero.
Qed.

Lemma calculateCodes_all_zero (c : codebook) :
  Forall (fun x => symbol.length x = 0) c -> calculateCodes c = Panic.
Proof.
  intros Hc. unfold calculateCodes.
  apply select_from_nil with (i := 0%nat) in Hc. rewrite Hc. reflexivity.
Qed.

Lemma push_counts_all_zero (counts : list Z) (i : nat) (n : nodes) :
  Forall (fun v => v = 0) counts -> push_counts i counts n = n.
Proof.
  revert i. induction counts as [|v counts IH]; intros i Hc; simpl; auto.
  inversion Hc; subst. simpl. auto.
Qed.

Lemma walk_leaf_all_zero (w sym : Z) (m m' : codebook) :
  Forall (fun x => symbol.length x = 0) m ->
  walk (Leaf w sym) 0 m = Ret m' ->
  Forall (fun x => symbol.length x = 0) m'.
Proof.
  intros Hm. simpl. destruct (index m sym); simpl; [|discriminate].
  intros [= <-]. apply Forall_insert; auto.
Qed.

Lemma NewEncoder_all_zero (counts : list Z) :
  Forall (fun v => v = 0) counts -> NewEncoder counts = Panic.
Proof.
  intros Hc. unfold NewEncoder.
  rewrite push_counts_all_zero by auto. simpl.
  unfold make.
  destruct (_ && _); simpl; [|reflexivity].
  set (m := replicate _ _).
  assert (Hm : Forall (fun x => symbol.length x = 0) m).
  { apply Forall_replicate. reflexivity. }
  destruct (index m (u32 (len counts))); simpl; [|reflexivity].
  rewrite calculateCodes_all_zero; [reflexivity|].
  apply Forall_insert; auto.
Qed.

Lemma Forall_eq_or_Exists (counts : list Z) :
  Forall (fun v => v = 0) counts \/ Exists (fun v => v <> 0) counts.
Proof.
  induction counts as [|v counts [IH|IH]].
  - left; constructor.
  - destruct (Z.eq_dec v 0).
    + left; constructor; auto.
    + right; constructor; auto.
  - right; apply Exists_cons_tl; auto.
Qed.

(** C10: [calculateCodes] returns only on a codebook with a slot of
    nonzero length, which is exactly when its index [len(sptrs)-1] is in
    range; so [NewEncoder] returns only on counts with a nonzero entry,
    and [NewDecoder] returns only when the codebook it deserialized has
    a slot of nonzero length: on the bytes for zero slots, and on the
    bytes for three slots of length 0, it panics. *)
Theorem constructors_need_nonzero_length :
  (forall c, calculateCodes c <> Panic -> Exists nonzero_length c)
  /\ (forall c, last (sort_Sort c (select_from 0 c)) <> None
                <-> Exists nonzero_length c)
  /\ (forall counts, NewEncoder counts <> Panic -> Exists (fun v => v <> 0) counts)
  /\ (forall cb c, UnmarshalBinary cb = Ret (c, None) ->
                   NewDecoder cb <> Panic -> Exists nonzero_length c)
  /\ NewDecoder [0] = Panic
  /\ NewDecoder [3; 0; 0; 0] = Panic.
Proof.
  split; [|split; [|split; [|split; [|split]]]].
  - intros c Hc. destruct (Forall_zero_or_Exists c) as [Hz|]; auto.
    elim Hc. apply calculateCodes_all_zero; auto.
  - apply last_sptrs_in_range.
  - intros counts Hc. destruct (Forall_eq_or_Exists counts) as [Hz|]; auto.
    elim Hc. apply NewEncoder_all_zero; auto.
  - intros cb c Hu Hd. destruct (Forall_zero_or_Exists c) as [Hz|]; auto.
    elim Hd. unfold NewDecoder. rewrite Hu. simpl.
    rewrite calculateCodes_all_zero; auto.
  - reflexivity.
  - reflexivity.
Qed.

Lemma constructors_need_nonzero_length_witness :
  Exists nonzero_length [symbol.mk 0 0 1]
  /\ Exists (fun v => v <> 0) [0; 7].
Proof.
  split.
  - apply (proj1 constructors_need_nonzero_length [symbol.mk 0 0 1]).
    vm_compute. discriminate.
  - apply (proj1 (proj2 (proj2 constructors_need_nonzero_length)) [0; 7]).
    vm_compute. discriminate.
Defined.

(** ** Reading varints *)

Lemma land_127_bound (b : Z) : 0 <= Z.land b 127 < 128.
Proof.
  change 127 with (Z.ones 7). rewrite Z.land_ones by lia.
  apply Z.mod_pos_bound. lia.
Qed.

Lemma varint_value_nonneg (bs : list Z) : 0 <= varint_value bs.
Proof.
  induction bs as [|b bs IH]; simpl; [lia|].
  apply Z.lor_nonneg. split.
  - apply land_127_bound.
  - apply Z.shiftl_nonneg. exact IH.
Qed.

Lemma lor_lt_pow2 (a b n : Z) :
  0 <= n -> 0 <= a < 2 ^ n -> 0 <= b < 2 ^ n -> 0 <= Z.lor a b < 2 ^ n.
Proof.
  intros Hn Ha Hb.
  assert (Hnn : 0 <= Z.lor a b) by (apply Z.lor_nonneg; lia).
  split; [exact Hnn|].
  assert (Hpos : 0 < 2 ^ n) by (apply Z.pow_pos_nonneg; lia).
  destruct (Z.eq_dec (Z.lor a b) 0) as [Hz|Hz]; [lia|].
  apply Z.log2_lt_pow2; [lia|].
  rewrite Z.log2_lor by lia.
  assert (Hlog : forall c, 0 <= c < 2 ^ n -> c <> 0 -> Z.log2 c < n).
  { intros c Hc Hc0. apply Z.log2_lt_pow2; lia. }
  destruct (Z.eq_dec a 0) as [->|Ha0]; destruct (Z.eq_dec b 0) as [->|Hb0].
  - elim Hz. reflexivity.
  - rewrite Z.max_r by (simpl; apply Z.log2_nonneg). auto.
  - rewrite Z.max_l by (simpl; apply Z.log2_nonneg). auto.
  - apply Z.max_lub_lt; auto.
Qed.

Lemma varint_value_bound (bs : list Z) :
  varint_value bs < 2 ^ (7 * len bs).
Proof.
  induction bs as [|b bs IH]; simpl.
  - unfold len. simpl. lia.
  - unfold len in *. simpl List.length. rewrite Nat2Z.inj_succ.
    replace (7 * Z.succ (Z.of_nat (List.length bs)))
      with (7 * Z.of_nat (List.length bs) + 7) by lia.
    apply lor_lt_pow2; try lia.
    + pose proof (land_127_bound b).
      assert (2 ^ 7 <= 2 ^ (7 * Z.of_nat (List.length bs) + 7))
        by (apply Z.pow_le_mono_r; lia).
      lia.
    + pose proof (varint_value_nonneg bs).
      rewrite Z.shiftl_mul_pow2 by lia. rewrite Z.pow_add_r by lia.
      split; [lia|]. apply Z.mul_lt_mono_pos_r; lia.
Qed.

Lemma u64_small (x : Z) : 0 <= x < 2 ^ 64 -> u64 x = x.
Proof. intros Hx. unfold u64. apply Z.mod_small. exact Hx. Qed.

Lemma u32_small (x : Z) : 0 <= x < 2 ^ 32 -> u32 x = x.
Proof. intros Hx. unfold u32. apply Z.mod_small. exact Hx. Qed.

(** [ReadUvarint_loop] on a complete varint: round [i] starts with the
    groups read so far in [x], and ends on the final byte. *)
Lemma ReadUvarint_loop_complete (conts : list Z) :
  forall (k : nat) (i x : Z) (b : Z) (rest : list Z),
    Forall cont_byte conts -> final_byte b ->
    0 <= i -> (List.length conts < k)%nat ->
    i + len conts <= 9 ->
    (i + len conts = 9 -> b <= 1) ->
    ReadUvarint_loop k i x (7 * i) (conts ++ b :: rest)
    = (Z.lor x (Z.shiftl (varint_value (conts ++ [b])) (7 * i)), None, rest).
Proof.
  induction conts as [|c conts IH]; intros k i x b rest Hc Hb Hi Hk H9 Hlast.
  - destruct k as [|k]; [simpl in Hk; lia|]. unfold len in *. simpl in *.
    unfold final_byte in Hb.
    destruct (Z.ltb_spec b 128); [|lia].
    assert (Hchk : (i =? 9) && (1 <? b) = false).
    { destruct (Z.eqb_spec i 9); simpl; auto.
      destruct (Z.ltb_spec 1 b); auto. lia. }
    rewrite Hchk.
    assert (Hland : Z.land b 127 = b).
    { change 127 with (Z.ones 7). rewrite Z.land_ones by lia.
      apply Z.mod_small. lia. }
    rewrite Hland. simpl. rewrite Z.lor_0_r.
    rewrite u64_small; [reflexivity|].
    rewrite Z.shiftl_mul_pow2 by lia. split; [lia|].
    destruct (Z.eq_dec i 9) as [->|].
    + assert (b <= 1) by lia. change (7 * 9) with 63.
      change (2 ^ 64) with (2 * 2 ^ 63). nia.
    + assert (2 ^ (7 * i) <= 2 ^ 56) by (apply Z.pow_le_mono_r; lia).
      change (2 ^ 64) with (256 * 2 ^ 56). nia.
  - destruct k as [|k]; [simpl in Hk; lia|].
    inversion Hc as [|? ? Hc1 Hc2]; subst. unfold cont_byte in Hc1.
    unfold len in *. simpl List.length in *.
    simpl app. cbn [ReadUvarint_loop].
    destruct (Z.ltb_spec c 128); [lia|].
    replace (7 * i + 7) with (7 * (i + 1)) by lia.
    rewrite IH; auto; [|lia..].
    f_equal. f_equal.
    pose proof (land_127_bound c) as Hl.
    rewrite u64_small.
    + simpl varint_value.
      rewrite Z.shiftl_lor, Z.shiftl_shiftl by lia.
      rewrite Z.lor_assoc. f_equal. f_equal. lia.
    + rewrite Z.shiftl_mul_pow2 by lia. split; [lia|].
      assert (2 ^ (7 * i) <= 2 ^ 56) by (apply Z.pow_le_mono_r; lia).
      change (2 ^ 64) with (256 * 2 ^ 56). nia.
Qed.

Lemma ReadUvarint_complete (bs rest : list Z) :
  complete_varint bs ->
  ReadUvarint (bs ++ rest) = (varint_value bs, None, rest).
Proof.
  intros (conts & b & -> & Hc & Hb & Hlen & Hlast).
  unfold ReadUvarint. rewrite <- app_assoc. simpl app.
  change 0 with (7 * 0) at 2.
  rewrite ReadUvarint_loop_complete;
    auto; unfold len, MaxVarintLen64; lia.
Qed.

(** Continuation bytes alone never make a varint. *)
Lemma ReadUvarint_loop_partial (bs : list Z) :
  forall (k : nat) (i x s : Z),
    partial_varint bs ->
    exists x' e r, ReadUvarint_loop k i x s bs = (x', Some e, r).
Proof.
  induction bs as [|c bs IH]; intros k i x s Hp.
  - destruct k; simpl; eauto.
  - destruct k as [|k]; simpl; eauto.
    inversion Hp as [|? ? Hc1 Hc2]; subst. unfold cont_byte in Hc1.
    destruct (Z.ltb_spec c 128); [lia|].
    apply IH. exact Hc2.
Qed.

Lemma ReadUvarint_partial (bs : list Z) :
  partial_varint bs -> exists x' e r, ReadUvarint bs = (x', Some e, r).
Proof. apply ReadUvarint_loop_partial. Qed.

(** The loop of [UnmarshalBinary] on fewer complete varints than it has
    rounds left, followed by the start of a varint at most. *)
Lemma unmarshal_loop_truncated (vs : list (list Z)) :
  forall (k : nat) (i : Z) (tail : list Z) (c : codebook),
    Forall complete_varint vs -> (List.length vs < k)%nat ->
    partial_varint tail ->
    snd (unmarshal_loop k i (concat vs ++ tail) c) = Some ErrInvalidCodebook.
Proof.
  induction vs as [|v vs IH]; intros k i tail c Hvs Hk Hp.
  - destruct k as [|k]; [simpl in Hk; lia|]. simpl.
    destruct (ReadUvarint_partial tail Hp) as (x' & e & r & ->). reflexivity.
  - destruct k as [|k]; [simpl in Hk; lia|].
    inversion Hvs; subst. simpl concat. rewrite <- app_assoc.
    cbn [unmarshal_loop]. rewrite ReadUvarint_complete by assumption.
    apply IH; auto. simpl in Hk. lia.
Qed.

(** The amended form of C8. *)

(** C8 (amended): on a byte sequence that ends before the slot count
    could be read, or that declares fewer than 2^32 slots and ends
    before that many lengths could be read, [UnmarshalBinary] returns
    the invalid-codebook error, and [NewDecoder] returns that error and
    no decoder. *)
Theorem truncated_codebook_rejected (data : list Z) :
  cut_in_count data \/ (exists l, l < 2 ^ 32 /\ cut_in_lengths l data) ->
  (exists c, UnmarshalBinary data = Ret (c, Some ErrInvalidCodebook))
  /\ NewDecoder data = Ret (None, Some ErrInvalidCodebook).
Proof.
  intros Hcut.
  assert (Hu : exists c, UnmarshalBinary data = Ret (c, Some ErrInvalidCodebook)).
  { destruct Hcut as [Hp|(l & Hl & cb & vs & tail & -> & Hcb & Hv & Hvs & Hn & Hp)].
    - unfold UnmarshalBinary.
      destruct (ReadUvarint_partial data Hp) as (x' & e & r & ->). eauto.
    - unfold UnmarshalBinary.
      rewrite ReadUvarint_complete by assumption. rewrite Hv.
      pose proof (varint_value_nonneg cb) as Hnn. rewrite Hv in Hnn.
      unfold make.
      destruct (Z.leb_spec 0 l); [|lia].
      destruct (Z.leb_spec (l * 16) maxAlloc) as [|Hbig];
        [|unfold maxAlloc in Hbig; lia].
      simpl.
      set (c0 := replicate _ _).
      pose proof (unmarshal_loop_truncated vs (Z.to_nat (u32 l)) 0 tail c0 Hvs)
        as Hloop.
      rewrite u32_small in Hloop |- * by lia.
      unfold len in Hn.
      specialize (Hloop ltac:(lia) Hp).
      destruct (unmarshal_loop _ _ _ _) as [c e]. simpl in Hloop. subst e.
      eauto. }
  split; [exact Hu|].
  destruct Hu as (c & Hu). unfold NewDecoder. rewrite Hu. reflexivity.
Qed.

Lemma truncated_codebook_rejected_witness :
  NewDecoder [2; 1; 128] = Ret (None, Some ErrInvalidCodebook).
Proof.
  apply (truncated_codebook_rejected [2; 1; 128]).
  right. exists 2. split; [lia|].
  exists [2], [[1]], [128].
  split; [reflexivity|].
  split; [exists [], 2; repeat split; simpl; try lia; constructor|].
  split; [reflexivity|].
  split; [constructor; [|constructor];
          exists [], 1; repeat split; simpl; try lia; constructor|].
  split; [unfold len; simpl; lia|].
  constructor; [unfold cont_byte; lia|constructor].
Defined.

(** C8, as stated, fails: these eleven bytes declare 2^64-1 slots and
    end inside the first length; [UnmarshalBinary] panics in [make]. *)
Lemma truncated_codebook_not_rejected :
  truncated [255; 255; 255; 255; 255; 255; 255; 255; 255; 1; 128]
  /\ UnmarshalBinary [255; 255; 255; 255; 255; 255; 255; 255; 255; 1; 128]
     = Panic
  /\ NewDecoder [255; 255; 255; 255; 255; 255; 255; 255; 255; 1; 128]
     <> Ret (None, Some ErrInvalidCodebook).
Proof.
  split; [|split; [reflexivity|discriminate]].
  right. exists (2 ^ 64 - 1).
  exists [255; 255; 255; 255; 255; 255; 255; 255; 255; 1], [], [128].
  split; [reflexivity|].
  split.
  { exists [255; 255; 255; 255; 255; 255; 255; 255; 255], 1.
    split; [reflexivity|].
    split; [repeat constructor; unfold cont_byte; lia|].
    split; [unfold final_byte; lia|].
    split; simpl; lia. }
  split; [reflexivity|].
  split; [constructor|].
  split; [unfold len; simpl; lia|].
  constructor; [unfold cont_byte; lia|constructor].
Qed.

(** ** The sort in [calculateCodes] *)

Lemma sort_insert_perm (c : codebook) (p : nat) (l : symptrs) :
  sort_insert c p l ≡ₚ p :: l.
Proof.
  induction l as [|q l IH]; simpl; [reflexivity|].
  destruct (symptrs_Less c q p); [|reflexivity].
  rewrite IH. apply Permutation_swap.
Qed.

Lemma sort_Sort_perm (c : codebook) (l : symptrs) : sort_Sort c l ≡ₚ l.
Proof.
  induction l as [|p l IH]; simpl; [reflexivity|].
  rewrite sort_insert_perm, IH. reflexivity.
Qed.

(** The sort looks at the store only through the pointers it sorts. *)
Lemma sort_insert_ext (c c' : codebook) (p : nat) (l : symptrs) :
  c !! p = c' !! p -> Forall (fun q => c !! q = c' !! q) l ->
  sort_insert c p l = sort_insert c' p l.
Proof.
  intros Hp Hl. induction Hl as [|q l Hq Hl IH]; simpl; [reflexivity|].
  unfold symptrs_Less. rewrite <- Hp, <- Hq, IH. reflexivity.
Qed.

Lemma sort_Sort_ext (c c' : codebook) (l : symptrs) :
  Forall (fun q => c !! q = c' !! q) l -> sort_Sort c l = sort_Sort c' l.
Proof.
  intros Hl. induction Hl as [|q l Hq Hl IH]; simpl; [reflexivity|].
  rewrite <- IH. apply sort_insert_ext; auto.
  rewrite (sort_Sort_perm c l). exact Hl.
Qed.

Lemma select_from_spec (c : codebook) (i p : nat) :
  p ∈ select_from i c <->
  exists x, (i <= p)%nat /\ c !! (p - i)%nat = Some x /\ symbol.length x <> 0.
Proof.
  revert i. induction c as [|y c IH]; intros i; simpl.
  - split; [intros Hp; inversion Hp|intros (x & _ & Hx & _); discriminate].
  - assert (Hrest : p ∈ select_from (S i) c <->
      exists x, (i < p)%nat /\ c !! (p - S i)%nat = Some x
                /\ symbol.length x <> 0).
    { rewrite IH. split; intros (x & ? & ? & ?); exists x; auto with lia. }
    assert (Htail : forall x, (i < p)%nat ->
      (y :: c) !! (p - i)%nat = Some x <-> c !! (p - S i)%nat = Some x).
    { intros x Hlt. replace (p - i)%nat with (S (p - S i)) by lia. reflexivity. }
    destruct (Z.eqb_spec (symbol.length y) 0) as [E|E].
    + rewrite Hrest. split.
      * intros (x & Hlt & Hx & Hn). exists x. rewrite Htail by lia. auto with lia.
      * intros (x & Hle & Hx & Hn).
        destruct (decide (p = i)) as [->|Hne].
        { rewrite Nat.sub_diag in Hx. simpl in Hx. congruence. }
        exists x. rewrite <- Htail by lia. auto with lia.
    + rewrite elem_of_cons, Hrest. split.
      * intros [->|(x & Hlt & Hx & Hn)].
        { exists y. rewrite Nat.sub_diag. auto. }
        exists x. rewrite Htail by lia. auto with lia.
      * intros (x & Hle & Hx & Hn).
        destruct (decide (p = i)) as [->|Hne]; [left; reflexivity|right].
        exists x. rewrite <- Htail by lia. auto with lia.
Qed.

Lemma select_from_lt (c : codebook) (i : nat) :
  Forall (fun p => (i <= p)%nat) (select_from i c).
Proof.
  apply Forall_forall. intros p Hp.
  apply select_from_spec in Hp as (x & Hle & _). exact Hle.
Qed.

Lemma select_from_NoDup (c : codebook) (i : nat) : NoDup (select_from i c).
Proof.
  revert i. induction c as [|y c IH]; intros i; simpl; [constructor|].
  destruct (symbol.length y =? 0); [apply IH|].
  constructor; [|apply IH].
  intros Hin.
  pose proof (select_from_lt c (S i)) as Hlt.
  rewrite Forall_forall in Hlt. apply Hlt in Hin. lia.
Qed.

(** The sorted pointers: distinct, and exactly the slots with a code. *)
Lemma sptrs_NoDup (c : codebook) : NoDup (sort_Sort c (select_from 0 c)).
Proof. rewrite sort_Sort_perm. apply select_from_NoDup. Qed.

Lemma sptrs_spec (c : codebook) (p : nat) :
  p ∈ sort_Sort c (select_from 0 c) <->
  exists x, c !! p = Some x /\ symbol.length x <> 0.
Proof.
  rewrite sort_Sort_perm, select_from_spec. rewrite Nat.sub_0_r.
  split; intros (x & H); exists x; intuition lia.
Qed.

Lemma symptrs_Less_valid (c : codebook) (p q : nat) (a b : symbol.t) :
  c !! p = Some a -> c !! q = Some b -> symptrs_Less c p q = symbol_less a b.
Proof. intros Hp Hq. unfold symptrs_Less. rewrite Hp, Hq. reflexivity. Qed.

Lemma symbol_less_false (a b : symbol.t) :
  symbol_less b a = false <-> canonical_le a b.
Proof.
  unfold symbol_less, canonical_le.
  destruct (Z.ltb_spec (symbol.length b) (symbol.length a));
    destruct (Z.eqb_spec (symbol.length b) (symbol.length a));
    destruct (Z.ltb_spec (symbol.s b) (symbol.s a)); simpl;
    split; intros; try discriminate; lia.
Qed.

Lemma symbol_less_true (a b : symbol.t) :
  symbol_less a b = true -> canonical_le a b.
Proof.
  unfold symbol_less, canonical_le.
  destruct (Z.ltb_spec (symbol.length a) (symbol.length b));
    destruct (Z.eqb_spec (symbol.length a) (symbol.length b));
    destruct (Z.ltb_spec (symbol.s a) (symbol.s b)); simpl;
    intros; try discriminate; lia.
Qed.

Lemma canonical_le_trans (a b d : symbol.t) :
  canonical_le a b -> canonical_le b d -> canonical_le a d.
Proof. unfold canonical_le. lia. Qed.

Lemma canonical_le_length (a b : symbol.t) :
  canonical_le a b -> symbol.length a <= symbol.length b.
Proof. unfold canonical_le. lia. Qed.

(** The symbols behind a list of valid pointers. *)
Definition pointees (c : codebook) (ps : symptrs) : list symbol.t :=
  map (fun p => default symbol.zero (c !! p)) ps.

Definition valid_ptrs (c : codebook) (ps : symptrs) : Prop :=
  Forall (fun p => is_Some (c !! p)) ps.

Lemma pointees_insert (c : codebook) (p : nat) (l : symptrs) :
  is_Some (c !! p) -> valid_ptrs c l ->
  StronglySorted canonical_le (pointees c l) ->
  StronglySorted canonical_le (pointees c (sort_insert c p l)).
Proof.
  intros [a Ha] Hv Hs. induction l as [|q l IH]; simpl.
  - rewrite Ha. simpl. repeat constructor.
  - inversion Hv as [|? ? [b Hb] Hv']; subst.
    simpl in Hs. rewrite Hb in Hs. simpl in Hs.
    inversion Hs as [|? ? Hs' Hall]; subst.
    rewrite (symptrs_Less_valid c q p b a) by assumption.
    destruct (symbol_less b a) eqn:E.
    + simpl. rewrite Hb. simpl. constructor; [apply IH; auto|].
      change (Forall (canonical_le b) (pointees c (sort_insert c p l))).
      unfold pointees. rewrite sort_insert_perm. simpl. rewrite Ha. simpl.
      constructor; [apply symbol_less_true; exact E|exact Hall].
    + simpl. rewrite Ha, Hb. simpl.
      apply symbol_less_false in E.
      constructor; [constructor; assumption|].
      constructor; [exact E|].
      eapply Forall_impl; [exact Hall|].
      intros d Hd. simpl in Hd. eapply canonical_le_trans; eauto.
Qed.

Lemma valid_ptrs_perm (c : codebook) (l l' : symptrs) :
  l ≡ₚ l' -> valid_ptrs c l -> valid_ptrs c l'.
Proof. intros Hp. unfold valid_ptrs. rewrite Hp. auto. Qed.

Lemma pointees_sort (c : codebook) (l : symptrs) :
  valid_ptrs c l -> StronglySorted canonical_le (pointees c (sort_Sort c l)).
Proof.
  intros Hv. induction Hv as [|p l Hp Hv IH]; simpl; [constructor|].
  apply pointees_insert; auto.
  eapply valid_ptrs_perm; [symmetry; apply sort_Sort_perm|exact Hv].
Qed.

Lemma sorted_ptrs_valid (c : codebook) : valid_ptrs c (sorted_ptrs c).
Proof.
  apply Forall_forall. intros p Hp.
  apply sptrs_spec in Hp as (x & Hx & _). eauto.
Qed.

Lemma select_from_valid (c : codebook) : valid_ptrs c (select_from 0 c).
Proof.
  eapply valid_ptrs_perm; [apply sort_Sort_perm|apply sorted_ptrs_valid].
Qed.

(** The sorted symbols are in canonical order. *)
Lemma sorted_syms_sorted (c : codebook) :
  StronglySorted canonical_le (sorted_syms c).
Proof. apply pointees_sort, select_from_valid. Qed.

Lemma sorted_syms_points (c : codebook) :
  Forall2 (fun p x => c !! p = Some x) (sorted_ptrs c) (sorted_syms c).
Proof.
  unfold sorted_syms. pose proof (sorted_ptrs_valid c) as Hv.
  induction Hv as [|p l [x Hx] Hv IH]; simpl; constructor; auto.
  rewrite Hx. reflexivity.
Qed.

Lemma sorted_syms_nonzero (c : codebook) :
  Forall nonzero_length (sorted_syms c).
Proof.
  apply Forall_forall. intros x Hx. unfold sorted_syms in Hx.
  apply list_elem_of_fmap in Hx as (p & -> & Hp).
  apply sptrs_spec in Hp as (y & -> & Hy). exact Hy.
Qed.

Lemma sorted_syms_elem (c : codebook) (x : symbol.t) :
  x ∈ sorted_syms c -> x ∈ c.
Proof.
  intros Hx. unfold sorted_syms in Hx.
  apply list_elem_of_fmap in Hx as (p & -> & Hp).
  apply sptrs_spec in Hp as (y & Hy & _). rewrite Hy. simpl.
  eapply list_elem_of_lookup_2; eauto.
Qed.

(** ** Indexing *)

Lemma index_Ret {A : Type} (l : list A) (i : Z) (a : A) :
  index l i = Ret a <-> 0 <= i /\ l !! Z.to_nat i = Some a.
Proof.
  unfold index, len.
  destruct (Z.leb_spec 0 i); simpl.
  - destruct (Z.ltb_spec i (Z.of_nat (List.length l))); simpl.
    + destruct (l !! Z.to_nat i) eqn:E; split.
      * intros [= ->]. auto.
      * intros [_ [= ->]]. reflexivity.
      * discriminate.
      * intros [_ ?]. discriminate.
    + split; [discriminate|]. intros [_ Hl].
      apply lookup_lt_Some in Hl. lia.
  - split; [discriminate|]. lia.
Qed.

Lemma index_in_range {A : Type} (l : list A) (i : Z) :
  0 <= i < len l -> exists a, index l i = Ret a /\ l !! Z.to_nat i = Some a.
Proof.
  intros Hi. unfold len in Hi.
  destruct (lookup_lt_is_Some_2 l (Z.to_nat i)) as [a Ha]; [lia|].
  exists a. split; [|exact Ha]. apply index_Ret. split; [lia|exact Ha].
Qed.

Lemma index_out_of_range {A : Type} (l : list A) (i : Z) :
  i < 0 \/ len l <= i -> index l i = Panic.
Proof.
  intros Hi. unfold index.
  destruct (Z.leb_spec 0 i); simpl; auto.
  destruct (Z.ltb_spec i (len l)); simpl; auto. lia.
Qed.

(** ** The second loop of [calculateCodes] *)

Lemma set_codes_length (ps : symptrs) :
  forall (codes : list Z) (c : codebook),
    List.length (set_codes ps codes c) = List.length c.
Proof.
  induction ps as [|p ps IH]; intros codes c; simpl; auto.
  destruct codes as [|k codes]; auto.
  rewrite IH. destruct (c !! p); auto. apply length_insert.
Qed.

Lemma set_codes_notin (ps : symptrs) :
  forall (codes : list Z) (c : codebook) (q : nat),
    q ∉ ps -> set_codes ps codes c !! q = c !! q.
Proof.
  induction ps as [|p ps IH]; intros codes c q Hq; simpl; auto.
  destruct codes as [|k codes]; auto.
  rewrite not_elem_of_cons in Hq. destruct Hq as [Hne Hq].
  rewrite IH by assumption.
  destruct (c !! p); auto. apply list_lookup_insert_ne. auto.
Qed.

Lemma set_codes_lookup (ps : symptrs) :
  forall (codes : list Z) (c : codebook) (k p : nat) (cd : Z) (x : symbol.t),
    NoDup ps -> ps !! k = Some p -> codes !! k = Some cd -> c !! p = Some x ->
    set_codes ps codes c !! p = Some (symbol.with_code x cd).
Proof.
  induction ps as [|p0 ps IH]; intros codes c k p cd x Hnd Hk Hcd Hx;
    [discriminate|].
  destruct codes as [|k0 codes]; [discriminate|].
  inversion Hnd as [|? ? Hnotin Hnd']; subst.
  destruct k as [|k]; simpl in *.
  - injection Hk as ->. injection Hcd as ->. rewrite Hx.
    rewrite set_codes_notin by assumption.
    apply list_lookup_insert_eq. eapply lookup_lt_Some; eauto.
  - assert (Hne : p0 <> p).
    { intros ->. apply Hnotin. eapply list_elem_of_lookup_2; eauto. }
    assert (Hstore : (match c !! p0 with
                      | Some x0 => <[p0 := symbol.with_code x0 k0]> c
                      | None => c
                      end) !! p = Some x).
    { destruct (c !! p0); auto. rewrite list_lookup_insert_ne; auto. }
    eapply IH; eauto.
Qed.

Lemma tally_length (ls : list Z) :
  forall numl, List.length (tally ls numl) = List.length numl.
Proof.
  induction ls as [|l ls IH]; intros numl; simpl; auto.
  rewrite IH. apply length_insert.
Qed.

Lemma points_insert (c : codebook) (p : nat) (v : symbol.t) (ps : symptrs)
    (xs : list symbol.t) :
  p ∉ ps ->
  Forall2 (fun q y => c !! q = Some y) ps xs ->
  Forall2 (fun q y => <[p := v]> c !! q = Some y) ps xs.
Proof.
  intros Hnotin Hpts. induction Hpts as [|q y ps xs Hq Hpts IH];
    constructor.
  - rewrite list_lookup_insert_ne; auto.
    intros ->. apply Hnotin. left.
  - apply IH. intros Hin. apply Hnotin. right. exact Hin.
Qed.

(** The loop, as the codes of [canon] written through the pointers and
    the histogram of [tally]. *)
Lemma assign_spec (sptrs : symptrs) :
  forall (c : codebook) (code prevlen : Z) (numl : list Z)
         (xs : list symbol.t),
    NoDup sptrs ->
    Forall2 (fun p x => c !! p = Some x) sptrs xs ->
    Forall (fun x => 0 <= symbol.length x < len numl) xs ->
    assign sptrs c code prevlen numl
    = Ret (set_codes sptrs (canon code prevlen (map symbol.length xs)) c,
           tally (map symbol.length xs) numl).
Proof.
  induction sptrs as [|p ps IH]; intros c code prevlen numl xs Hnd Hpts Hlen.
  - inversion Hpts; subst. reflexivity.
  - inversion Hpts as [|? x ? xs' Hp Hpts']; subst.
    inversion Hnd as [|? ? Hnotin Hnd']; subst.
    inversion Hlen as [|? ? Hl Hlen']; subst.
    cbn [assign]. rewrite Hp.
    destruct (index_in_range numl (symbol.length x) Hl) as (k & Hk & Hk').
    rewrite Hk. cbn [mbind res_bind].
    rewrite IH with (xs := xs'); auto.
    + simpl. rewrite Hp, Hk'. reflexivity.
    + apply points_insert; assumption.
    + eapply Forall_impl; [exact Hlen'|]. intros y Hy. simpl in Hy.
      unfold len in *. rewrite length_insert. exact Hy.
Qed.

(** ** [calculateCodes], as a function of the codebook *)

Lemma sorted_lengths_sorted (c : codebook) :
  StronglySorted Z.le (sorted_lengths c).
Proof.
  unfold sorted_lengths. pose proof (sorted_syms_sorted c) as Hs.
  induction Hs as [|x xs Hs IH Hall]; simpl; constructor; auto.
  rewrite Forall_fmap. eapply Forall_impl; [exact Hall|].
  intros y Hy. simpl. apply canonical_le_length. exact Hy.
Qed.

Lemma sorted_last_max (ls : list Z) (m : Z) :
  StronglySorted Z.le ls -> last ls = Some m -> Forall (fun l => l <= m) ls.
Proof.
  intros Hs. induction Hs as [|l ls Hs IH Hall]; intros Hlast;
    [constructor|].
  destruct ls as [|l' ls'].
  - simpl in Hlast. injection Hlast as ->. repeat constructor. lia.
  - change (last (l :: l' :: ls')) with (last (l' :: ls')) in Hlast.
    constructor; [|apply IH; exact Hlast].
    rewrite Forall_forall in Hall. apply Hall.
    apply last_Some_elem_of. exact Hlast.
Qed.

Lemma sorted_lengths_le_max (c : codebook) :
  Forall (fun l => l <= max_length c) (sorted_lengths c).
Proof.
  unfold max_length. destruct (last (sorted_lengths c)) as [m|] eqn:E.
  - simpl. apply sorted_last_max; auto. apply sorted_lengths_sorted.
  - apply last_None in E. rewrite E. constructor.
Qed.

Lemma sorted_lengths_elem (c : codebook) (l : Z) :
  l ∈ sorted_lengths c -> exists x, x ∈ c /\ symbol.length x = l /\ l <> 0.
Proof.
  intros Hl. unfold sorted_lengths in Hl.
  apply list_elem_of_fmap in Hl as (x & -> & Hx).
  exists x. split; [apply sorted_syms_elem; exact Hx|].
  split; [reflexivity|].
  pose proof (sorted_syms_nonzero c) as Hn. rewrite Forall_forall in Hn.
  apply Hn. exact Hx.
Qed.

Lemma int64_small (x : Z) : - 2 ^ 63 <= x < 2 ^ 63 -> int64 x = x.
Proof.
  intros Hx. unfold int64. rewrite Z.mod_small; lia.
Qed.

Lemma calculateCodes_spec (c : codebook) :
  Exists nonzero_length c ->
  Forall (fun x => 0 <= symbol.length x < 2 ^ 40) c ->
  calculateCodes c
  = Ret (set_codes (sorted_ptrs c) (canon 0 (-1) (sorted_lengths c)) c,
         sorted_ptrs c,
         tally (sorted_lengths c) (replicate (Z.to_nat (max_length c + 1)) 0)).
Proof.
  intros Hex Hlen. unfold calculateCodes. fold (sorted_ptrs c).
  destruct (last (sorted_ptrs c)) as [p|] eqn:Elast.
  2: { apply last_sptrs_in_range in Hex. unfold sorted_ptrs in Elast.
       contradiction. }
  assert (Hp : p ∈ sorted_ptrs c) by (apply last_Some_elem_of; exact Elast).
  apply sptrs_spec in Hp as (x & Hx & Hnz). rewrite Hx.
  assert (Hmax : max_length c = symbol.length x).
  { unfold max_length, sorted_lengths, sorted_syms.
    rewrite !fmap_last. fold (sorted_ptrs c). rewrite Elast. simpl.
    rewrite Hx. reflexivity. }
  assert (Hxc : x ∈ c) by (eapply list_elem_of_lookup_2; eauto).
  rewrite Forall_forall in Hlen. pose proof (Hlen x Hxc) as Hxl.
  rewrite int64_small by lia.
  unfold make.
  destruct (Z.leb_spec 0 (symbol.length x + 1)); [|lia].
  destruct (Z.leb_spec ((symbol.length x + 1) * 4) maxAlloc) as [|Hbig];
    [|unfold maxAlloc in Hbig; lia].
  cbn [andb mbind res_bind].
  rewrite assign_spec with (xs := sorted_syms c).
  - cbn [mbind res_bind]. fold (sorted_lengths c). rewrite Hmax. reflexivity.
  - apply sptrs_NoDup.
  - apply sorted_syms_points.
  - apply Forall_forall. intros y Hy.
    assert (Hyl : symbol.length y ∈ sorted_lengths c).
    { unfold sorted_lengths. apply list_elem_of_fmap. eauto. }
    pose proof (sorted_lengths_le_max c) as Hle.
    rewrite Forall_forall in Hle. apply Hle in Hyl.
    pose proof (Hlen y (sorted_syms_elem c y Hy)).
    unfold len. rewrite length_replicate. lia.
Qed.

(** ** Kraft sums *)

Lemma kraft_nonneg (ls : list Z) : 0 <= kraft ls.
Proof.
  induction ls as [|l ls IH]; simpl; [lia|].
  pose proof (Z.pow_nonneg 2 (32 - l)). lia.
Qed.

Lemma kraft_app (ls ls' : list Z) : kraft (ls ++ ls') = kraft ls + kraft ls'.
Proof. induction ls as [|l ls IH]; simpl; lia. Qed.

Lemma kraft_perm (ls ls' : list Z) : ls ≡ₚ ls' -> kraft ls = kraft ls'.
Proof. induction 1; simpl; lia. Qed.

Lemma kraft_take_S (ls : list Z) (k : nat) (l : Z) :
  ls !! k = Some l ->
  kraft (take (S k) ls) = kraft (take k ls) + 2 ^ (32 - l).
Proof.
  intros Hk. rewrite (take_S_r _ _ _ Hk), kraft_app. simpl. lia.
Qed.

Lemma kraft_take_mono (ls : list Z) (j k : nat) :
  (j <= k)%nat -> kraft (take j ls) <= kraft (take k ls).
Proof.
  intros Hjk. replace k with (j + (k - j))%nat by lia.
  rewrite <- take_take_drop, kraft_app.
  pose proof (kraft_nonneg (take (k - j) (drop j ls))). lia.
Qed.

Lemma kraft_take_le (ls : list Z) (k : nat) : kraft (take k ls) <= kraft ls.
Proof.
  rewrite <- (take_drop k ls) at 2. rewrite kraft_app.
  pose proof (kraft_nonneg (drop k ls)). lia.
Qed.

Lemma pow2_pos (n : Z) : 0 <= n -> 0 < 2 ^ n.
Proof. intros Hn. apply Z.pow_pos_nonneg; lia. Qed.

Lemma pow2_split (a b : Z) : 0 <= a <= b -> 2 ^ b = 2 ^ (b - a) * 2 ^ a.
Proof.
  intros Hab. rewrite <- Z.pow_add_r by lia. f_equal. lia.
Qed.

(** ** The codes of [canon] on sorted lengths within Kraft's bound *)

(** The running [code] stands for the Kraft sum [K0] of the lengths
    already passed, cut to [prevlen] bits. *)
Definition canon_state (code prevlen K0 : Z) : Prop :=
  (prevlen = -1 /\ code = 0 /\ K0 = 0)
  \/ (1 <= prevlen <= 32 /\ 0 <= code /\ code * 2 ^ (32 - prevlen) = K0).

Lemma kraft_pos (ls : list Z) :
  ls <> [] -> Forall (fun l => 1 <= l <= 32) ls -> 1 <= kraft ls.
Proof.
  intros Hne Hall. destruct ls as [|l ls]; [contradiction|].
  inversion Hall; subst. simpl.
  pose proof (kraft_nonneg ls). pose proof (pow2_pos (32 - l)). lia.
Qed.

Lemma shl32_zero (n : Z) : shl32 0 n = 0.
Proof.
  unfold shl32. destruct (n <? 32); auto. rewrite Z.shiftl_0_l. reflexivity.
Qed.

Lemma canon_first (code prevlen K0 l : Z) :
  canon_state code prevlen K0 -> 1 <= l <= 32 -> prevlen <= l ->
  K0 + 2 ^ (32 - l) <= 2 ^ 32 ->
  let code1 := if prevlen <? l then shl32 code (u64 (l - prevlen)) else code in
  0 <= code1 /\ code1 * 2 ^ (32 - l) = K0
  /\ (if prevlen <? l then l else prevlen) = l.
Proof.
  intros Hst Hl Hle HK. cbv zeta.
  assert (Hpos : 0 < 2 ^ (32 - l)) by (apply pow2_pos; lia).
  destruct Hst as [(-> & -> & ->)|(Hp & Hc & HK0)].
  - destruct (Z.ltb_spec (-1) l); [|lia].
    rewrite shl32_zero. lia.
  - destruct (Z.ltb_spec prevlen l) as [Hlt|Hge].
    + rewrite u64_small by lia. unfold shl32.
      destruct (Z.ltb_spec (l - prevlen) 32); [|lia].
      rewrite Z.shiftl_mul_pow2 by lia.
      assert (Heq : code * 2 ^ (l - prevlen) * 2 ^ (32 - l) = K0).
      { rewrite <- Z.mul_assoc, <- Z.pow_add_r by lia.
        replace (l - prevlen + (32 - l)) with (32 - prevlen) by lia.
        exact HK0. }
      assert (Hpp : 0 < 2 ^ (l - prevlen)) by (apply pow2_pos; lia).
      assert (Hsmall : code * 2 ^ (l - prevlen) < 2 ^ 32).
      { assert (2 ^ 32 * 1 <= 2 ^ 32 * 2 ^ (32 - l)) by nia. nia. }
      rewrite u32_small by nia. split; [nia|]. split; [exact Heq|reflexivity].
    + assert (prevlen = l) by lia. subst. auto.
Qed.

Lemma canon_codes (ls : list Z) :
  forall code prevlen K0,
    StronglySorted Z.le ls ->
    Forall (fun l => 1 <= l <= 32) ls ->
    Forall (fun l => prevlen <= l) ls ->
    K0 + kraft ls <= 2 ^ 32 ->
    (ls <> [] -> canon_state code prevlen K0) ->
    forall k l, ls !! k = Some l ->
      exists cd, canon code prevlen ls !! k = Some cd
                 /\ 0 <= cd /\ cd * 2 ^ (32 - l) = K0 + kraft (take k ls).
Proof.
  induction ls as [|l0 ls IH];
    intros code prevlen K0 Hs Hr Hp HK Hst k l Hk; [discriminate|].
  specialize (Hst ltac:(discriminate)).
  inversion Hs as [|? ? Hs' Hall]; subst.
  inversion Hr as [|? ? Hl0 Hr']; subst.
  inversion Hp as [|? ? Hp0 Hp']; subst.
  simpl in HK. pose proof (kraft_nonneg ls) as Hkn.
  destruct (canon_first code prevlen K0 l0 Hst Hl0 Hp0 ltac:(lia))
    as (Hc1 & Hcode1 & Hprev).
  cbn [canon]. rewrite Hprev.
  set (code1 := if prevlen <? l0 then shl32 code (u64 (l0 - prevlen)) else code)
    in *.
  destruct k as [|k]; simpl in Hk.
  - injection Hk as <-. exists code1. simpl. split; [reflexivity|]. lia.
  - destruct (IH (u32 (code1 + 1)) l0 (K0 + 2 ^ (32 - l0)) Hs' Hr' Hall
                ltac:(lia)) with (k := k) (l := l) as (cd & Hcd & Hnn & Heq);
      auto.
    + intros Hne. right. split; [lia|].
      pose proof (kraft_pos ls Hne Hr').
      assert (Hpos : 0 < 2 ^ (32 - l0)) by (apply pow2_pos; lia).
      assert (Hsmall : code1 + 1 < 2 ^ 32) by nia.
      rewrite u32_small by lia. split; lia.
    + exists cd. simpl. split; [exact Hcd|]. split; [exact Hnn|]. lia.
Qed.

Lemma canon_length (ls : list Z) :
  forall code prevlen, List.length (canon code prevlen ls) = List.length ls.
Proof.
  induction ls as [|l ls IH]; intros code prevlen; simpl; auto.
Qed.

(** Lengths a code of 32 bits can carry, within Kraft's bound. *)
Definition kraft_ok (ls : list Z) : Prop :=
  Forall (fun l => 1 <= l <= 32) ls /\ kraft ls <= 2 ^ 32.

Lemma canon_table (ls : list Z) (k : nat) (l : Z) :
  StronglySorted Z.le ls -> kraft_ok ls -> ls !! k = Some l ->
  exists cd, canon 0 (-1) ls !! k = Some cd
             /\ 0 <= cd < 2 ^ l
             /\ cd * 2 ^ (32 - l) = kraft (take k ls).
Proof.
  intros Hs [Hr HK] Hk.
  destruct (canon_codes ls 0 (-1) 0 Hs Hr) with (k := k) (l := l)
    as (cd & Hcd & Hnn & Heq); auto.
  - eapply Forall_impl; [exact Hr|]. simpl. lia.
  - intros _. left. auto.
  - exists cd. split; [exact Hcd|]. split; [|lia].
    split; [exact Hnn|].
    pose proof (kraft_take_S ls k l Hk) as HS.
    pose proof (kraft_take_le ls (S k)) as Hle.
    assert (Hl : 1 <= l <= 32).
    { rewrite Forall_forall in Hr. apply Hr.
      eapply list_elem_of_lookup_2; eauto. }
    assert (Hpos : 0 < 2 ^ (32 - l)) by (apply pow2_pos; lia).
    assert (Hsplit : 2 ^ 32 = 2 ^ l * 2 ^ (32 - l)).
    { rewrite <- Z.pow_add_r by lia. f_equal. lia. }
    nia.
Qed.

(** ** Codes as bit strings *)

Lemma bits_msb_length (n : nat) (u : Z) : List.length (bits_msb n u) = n.
Proof. induction n as [|n IH]; simpl; auto. Qed.

Lemma bits_msb_app (a d : nat) (y : Z) :
  bits_msb (a + d) y = bits_msb a (Z.shiftr y (Z.of_nat d)) ++ bits_msb d y.
Proof.
  induction a as [|a IH]; simpl; [reflexivity|].
  rewrite IH. f_equal. rewrite Z.shiftr_spec by lia. f_equal. lia.
Qed.

Lemma bits_msb_testbit (a : nat) (x y : Z) :
  bits_msb a x = bits_msb a y ->
  forall i, 0 <= i < Z.of_nat a -> Z.testbit x i = Z.testbit y i.
Proof.
  induction a as [|a IH]; intros Heq i Hi; [lia|].
  simpl in Heq. injection Heq as Hhd Htl.
  destruct (Z.eq_dec i (Z.of_nat a)) as [->|Hne]; [exact Hhd|].
  apply IH; [exact Htl|lia].
Qed.

Lemma testbit_above (x n i : Z) :
  0 <= x < 2 ^ n -> 0 <= n <= i -> Z.testbit x i = false.
Proof.
  intros Hx Hi. destruct (Z.eq_dec x 0) as [->|Hz]; [apply Z.bits_0|].
  apply Z.bits_above_log2; [lia|].
  assert (Z.log2 x < n) by (apply Z.log2_lt_pow2; lia). lia.
Qed.

Lemma bits_msb_inj (a : nat) (x y : Z) :
  0 <= x < 2 ^ Z.of_nat a -> 0 <= y < 2 ^ Z.of_nat a ->
  bits_msb a x = bits_msb a y -> x = y.
Proof.
  intros Hx Hy Heq. apply Z.bits_inj'. intros i Hi.
  destruct (Z.lt_ge_cases i (Z.of_nat a)).
  - apply (bits_msb_testbit a); auto.
  - rewrite (testbit_above x (Z.of_nat a)), (testbit_above y (Z.of_nat a));
      auto; lia.
Qed.

Lemma bits_msb_prefix (a b : nat) (x y : Z) :
  (a <= b)%nat -> bits_msb a x `prefix_of` bits_msb b y ->
  bits_msb a x = bits_msb a (Z.shiftr y (Z.of_nat (b - a))).
Proof.
  intros Hab [k Hk]. replace b with (a + (b - a))%nat in Hk by lia.
  rewrite bits_msb_app in Hk.
  apply app_inj_1 in Hk; [|rewrite !bits_msb_length; reflexivity].
  symmetry. apply Hk.
Qed.

(** Two codes that the canonical assignment keeps apart are not
    prefixes of one another. *)
Lemma codes_not_prefix (la lb ca cb : Z) :
  1 <= la <= lb -> 0 <= ca < 2 ^ la -> 0 <= cb < 2 ^ lb ->
  (ca + 1) * 2 ^ (lb - la) <= cb ->
  ~ bits_msb (Z.to_nat la) ca `prefix_of` bits_msb (Z.to_nat lb) cb
  /\ ~ bits_msb (Z.to_nat lb) cb `prefix_of` bits_msb (Z.to_nat la) ca.
Proof.
  intros Hl Ha Hb Hgap.
  assert (Hpos : 0 < 2 ^ (lb - la)) by (apply pow2_pos; lia).
  assert (Hsplit : 2 ^ lb = 2 ^ la * 2 ^ (lb - la)).
  { rewrite <- Z.pow_add_r by lia. f_equal. lia. }
  split; intros Hpre.
  - apply bits_msb_prefix in Hpre; [|lia].
    apply bits_msb_inj in Hpre.
    + rewrite Z.shiftr_div_pow2 in Hpre by lia.
      replace (Z.of_nat (Z.to_nat lb - Z.to_nat la)) with (lb - la) in Hpre
        by lia.
      assert (ca + 1 <= cb / 2 ^ (lb - la)).
      { apply Z.div_le_lower_bound; lia. }
      lia.
    + rewrite Z2Nat.id by lia. exact Ha.
    + rewrite Z2Nat.id by lia. rewrite Z.shiftr_div_pow2 by lia.
      replace (Z.of_nat (Z.to_nat lb - Z.to_nat la)) with (lb - la) by lia.
      split; [apply Z.div_pos; lia|].
      apply Z.div_lt_upper_bound; lia.
  - assert (Hlen : (Z.to_nat lb <= Z.to_nat la)%nat).
    { apply prefix_length in Hpre. rewrite !bits_msb_length in Hpre. exact Hpre. }
    assert (lb = la) by lia. subst lb.
    apply bits_msb_prefix in Hpre; [|lia].
    rewrite Nat.sub_diag, Z.shiftr_0_r in Hpre.
    apply bits_msb_inj in Hpre; try (rewrite Z2Nat.id by lia; assumption).
    rewrite Z.sub_diag in Hgap. simpl in Hgap. lia.
Qed.

Lemma sorted_lookup_le (ls : list Z) (j k : nat) (a b : Z) :
  StronglySorted Z.le ls -> (j < k)%nat ->
  ls !! j = Some a -> ls !! k = Some b -> a <= b.
Proof.
  intros Hs. revert j k. induction Hs as [|l ls Hs IH Hall];
    intros j k Hjk Hj Hk; [discriminate|].
  destruct k as [|k]; [lia|]. simpl in Hk.
  destruct j as [|j]; simpl in Hj.
  - injection Hj as <-. rewrite Forall_forall in Hall. apply Hall.
    eapply list_elem_of_lookup_2; eauto.
  - apply (IH j k); auto. lia.
Qed.

(** Along the sorted lengths, a later code leaves the whole block of an
    earlier code behind. *)
Lemma canon_gap (ls : list Z) (j k : nat) (lj lk cj ck : Z) :
  StronglySorted Z.le ls -> kraft_ok ls -> (j < k)%nat ->
  ls !! j = Some lj -> ls !! k = Some lk ->
  canon 0 (-1) ls !! j = Some cj -> canon 0 (-1) ls !! k = Some ck ->
  1 <= lj <= lk /\ lk <= 32 /\ 0 <= cj < 2 ^ lj /\ 0 <= ck < 2 ^ lk
  /\ (cj + 1) * 2 ^ (lk - lj) <= ck.
Proof.
  intros Hs Hok Hjk Hj Hk Hcj Hck.
  destruct (canon_table ls j lj Hs Hok Hj) as (cj' & Hcj' & Hbj & Hej).
  destruct (canon_table ls k lk Hs Hok Hk) as (ck' & Hck' & Hbk & Hek).
  rewrite Hcj in Hcj'. injection Hcj' as <-.
  rewrite Hck in Hck'. injection Hck' as <-.
  pose proof (sorted_lookup_le ls j k lj lk Hs Hjk Hj Hk) as Hle.
  destruct Hok as [Hr _]. rewrite Forall_forall in Hr.
  assert (Hlj : 1 <= lj <= 32)
    by (apply Hr; eapply list_elem_of_lookup_2; eauto).
  assert (Hlk : 1 <= lk <= 32)
    by (apply Hr; eapply list_elem_of_lookup_2; eauto).
  repeat (split; [lia|]).
  pose proof (kraft_take_S ls j lj Hj) as HS.
  pose proof (kraft_take_mono ls (S j) k ltac:(lia)) as Hmono.
  assert (Hpos : 0 < 2 ^ (32 - lk)) by (apply pow2_pos; lia).
  assert (Hsplit : 2 ^ (32 - lj) = 2 ^ (lk - lj) * 2 ^ (32 - lk)).
  { rewrite <- Z.pow_add_r by lia. f_equal. lia. }
  assert (Hpp : 0 < 2 ^ (lk - lj)) by (apply pow2_pos; lia).
  nia.
Qed.

(** ** The codes are prefix-free *)

Lemma pointees_select (pre c : codebook) :
  map (fun p => default symbol.zero ((pre ++ c) !! p))
      (select_from (List.length pre) c)
  = filter (fun x => symbol.length x <> 0) c.
Proof.
  revert pre. induction c as [|x c IH]; intros pre; simpl; [reflexivity|].
  assert (Hpre : pre ++ x :: c = (pre ++ [x]) ++ c)
    by (rewrite <- app_assoc; reflexivity).
  assert (Hlen : S (List.length pre) = List.length (pre ++ [x]))
    by (rewrite length_app; simpl; lia).
  destruct (Z.eqb_spec (symbol.length x) 0) as [E|E].
  - rewrite filter_cons_False by (intros Hn; apply Hn; exact E).
    rewrite Hpre, Hlen. apply IH.
  - rewrite filter_cons_True by exact E. simpl. f_equal.
    + rewrite list_lookup_middle by reflexivity. reflexivity.
    + rewrite Hpre, Hlen. apply IH.
Qed.

Lemma sorted_lengths_perm (c : codebook) : sorted_lengths c ≡ₚ code_lengths c.
Proof.
  unfold sorted_lengths, code_lengths, sorted_syms, sorted_ptrs.
  rewrite sort_Sort_perm.
  pose proof (pointees_select [] c) as Hsel. simpl in Hsel.
  rewrite Hsel. reflexivity.
Qed.

Lemma sorted_lengths_kraft_ok (c : codebook) :
  Forall (fun x => 0 <= symbol.length x <= 32) c ->
  kraft (code_lengths c) <= 2 ^ 32 ->
  kraft_ok (sorted_lengths c).
Proof.
  intros Hlen HK. split.
  - apply Forall_forall. intros l Hl.
    apply sorted_lengths_elem in Hl as (x & Hx & <- & Hnz).
    rewrite Forall_forall in Hlen. apply Hlen in Hx. lia.
  - rewrite (kraft_perm _ _ (sorted_lengths_perm c)). exact HK.
Qed.

Lemma sorted_ptrs_NoDup (c : codebook) : NoDup (sorted_ptrs c).
Proof. apply sptrs_NoDup. Qed.

(** A slot with a code after [calculateCodes]: its place in the sorted
    order, and the code [canon] gave it. *)
Lemma coded_slot (c : codebook) (i : nat) (x : symbol.t) :
  set_codes (sorted_ptrs c) (canon 0 (-1) (sorted_lengths c)) c !! i = Some x ->
  nonzero_length x ->
  exists k cd,
    sorted_ptrs c !! k = Some i
    /\ sorted_lengths c !! k = Some (symbol.length x)
    /\ canon 0 (-1) (sorted_lengths c) !! k = Some cd
    /\ symbol.code x = cd.
Proof.
  intros Hi Hnz.
  destruct (decide (i ∈ sorted_ptrs c)) as [Hin|Hnotin].
  - apply list_elem_of_lookup_1 in Hin as [k Hk].
    assert (Hv : i ∈ sorted_ptrs c) by (eapply list_elem_of_lookup_2; eauto).
    apply sptrs_spec in Hv as (x0 & Hx0 & _).
    assert (Hl : sorted_lengths c !! k = Some (symbol.length x0)).
    { unfold sorted_lengths, sorted_syms. rewrite !list_lookup_fmap, Hk.
      simpl. rewrite Hx0. reflexivity. }
    destruct (lookup_lt_is_Some_2 (canon 0 (-1) (sorted_lengths c)) k)
      as [cd Hcd].
    { rewrite canon_length. eapply lookup_lt_Some; eauto. }
    rewrite (set_codes_lookup _ _ _ k i cd x0 (sorted_ptrs_NoDup c) Hk Hcd Hx0)
      in Hi.
    injection Hi as <-. exists k, cd. simpl. auto.
  - rewrite set_codes_notin in Hi by assumption.
    elim Hnotin. apply sptrs_spec. eauto.
Qed.

(** C6 (amended): for a codebook with a slot of nonzero length, whose
    lengths are at most 32 and satisfy Kraft's inequality,
    [calculateCodes] returns, and among the slots of nonzero length no
    code is a prefix of the code of another slot. *)
Theorem canonical_codes_prefix_free (c : codebook) :
  Exists nonzero_length c ->
  Forall (fun x => 0 <= symbol.length x <= 32) c ->
  kraft (code_lengths c) <= 2 ^ 32 ->
  exists c' sptrs numl,
    calculateCodes c = Ret (c', sptrs, numl)
    /\ forall i j x y,
         i <> j -> c' !! i = Some x -> c' !! j = Some y ->
         nonzero_length x -> nonzero_length y ->
         ~ code_bits x `prefix_of` code_bits y.
Proof.
  intros Hex Hlen HK.
  do 3 eexists. split.
  { apply calculateCodes_spec; auto.
    eapply Forall_impl; [exact Hlen|]. simpl. lia. }
  intros i j x y Hij Hi Hj Hx Hy.
  pose proof (sorted_lengths_sorted c) as Hs.
  pose proof (sorted_lengths_kraft_ok c Hlen HK) as Hok.
  destruct (coded_slot c i x Hi Hx) as (ki & ci & Hki & Hli & Hci & Hxc).
  destruct (coded_slot c j y Hj Hy) as (kj & cj & Hkj & Hlj & Hcj & Hyc).
  unfold code_bits. rewrite Hxc, Hyc.
  destruct (Nat.lt_total ki kj) as [Hlt|[Heq|Hlt]].
  - destruct (canon_gap _ ki kj _ _ ci cj Hs Hok Hlt Hli Hlj Hci Hcj)
      as (H1 & H2 & H3 & H4 & H5).
    apply (codes_not_prefix _ _ ci cj); auto.
  - subst kj. rewrite Hki in Hkj. injection Hkj as ->. contradiction.
  - destruct (canon_gap _ kj ki _ _ cj ci Hs Hok Hlt Hlj Hli Hcj Hci)
      as (H1 & H2 & H3 & H4 & H5).
    apply (codes_not_prefix _ _ cj ci); auto.
Qed.

Lemma canonical_codes_prefix_free_witness :
  exists c' sptrs numl,
    calculateCodes [symbol.mk 0 0 1; symbol.mk 1 0 2; symbol.mk 2 0 2]
    = Ret (c', sptrs, numl)
    /\ forall i j x y,
         i <> j -> c' !! i = Some x -> c' !! j = Some y ->
         nonzero_length x -> nonzero_length y ->
         ~ code_bits x `prefix_of` code_bits y.
Proof.
  apply (canonical_codes_prefix_free
           [symbol.mk 0 0 1; symbol.mk 1 0 2; symbol.mk 2 0 2]).
  - constructor. unfold nonzero_length. simpl. lia.
  - repeat constructor; simpl; lia.
  - vm_compute. discriminate.
Defined.

(** C6, as stated, fails: three slots of length 1 get the codes 0, 1
    and 2, and as bit strings of one bit the first and the third are
    the same string. *)
Lemma canonical_codes_not_prefix_free :
  Exists nonzero_length [symbol.mk 0 0 1; symbol.mk 1 0 1; symbol.mk 2 0 1]
  /\ calculateCodes [symbol.mk 0 0 1; symbol.mk 1 0 1; symbol.mk 2 0 1]
     = Ret ([symbol.mk 0 0 1; symbol.mk 1 1 1; symbol.mk 2 2 1],
            [0%nat; 1%nat; 2%nat], [0; 3])
  /\ code_bits (symbol.mk 0 0 1) `prefix_of` code_bits (symbol.mk 2 2 1).
Proof.
  split; [constructor; unfold nonzero_length; simpl; lia|].
  split; [reflexivity|].
  exists []. reflexivity.
Qed.

(** ** [container/heap] on [nodes] *)

Section HeapOrder.
Local Open Scope nat_scope.

Lemma parent_lt (k : nat) : 0 < k -> (k - 1) / 2 < k.
Proof.
  intros Hk. pose proof (Nat.div_mod_eq (k - 1) 2).
  pose proof (Nat.mod_upper_bound (k - 1) 2). lia.
Qed.

Lemma parent_child (i k : nat) :
  0 < k -> ((k - 1) / 2 = i <-> k = 2 * i + 1 \/ k = 2 * i + 2).
Proof.
  intros Hk. pose proof (Nat.div_mod_eq (k - 1) 2).
  pose proof (Nat.mod_upper_bound (k - 1) 2). lia.
Qed.

Lemma Less_wt (h : nodes) (i j : nat) :
  i < length h -> j < length h -> Less h i j = (wt h i <? wt h j)%Z.
Proof.
  intros Hi Hj. unfold Less, wt.
  destruct (lookup_lt_is_Some_2 h i Hi) as [a ->].
  destruct (lookup_lt_is_Some_2 h j Hj) as [b ->]. reflexivity.
Qed.

Lemma Swap_length (h : nodes) (i j : nat) : length (Swap h i j) = length h.
Proof.
  unfold Swap. destruct (h !! i), (h !! j); auto.
  rewrite !length_insert. reflexivity.
Qed.

Lemma Swap_lookup (h : nodes) (i j k : nat) :
  i < length h -> j < length h ->
  Swap h i j !! k
  = if decide (k = i) then h !! j else if decide (k = j) then h !! i
    else h !! k.
Proof.
  intros Hi Hj. unfold Swap.
  destruct (lookup_lt_is_Some_2 h i Hi) as [a Ha].
  destruct (lookup_lt_is_Some_2 h j Hj) as [b Hb].
  rewrite Ha, Hb.
  destruct (decide (k = i)) as [Eki|Hki]; destruct (decide (k = j)) as [Ekj|Hkj].
  - subst i j. rewrite list_lookup_insert_eq by (rewrite length_insert; lia).
    congruence.
  - subst i. rewrite list_lookup_insert_ne by auto.
    rewrite list_lookup_insert_eq by lia. reflexivity.
  - subst j. rewrite list_lookup_insert_eq by (rewrite length_insert; lia).
    reflexivity.
  - rewrite !list_lookup_insert_ne by auto. reflexivity.
Qed.

Lemma wt_Swap (h : nodes) (i j k : nat) :
  i < length h -> j < length h ->
  wt (Swap h i j) k
  = if decide (k = i) then wt h j else if decide (k = j) then wt h i
    else wt h k.
Proof.
  intros Hi Hj. unfold wt. rewrite Swap_lookup by assumption.
  destruct (decide (k = i)); [reflexivity|].
  destruct (decide (k = j)); reflexivity.
Qed.

Lemma insert_cons_perm (h : nodes) (j : nat) (a b : node) :
  h !! j = Some b -> b :: <[j := a]> h ≡ₚ a :: h.
Proof.
  revert j. induction h as [|y h IH]; intros j Hj; [discriminate|].
  destruct j as [|j]; simpl in *.
  - injection Hj as ->. apply Permutation_swap.
  - rewrite (Permutation_swap y b). rewrite (IH j Hj).
    apply Permutation_swap.
Qed.

Lemma Swap_perm (h : nodes) (i j : nat) : Swap h i j ≡ₚ h.
Proof.
  unfold Swap. destruct (h !! i) as [a|] eqn:Ha; [|reflexivity].
  destruct (h !! j) as [b|] eqn:Hb; [|reflexivity].
  revert i j Ha Hb. induction h as [|y h IH]; intros i j Ha Hb;
    [discriminate|].
  destruct i as [|i]; destruct j as [|j]; simpl in *.
  - injection Ha as ->. reflexivity.
  - injection Ha as ->. apply insert_cons_perm. exact Hb.
  - injection Hb as ->. apply insert_cons_perm. exact Ha.
  - constructor. apply IH; assumption.
Qed.

Lemma up_perm (fuel : nat) : forall (h : nodes) (j : nat), up fuel h j ≡ₚ h.
Proof.
  induction fuel as [|fuel IH]; intros h j; simpl; [reflexivity|].
  destruct (_ || _); [reflexivity|].
  rewrite IH. apply Swap_perm.
Qed.

Lemma down_perm (fuel : nat) :
  forall (h : nodes) (i n : nat), down fuel h i n ≡ₚ h.
Proof.
  induction fuel as [|fuel IH]; intros h i n; cbn [down]; [reflexivity|].
  destruct (n <=? 2 * i + 1); [reflexivity|].
  destruct (negb _); [reflexivity|].
  rewrite IH. apply Swap_perm.
Qed.

Lemma up_inv_done (h : nodes) (j : nat) :
  j < length h -> up_inv h j ->
  ((j - 1) / 2 = j \/ (wt h ((j - 1) / 2) <= wt h j)%Z) -> heap_ok h.
Proof.
  intros Hj [Hpairs _] Hdone. unfold heap_ok, heap_ok_n. intros k Hk.
  destruct (decide (k = j)) as [->|Hne]; [|apply Hpairs; auto].
  destruct Hdone as [Hroot|Hle]; [|exact Hle].
  pose proof (parent_lt j). lia.
Qed.

Lemma up_inv_step (h : nodes) (j : nat) :
  0 < j < length h -> up_inv h j ->
  (wt h j < wt h ((j - 1) / 2))%Z ->
  up_inv (Swap h ((j - 1) / 2) j) ((j - 1) / 2).
Proof.
  intros Hj [Hpairs Hgrand] Hlt.
  pose proof (parent_lt j ltac:(lia)) as Hpj.
  set (i := (j - 1) / 2) in *.
  assert (Hi : i < length h) by lia.
  split.
  - intros k Hk Hki. rewrite Swap_length in Hk.
    pose proof (parent_lt k ltac:(lia)) as Hpk.
    rewrite !wt_Swap by lia.
    destruct (decide (k = i)) as [|_]; [contradiction|].
    destruct (decide ((k - 1) / 2 = i)) as [Epi|Hpi].
    + destruct (decide (k = j)) as [->|Hkj]; [lia|].
      assert (wt h ((k - 1) / 2) <= wt h k)%Z by (apply Hpairs; auto).
      rewrite Epi in *. lia.
    + destruct (decide ((k - 1) / 2 = j)) as [Epj|Hpj'].
      * destruct (decide (k = j)) as [->|Hkj]; [lia|].
        apply Hgrand; auto; lia.
      * destruct (decide (k = j)) as [->|Hkj]; [contradiction|].
        apply Hpairs; auto.
  - intros Hi0 k Hk Hpk. rewrite Swap_length in Hk.
    pose proof (parent_lt i Hi0) as Hpi.
    rewrite !wt_Swap by lia.
    destruct (decide ((i - 1) / 2 = i)) as [|_]; [lia|].
    destruct (decide ((i - 1) / 2 = j)) as [|_]; [lia|].
    destruct (decide (k = i)) as [Eki|_]; [rewrite Eki in Hpk; lia|].
    assert (Hgi : (wt h ((i - 1) / 2) <= wt h i)%Z) by (apply Hpairs; lia).
    destruct (decide (k = j)) as [->|Hkj]; [exact Hgi|].
    assert (wt h ((k - 1) / 2) <= wt h k)%Z by (apply Hpairs; auto).
    rewrite Hpk in *. lia.
Qed.

Lemma up_heap (fuel : nat) :
  forall (h : nodes) (j : nat),
    j <= fuel -> j < length h -> up_inv h j -> heap_ok (up fuel h j).
Proof.
  induction fuel as [|fuel IH]; intros h j Hfuel Hj Hinv.
  - simpl. apply (up_inv_done h j); auto. left.
    assert (j = 0) by lia. subst. reflexivity.
  - cbn [up].
    destruct (Nat.eqb_spec ((j - 1) / 2) j) as [Eroot|Hnr]; cbn [orb].
    + apply (up_inv_done h j); auto.
    + assert (Hj0 : 0 < j).
      { destruct j; [|lia]. elim Hnr. reflexivity. }
      pose proof (parent_lt j Hj0) as Hpj.
      rewrite Less_wt by lia.
      destruct (Z.ltb_spec (wt h j) (wt h ((j - 1) / 2))) as [Hlt|Hge];
        cbn [negb].
      * apply IH; [lia|rewrite Swap_length; lia|].
        apply up_inv_step; auto.
      * apply (up_inv_done h j); auto.
Qed.

Lemma down_inv_done (h : nodes) (i n : nat) :
  down_inv h i n ->
  (forall k : nat, 0 < k < n -> (k - 1) / 2 = i -> (wt h i <= wt h k)%Z) ->
  heap_ok_n h n.
Proof.
  intros [Hpairs _] Hdone k Hk.
  destruct (decide ((k - 1) / 2 = i)) as [Epi|Hpi].
  - rewrite Epi. apply Hdone; auto.
  - apply Hpairs; auto.
Qed.

Lemma down_inv_step (h : nodes) (i j n : nat) :
  n <= length h -> 0 < j < n -> (j - 1) / 2 = i -> down_inv h i n ->
  (forall k : nat, 0 < k < n -> (k - 1) / 2 = i -> (wt h j <= wt h k)%Z) ->
  (wt h j < wt h i)%Z ->
  down_inv (Swap h i j) j n.
Proof.
  intros Hn Hj Hpj [Hpairs Hgrand] Hmin Hlt.
  pose proof (parent_lt j ltac:(lia)) as Hij. rewrite Hpj in Hij.
  split.
  - intros k Hk Hpk.
    pose proof (parent_lt k ltac:(lia)) as Hpk'.
    rewrite !wt_Swap by lia.
    destruct (decide ((k - 1) / 2 = j)) as [|_]; [contradiction|].
    destruct (decide ((k - 1) / 2 = i)) as [Epi|Hpi].
    + destruct (decide (k = i)) as [Eki|_]; [rewrite Eki in Hpk'; lia|].
      destruct (decide (k = j)) as [_|Hkj]; [lia|].
      apply Hmin; auto.
    + destruct (decide (k = i)) as [Eki|Hki].
      * subst k. apply Hgrand; auto; lia.
      * destruct (decide (k = j)) as [Ekj|Hkj]; [subst k; contradiction|].
        apply Hpairs; auto.
  - intros Hj0 k Hk Hpk.
    pose proof (parent_lt k ltac:(lia)) as Hpk'.
    rewrite !wt_Swap by lia. rewrite Hpj.
    destruct (decide (i = i)) as [_|]; [|contradiction].
    destruct (decide (k = i)) as [Eki|_]; [lia|].
    destruct (decide (k = j)) as [Ekj|_]; [lia|].
    assert (Hle : (wt h ((k - 1) / 2) <= wt h k)%Z) by (apply Hpairs; lia).
    rewrite Hpk in Hle. exact Hle.
Qed.

Lemma down_heap (fuel : nat) :
  forall (h : nodes) (i n : nat),
    n - i <= fuel -> n <= length h -> down_inv h i n ->
    heap_ok_n (down fuel h i n) n
    /\ length (down fuel h i n) = length h
    /\ (forall k : nat, n <= k -> down fuel h i n !! k = h !! k).
Proof.
  induction fuel as [|fuel IH]; intros h i n Hfuel Hn Hinv.
  - cbn [down]. split; [|auto].
    apply (down_inv_done h i n Hinv). intros k Hk Hpk.
    pose proof (parent_lt k ltac:(lia)). lia.
  - cbn [down].
    destruct (Nat.leb_spec n (2 * i + 1)) as [Hleaf|Hchild].
    { split; [|auto]. apply (down_inv_done h i n Hinv). intros k Hk Hpk.
      apply parent_child in Hpk; lia. }
    set (j1 := 2 * i + 1) in *. set (j2 := j1 + 1).
    set (j := if (j2 <? n) && Less h j2 j1 then j2 else j1).
    assert (Hjsel : (j = j1 \/ j = j2) /\ j < n
                    /\ (wt h j <= wt h j1)%Z
                    /\ (j2 < n -> (wt h j <= wt h j2)%Z)).
    { subst j. destruct (Nat.ltb_spec j2 n) as [H2|H2]; cbn [andb].
      - rewrite Less_wt by lia.
        destruct (Z.ltb_spec (wt h j2) (wt h j1)); repeat split; auto; lia.
      - repeat split; auto; lia. }
    destruct Hjsel as (Hj12 & Hjn & Hle1 & Hle2).
    assert (Hpj : (j - 1) / 2 = i).
    { apply parent_child; [lia|]. subst j1 j2. lia. }
    assert (Hmin : forall k : nat, 0 < k < n -> (k - 1) / 2 = i ->
                                   (wt h j <= wt h k)%Z).
    { intros k Hk Hpk. apply parent_child in Hpk; [|lia].
      destruct Hpk as [->| ->]; [exact Hle1|].
      replace (2 * i + 2) with j2 in * by (subst j2 j1; lia).
      apply Hle2. lia. }
    rewrite Less_wt by (subst j1 j2; lia).
    destruct (Z.ltb_spec (wt h j) (wt h i)) as [Hlt|Hge]; cbn [negb].
    + destruct (IH (Swap h i j) j n) as (Hok & Hlen & Hhigh).
      * subst j1 j2. lia.
      * rewrite Swap_length. exact Hn.
      * apply down_inv_step; auto. subst j1 j2. lia.
      * split; [exact Hok|]. rewrite Hlen, Swap_length. split; [reflexivity|].
        intros k Hk. rewrite Hhigh by exact Hk.
        rewrite Swap_lookup by (subst j1 j2; lia).
        destruct (decide (k = i)) as [|_]; [subst j1 j2; lia|].
        destruct (decide (k = j)) as [|_]; [lia|]. reflexivity.
    + split; [|auto]. apply (down_inv_done h i n Hinv).
      intros k Hk Hpk. specialize (Hmin k Hk Hpk). lia.
Qed.

Lemma wt_lookup (h : nodes) (k : nat) (a : node) :
  h !! k = Some a -> wt h k = weight a.
Proof. intros Hk. unfold wt. rewrite Hk. reflexivity. Qed.

Lemma wt_app_l (h : nodes) (x : node) (k : nat) :
  k < length h -> wt (h ++ [x]) k = wt h k.
Proof. intros Hk. unfold wt. rewrite lookup_app_l by exact Hk. reflexivity. Qed.

Lemma wt_take (h : nodes) (n k : nat) : k < n -> wt (take n h) k = wt h k.
Proof. intros Hk. unfold wt. rewrite lookup_take_lt by exact Hk. reflexivity. Qed.

(** The root of a heap is a lightest element. *)
Lemma root_min (h : nodes) (k : nat) :
  heap_ok h -> k < length h -> (wt h 0 <= wt h k)%Z.
Proof.
  intros Hok. induction k as [k IH] using lt_wf_ind. intros Hk.
  destruct k as [|k]; [lia|].
  pose proof (parent_lt (S k) ltac:(lia)) as Hp.
  specialize (IH _ Hp ltac:(lia)).
  specialize (Hok (S k) ltac:(lia)). lia.
Qed.

Lemma heap_Push_perm (h : nodes) (x : node) : heap_Push h x ≡ₚ x :: h.
Proof.
  unfold heap_Push. rewrite up_perm.
  rewrite Permutation_app_comm. reflexivity.
Qed.

Lemma heap_Push_ok (h : nodes) (x : node) :
  heap_ok h -> heap_ok (heap_Push h x).
Proof.
  intros Hok. unfold heap_Push. rewrite length_app. simpl.
  replace (length h + 1 - 1) with (length h) by lia.
  apply up_heap; [lia|rewrite length_app; simpl; lia|].
  split.
  - intros k Hk Hne. rewrite length_app in Hk. simpl in Hk.
    pose proof (parent_lt k ltac:(lia)).
    rewrite !wt_app_l by lia. apply Hok. lia.
  - intros Hj k Hk Hpk. rewrite length_app in Hk. simpl in Hk.
    pose proof (parent_lt k ltac:(lia)). lia.
Qed.

(** [down] leaves the elements from [n] on where they are. *)
Lemma down_high (fuel : nat) :
  forall (h : nodes) (i n k : nat),
    n <= length h -> n <= k -> down fuel h i n !! k = h !! k.
Proof.
  induction fuel as [|fuel IH]; intros h i n k Hn Hk; cbn [down];
    [reflexivity|].
  destruct (Nat.leb_spec n (2 * i + 1)) as [Hleaf|Hchild]; [reflexivity|].
  set (j := if (2 * i + 1 + 1 <? n) && Less h (2 * i + 1 + 1) (2 * i + 1)
            then 2 * i + 1 + 1 else 2 * i + 1).
  assert (Hj : j < n).
  { subst j. destruct (Nat.ltb_spec (2 * i + 1 + 1) n); cbn [andb];
      [destruct (Less _ _ _)|]; lia. }
  destruct (negb _); [reflexivity|].
  rewrite IH by (rewrite ?Swap_length; lia).
  rewrite Swap_lookup by lia.
  destruct (decide (k = i)) as [|_]; [lia|].
  destruct (decide (k = j)) as [|_]; [lia|]. reflexivity.
Qed.

Lemma heap_Pop_spec (h : nodes) :
  h <> [] ->
  exists (x : node) (h' : nodes),
    heap_Pop h = Ret (x, h')
    /\ h ≡ₚ x :: h'
    /\ (heap_ok h ->
        heap_ok h' /\ forall y : node, y ∈ h' -> (weight x <= weight y)%Z).
Proof.
  intros Hne. destruct h as [|x0 t]; [contradiction|]. clear Hne.
  unfold heap_Pop.
  set (h := x0 :: t). set (n := length h - 1).
  assert (Hlen : length h = S n) by (subst n h; simpl; lia).
  set (h0 := Swap h 0 n).
  set (h1 := down (length h) h0 0 n).
  assert (Hlen0 : length h0 = S n) by (subst h0; rewrite Swap_length; exact Hlen).
  assert (Hperm1 : h1 ≡ₚ h).
  { subst h1 h0. rewrite down_perm. apply Swap_perm. }
  assert (Hlen1 : length h1 = S n).
  { rewrite <- Hlen. apply Permutation_length. exact Hperm1. }
  assert (Hh0n : h0 !! n = Some x0).
  { subst h0. rewrite Swap_lookup by lia.
    destruct (decide (n = 0)) as [E|E]; [rewrite E; reflexivity|].
    destruct (decide (n = n)); [reflexivity|contradiction]. }
  assert (Hhigh : h1 !! n = Some x0).
  { subst h1. rewrite down_high by lia. exact Hh0n. }
  assert (Hlast : last h1 = Some x0).
  { rewrite last_lookup, Hlen1. exact Hhigh. }
  assert (Hrem : removelast h1 = take n h1).
  { rewrite removelast_firstn_len, Hlen1. reflexivity. }
  rewrite Hlast, Hrem.
  exists x0, (take n h1). split; [reflexivity|].
  assert (Hsplit : h1 = take n h1 ++ [x0]).
  { rewrite <- (take_drop n h1) at 1. f_equal.
    apply list_eq. intros k. rewrite lookup_drop.
    destruct k as [|k]; simpl.
    - rewrite Nat.add_0_r. exact Hhigh.
    - apply lookup_ge_None_2. lia. }
  split.
  { rewrite <- Hperm1. rewrite Hsplit at 1.
    rewrite Permutation_app_comm. reflexivity. }
  intros Hok.
  assert (Hinv : down_inv h0 0 n).
  { split; [|lia]. intros k Hk Hpk.
    pose proof (parent_lt k ltac:(lia)) as Hp.
    subst h0. rewrite !wt_Swap by lia.
    destruct (decide ((k - 1) / 2 = 0)) as [|_]; [contradiction|].
    destruct (decide ((k - 1) / 2 = n)) as [|_]; [lia|].
    destruct (decide (k = 0)) as [|_]; [lia|].
    destruct (decide (k = n)) as [|_]; [lia|].
    apply Hok. lia. }
  destruct (down_heap (length h) h0 0 n ltac:(lia) ltac:(lia) Hinv)
    as (Hok1 & _ & _).
  fold h1 in Hok1.
  split.
  - unfold heap_ok, heap_ok_n. rewrite length_take, Hlen1.
    replace (n `min` S n) with n by lia.
    intros k Hk. pose proof (parent_lt k ltac:(lia)).
    rewrite !wt_take by lia. apply Hok1. exact Hk.
  - intros y Hy.
    assert (Hyh : y ∈ h).
    { rewrite <- Hperm1. rewrite Hsplit. apply elem_of_app. left. exact Hy. }
    apply list_elem_of_lookup_1 in Hyh as [k Hk].
    pose proof (root_min h k Hok (lookup_lt_Some _ _ _ Hk)) as Hmin.
    rewrite (wt_lookup h k y Hk) in Hmin.
    rewrite (wt_lookup h 0 x0) in Hmin by reflexivity. exact Hmin.
Qed.

End HeapOrder.

(** ** The merge loop *)

Lemma huff_run_perm (h h' : nodes) (t : node) :
  h ≡ₚ h' -> huff_run h t -> huff_run h' t.
Proof.
  intros Hp Hrun. destruct Hrun as [t|h h'' t Hstep Hrun].
  - apply Permutation_singleton_l in Hp. subst. constructor.
  - destruct Hstep as [h h'' rest n1 n2 H1 H2 H3 H4].
    eapply huff_run_step; [|exact Hrun].
    eapply huff_step_intro; eauto. rewrite <- Hp. exact H1.
Qed.

Lemma len_gt_1 {A : Type} (l : list A) :
  (1 <? len l) = true <-> (2 <= List.length l)%nat.
Proof. unfold len. rewrite Z.ltb_lt. lia. Qed.

Lemma merge_loop_spec (fuel : nat) :
  forall h : nodes,
    List.length h = fuel -> h <> [] -> heap_ok h ->
    exists t, merge_loop fuel h = Ret [t] /\ huff_run h t.
Proof.
  induction fuel as [|fuel IH]; intros h Hlen Hne Hok.
  - destruct h; [contradiction|discriminate].
  - cbn [merge_loop].
    destruct (1 <? len h) eqn:E.
    + apply len_gt_1 in E.
      destruct (heap_Pop_spec h Hne) as (n1 & h1 & Hpop1 & Hperm1 & Hmin1).
      destruct (Hmin1 Hok) as [Hok1 Hle1].
      assert (Hlen1 : List.length h1 = fuel).
      { apply Permutation_length in Hperm1. simpl in Hperm1. lia. }
      assert (Hne1 : h1 <> []) by (intros ->; simpl in Hlen1; lia).
      destruct (heap_Pop_spec h1 Hne1) as (n2 & h2 & Hpop2 & Hperm2 & Hmin2).
      destruct (Hmin2 Hok1) as [Hok2 Hle2].
      rewrite Hpop1. cbn [mbind res_bind]. rewrite Hpop2. cbn [mbind res_bind].
      set (p := Node (int64 (weight n1 + weight n2)) n2 n1).
      destruct (IH (heap_Push h2 p)) as (t & Ht & Hrun).
      * rewrite (Permutation_length (heap_Push_perm h2 p)). simpl.
        apply Permutation_length in Hperm2. simpl in Hperm2. lia.
      * intros Hnil. pose proof (heap_Push_perm h2 p) as Hp.
        rewrite Hnil in Hp. apply Permutation_nil_l in Hp. discriminate.
      * apply heap_Push_ok. exact Hok2.
      * exists t. split; [exact Ht|].
        eapply huff_run_step; [|exact Hrun].
        apply (huff_step_intro h (heap_Push h2 p) h2 n1 n2).
        -- rewrite Hperm1, Hperm2. reflexivity.
        -- intros y Hy. apply Hle1. rewrite Hperm2. exact Hy.
        -- exact Hle2.
        -- apply heap_Push_perm.
    + destruct h as [|t [|t' h]]; [contradiction| |].
      * exists t. split; [reflexivity|constructor].
      * unfold len in E. simpl in E. rewrite Z.ltb_ge in E. lia.
Qed.

Lemma heap_ok_nil : heap_ok [].
Proof. intros k Hk. simpl in Hk. lia. Qed.

Lemma push_counts_spec (counts : list Z) :
  forall (i : nat) (n : nodes),
    heap_ok n ->
    heap_ok (push_counts i counts n)
    /\ push_counts i counts n ≡ₚ n ++ count_leaves i counts.
Proof.
  induction counts as [|v counts IH]; intros i n Hok; simpl.
  - rewrite app_nil_r. auto.
  - destruct (Z.eqb_spec v 0) as [E|E].
    + apply IH. exact Hok.
    + destruct (IH (S i) (heap_Push n (Leaf v (u32 (Z.of_nat i))))
                  (heap_Push_ok _ _ Hok)) as [Hok' Hperm].
      split; [exact Hok'|]. rewrite Hperm, heap_Push_perm.
      simpl. rewrite Permutation_middle. reflexivity.
Qed.

(** ** The walk *)

Lemma write_leaves_length (ls : list (Z * Z)) :
  forall m : codebook, List.length (write_leaves ls m) = List.length m.
Proof.
  unfold write_leaves. induction ls as [|l ls IH]; intros m; simpl; auto.
  rewrite IH. apply length_insert.
Qed.

Lemma write_leaves_app (ls ls' : list (Z * Z)) (m : codebook) :
  write_leaves (ls ++ ls') m = write_leaves ls' (write_leaves ls m).
Proof. unfold write_leaves. apply foldl_app. Qed.

Lemma leaves_at_fst (t : node) : forall d, map fst (leaves_at t d) = leaves t.
Proof.
  induction t as [w s|w c0 IH0 c1 IH1]; intros d; simpl; auto.
  rewrite map_app, IH0, IH1. reflexivity.
Qed.

Lemma height_nonneg (t : node) : 0 <= height t.
Proof. induction t; simpl; lia. Qed.

Lemma leaves_nonempty (t : node) : (1 <= List.length (leaves t))%nat.
Proof.
  induction t as [w s|w c0 IH0 c1 IH1]; simpl; [lia|].
  rewrite length_app. lia.
Qed.

Lemma height_lt_leaves (t : node) : height t < len (leaves t).
Proof.
  unfold len. induction t as [w s|w c0 IH0 c1 IH1]; simpl; [lia|].
  rewrite length_app. pose proof (leaves_nonempty c0).
  pose proof (leaves_nonempty c1). lia.
Qed.

Lemma leaves_at_depth (t : node) :
  forall d s d', (s, d') ∈ leaves_at t d -> d <= d' <= d + height t.
Proof.
  induction t as [w s0|w c0 IH0 c1 IH1]; intros d s d' Hin; simpl in *.
  - apply list_elem_of_singleton in Hin. injection Hin as -> ->. lia.
  - pose proof (height_nonneg c0). pose proof (height_nonneg c1).
    apply elem_of_app in Hin as [Hin|Hin].
    + apply IH0 in Hin. lia.
    + apply IH1 in Hin. lia.
Qed.

Lemma leaves_at_depth_node (w : Z) (c0 c1 : node) (d s d' : Z) :
  (s, d') ∈ leaves_at (Node w c0 c1) d -> d + 1 <= d'.
Proof.
  simpl. intros Hin. apply elem_of_app in Hin as [Hin|Hin];
    apply leaves_at_depth in Hin; lia.
Qed.

Lemma walk_spec (t : node) :
  forall (d : Z) (m : codebook),
    (forall s, s ∈ leaves t -> 0 <= s < len m) ->
    - 2 ^ 63 <= d -> d + height t < 2 ^ 63 ->
    walk t d m = Ret (write_leaves (leaves_at t d) m).
Proof.
  induction t as [w s|w c0 IH0 c1 IH1]; intros d m Hin Hd Hh; simpl.
  - destruct (index_in_range m s) as (x & -> & _).
    { apply Hin. simpl. apply list_elem_of_singleton. reflexivity. }
    reflexivity.
  - simpl in Hh. pose proof (height_nonneg c0). pose proof (height_nonneg c1).
    rewrite int64_small by lia.
    rewrite IH0; [|intros s Hs; apply Hin; simpl; apply elem_of_app; auto
                  |lia|lia].
    cbn [mbind res_bind]. rewrite IH1; [|intros s Hs|lia|lia].
    + rewrite write_leaves_app. reflexivity.
    + unfold len. rewrite write_leaves_length. apply Hin. simpl.
      apply elem_of_app; auto.
Qed.

(** ** The leaves of the tree *)

Lemma forest_leaves_perm (h h' : nodes) :
  h ≡ₚ h' -> forest_leaves h ≡ₚ forest_leaves h'.
Proof.
  unfold forest_leaves. induction 1; simpl.
  - reflexivity.
  - rewrite IHPermutation. reflexivity.
  - rewrite !app_assoc. rewrite (Permutation_app_comm (leaves y)). reflexivity.
  - etransitivity; eauto.
Qed.

Lemma huff_step_leaves (h h' : nodes) :
  huff_step h h' -> forest_leaves h' ≡ₚ forest_leaves h.
Proof.
  intros [h0 h0' rest n1 n2 H1 _ _ H4].
  rewrite (forest_leaves_perm _ _ H1), (forest_leaves_perm _ _ H4).
  unfold forest_leaves. simpl. rewrite !app_assoc.
  rewrite (Permutation_app_comm (leaves n2)). reflexivity.
Qed.

Lemma huff_run_leaves (h : nodes) (t : node) :
  huff_run h t -> leaves t ≡ₚ forest_leaves h.
Proof.
  induction 1 as [t|h h' t Hstep Hrun IH].
  - unfold forest_leaves. simpl. rewrite app_nil_r. reflexivity.
  - rewrite IH. apply huff_step_leaves. exact Hstep.
Qed.

Lemma count_leaves_syms (counts : list Z) :
  forall (i : nat) (s : Z),
    s ∈ forest_leaves (count_leaves i counts) <->
    exists (k : nat) (v : Z),
      counts !! k = Some v /\ v <> 0 /\ s = u32 (Z.of_nat (i + k)).
Proof.
  induction counts as [|v0 counts IH]; intros i s; simpl.
  - split; [intros Hin; inversion Hin|intros (k & v & Hk & _); discriminate].
  - assert (Htail : (exists (k : nat) (v : Z),
                       counts !! k = Some v /\ v <> 0
                       /\ s = u32 (Z.of_nat (S i + k)))
                    <-> exists (k : nat) (v : Z),
                       (v0 :: counts) !! S k = Some v /\ v <> 0
                       /\ s = u32 (Z.of_nat (i + S k))).
    { split; intros (k & v & Hk & Hv & Hs); exists k, v;
        (split; [exact Hk|split; [exact Hv|]]); rewrite Hs; f_equal; lia. }
    destruct (Z.eqb_spec v0 0) as [E|E].
    + rewrite IH, Htail. split.
      * intros (k & v & H). exists (S k), v. exact H.
      * intros (k & v & Hk & Hv & Hs). destruct k as [|k].
        { simpl in Hk. congruence. }
        exists k, v. auto.
    + unfold forest_leaves. simpl. fold (forest_leaves (count_leaves (S i) counts)).
      rewrite elem_of_cons, IH, Htail. split.
      * intros [->|(k & v & H)].
        { exists 0%nat, v0. rewrite Nat.add_0_r. auto. }
        exists (S k), v. exact H.
      * intros (k & v & Hk & Hv & Hs). destruct k as [|k].
        { left. rewrite Hs. rewrite Nat.add_0_r. reflexivity. }
        right. exists k, v. auto.
Qed.

Lemma count_leaves_NoDup (counts : list Z) :
  forall i : nat,
    Z.of_nat i + len counts <= 2 ^ 32 ->
    NoDup (forest_leaves (count_leaves i counts)).
Proof.
  induction counts as [|v0 counts IH]; intros i Hlen; simpl.
  - constructor.
  - unfold len in *. simpl List.length in Hlen.
    destruct (Z.eqb_spec v0 0) as [E|E].
    + apply IH. lia.
    + unfold forest_leaves. simpl.
      fold (forest_leaves (count_leaves (S i) counts)).
      constructor; [|apply IH; lia].
      intros Hin. apply count_leaves_syms in Hin as (k & v & Hk & _ & Hs).
      apply lookup_lt_Some in Hk.
      rewrite !u32_small in Hs by lia. lia.
Qed.

(** ** [NewEncoder], as a tree and its canonical codes *)

(** The heap [NewEncoder] merges, up to its order. *)
Definition initial_forest (counts : list Z) : nodes :=
  Leaf 0 (len counts) :: count_leaves 0 counts.

Lemma initial_forest_leaves (counts : list Z) (s : Z) :
  len counts < 2 ^ 32 ->
  s ∈ forest_leaves (initial_forest counts) <->
  s = len counts
  \/ exists (k : nat) (v : Z), counts !! k = Some v /\ v <> 0 /\ s = Z.of_nat k.
Proof.
  intros Hlen. unfold initial_forest, forest_leaves. simpl.
  fold (forest_leaves (count_leaves 0 counts)).
  rewrite elem_of_cons, count_leaves_syms.
  split; (intros [->|(k & v & Hk & Hv & Hs)]; [left; reflexivity|right]);
    exists k, v; (split; [exact Hk|split; [exact Hv|]]);
    pose proof (lookup_lt_Some _ _ _ Hk); unfold len in Hlen; simpl in *.
  - rewrite u32_small in Hs by lia. exact Hs.
  - rewrite u32_small by lia. exact Hs.
Qed.

Lemma initial_forest_NoDup (counts : list Z) :
  len counts < 2 ^ 32 -> NoDup (forest_leaves (initial_forest counts)).
Proof.
  intros Hlen. unfold initial_forest, forest_leaves. simpl.
  fold (forest_leaves (count_leaves 0 counts)).
  constructor; [|apply count_leaves_NoDup; simpl; lia].
  intros Hin. apply count_leaves_syms in Hin as (k & v & Hk & _ & Hs).
  apply lookup_lt_Some in Hk. unfold len in *.
  rewrite u32_small in Hs by (simpl; lia). simpl in Hs. lia.
Qed.

Lemma count_leaves_length (counts : list Z) :
  forall i : nat, (List.length (count_leaves i counts) <= List.length counts)%nat.
Proof.
  induction counts as [|v counts IH]; intros i; simpl; [lia|].
  specialize (IH (S i)). destruct (v =? 0); simpl; lia.
Qed.

Lemma count_leaves_nonempty (counts : list Z) :
  Exists (fun v => v <> 0) counts -> forall i : nat, count_leaves i counts <> [].
Proof.
  induction 1 as [v counts Hv|v counts _ IH]; intros i; simpl.
  - destruct (Z.eqb_spec v 0); [contradiction|discriminate].
  - destruct (v =? 0); [apply IH|discriminate].
Qed.

Lemma forest_leaves_count (h : nodes) :
  Forall (fun t => exists w s, t = Leaf w s) h ->
  List.length (forest_leaves h) = List.length h.
Proof.
  unfold forest_leaves. induction 1 as [|t h (w & s & ->) _ IH]; simpl; auto.
Qed.

Lemma count_leaves_are_leaves (counts : list Z) :
  forall i : nat,
    Forall (fun t => exists w s, t = Leaf w s) (count_leaves i counts).
Proof.
  induction counts as [|v counts IH]; intros i; simpl; [constructor|].
  destruct (v =? 0); [apply IH|]. constructor; [eauto|apply IH].
Qed.

(** What [NewEncoder] knows of the tree it built. *)
Record encoder_tree (counts : list Z) (t : node) : Prop := {
  et_run : huff_run (initial_forest counts) t;
  et_NoDup : NoDup (leaves t);
  et_leaves : forall s,
    s ∈ leaves t <->
    s = len counts
    \/ exists (k : nat) (v : Z), counts !! k = Some v /\ v <> 0 /\ s = Z.of_nat k;
  et_range : forall s, s ∈ leaves t -> 0 <= s <= len counts;
  et_height : height t <= len counts;
  et_node : Exists (fun v => v <> 0) counts -> exists w c0 c1, t = Node w c0 c1
}.

Lemma encoder_tree_intro (counts : list Z) (t : node) :
  len counts < 2 ^ 32 -> huff_run (initial_forest counts) t ->
  encoder_tree counts t.
Proof.
  intros Hlen Hrun. pose proof (huff_run_leaves _ _ Hrun) as Hperm.
  assert (Hleaves : forall s,
    s ∈ leaves t <->
    s = len counts
    \/ exists (k : nat) (v : Z), counts !! k = Some v /\ v <> 0 /\ s = Z.of_nat k).
  { intros s. rewrite Hperm. apply initial_forest_leaves. exact Hlen. }
  assert (Hcount : List.length (leaves t)
                   = S (List.length (count_leaves 0 counts))).
  { rewrite (Permutation_length Hperm). unfold initial_forest.
    rewrite forest_leaves_count; [reflexivity|].
    constructor; [eauto|apply count_leaves_are_leaves]. }
  split; auto.
  - rewrite Hperm. apply initial_forest_NoDup. exact Hlen.
  - intros s Hs. apply Hleaves in Hs as [->|(k & v & Hk & _ & ->)].
    + unfold len. lia.
    + apply lookup_lt_Some in Hk. unfold len. lia.
  - pose proof (height_lt_leaves t) as Hh. unfold len in *.
    rewrite Hcount in Hh. pose proof (count_leaves_length counts 0). lia.
  - intros Hex. destruct t as [w s|w c0 c1]; [|eauto].
    simpl in Hcount.
    pose proof (count_leaves_nonempty counts Hex 0) as Hne.
    destruct (count_leaves 0 counts); [contradiction|discriminate].
Qed.

Lemma NewEncoder_tree (counts : list Z) :
  len counts < 2 ^ 32 - 1 ->
  exists t,
    encoder_tree counts t
    /\ NewEncoder counts
       = ('(m, sptrs, numl) ←
            calculateCodes (tree_codebook t (S (List.length counts)));
          Ret (Encoder.mk (len counts) m sptrs numl)).
Proof.
  intros Hlen. unfold NewEncoder.
  assert (Hpos : 0 <= len counts) by (unfold len; lia).
  rewrite (u32_small (len counts)) by lia.
  destruct (push_counts_spec counts 0 [] heap_ok_nil) as [Hok0 Hperm0].
  simpl in Hperm0.
  set (h0 := heap_Push (push_counts 0 counts []) (Leaf 0 (len counts))).
  assert (Hok : heap_ok h0) by (apply heap_Push_ok; exact Hok0).
  assert (Hperm : h0 ≡ₚ initial_forest counts).
  { unfold h0, initial_forest. rewrite heap_Push_perm, Hperm0. reflexivity. }
  assert (Hne : h0 <> []).
  { intros Hnil. rewrite Hnil in Hperm. apply Permutation_nil_l in Hperm.
    discriminate. }
  destruct (merge_loop_spec (List.length h0) h0 eq_refl Hne Hok)
    as (t & Hmerge & Hrun).
  rewrite Hmerge. cbn [mbind res_bind].
  assert (Het : encoder_tree counts t).
  { apply encoder_tree_intro; [lia|].
    eapply huff_run_perm; [exact Hperm|exact Hrun]. }
  exists t. split; [exact Het|].
  change (index [t] 0) with (Ret t). cbn [mbind res_bind].
  rewrite (u32_small (len counts + 1)) by lia.
  unfold make.
  destruct (Z.leb_spec 0 (len counts + 1)); [|lia].
  destruct (Z.leb_spec ((len counts + 1) * 16) maxAlloc) as [|Hbig];
    [|unfold maxAlloc in Hbig; lia].
  cbn [andb mbind res_bind].
  replace (Z.to_nat (len counts + 1)) with (S (List.length counts))
    by (unfold len; lia).
  rewrite walk_spec.
  - reflexivity.
  - intros s Hs. apply (et_range _ _ Het) in Hs.
    unfold len in *. rewrite length_replicate. lia.
  - lia.
  - pose proof (et_height _ _ Het). lia.
Qed.

(** ** The codebook written by the walk *)

Lemma write_leaves_notin (ls : list (Z * Z)) :
  forall (m : codebook) (k : nat),
    Forall (fun l => Z.to_nat (fst l) <> k) ls ->
    write_leaves ls m !! k = m !! k.
Proof.
  unfold write_leaves. induction ls as [|l ls IH]; intros m k Hk; simpl; auto.
  inversion Hk; subst. rewrite IH by assumption.
  apply list_lookup_insert_ne. assumption.
Qed.

Lemma write_leaves_in (ls : list (Z * Z)) :
  forall (m : codebook) (s d : Z),
    NoDup (map (fun l => Z.to_nat (fst l)) ls) ->
    (s, d) ∈ ls -> (Z.to_nat s < List.length m)%nat ->
    write_leaves ls m !! Z.to_nat s = Some (symbol.mk s 0 d).
Proof.
  induction ls as [|l ls IH]; intros m s d Hnd Hin Hlen.
  - inversion Hin.
  - simpl in Hnd. inversion Hnd as [|? ? Hnotin Hnd']; subst.
    apply elem_of_cons in Hin as [<-|Hin].
    + change (write_leaves ((s, d) :: ls) m)
        with (write_leaves ls (<[Z.to_nat s := symbol.mk s 0 d]> m)).
      rewrite write_leaves_notin.
      * apply list_lookup_insert_eq. exact Hlen.
      * apply Forall_forall. intros l' Hl' Heq. apply Hnotin.
        simpl. rewrite <- Heq. apply list_elem_of_fmap. eauto.
    + change (write_leaves (l :: ls) m)
        with (write_leaves ls (<[Z.to_nat (fst l) :=
                                  symbol.mk (fst l) 0 (snd l)]> m)).
      apply IH; auto. rewrite length_insert. exact Hlen.
Qed.

Lemma NoDup_to_nat (l : list Z) :
  NoDup l -> Forall (fun s => 0 <= s) l -> NoDup (map Z.to_nat l).
Proof.
  induction 1 as [|s l Hnotin Hnd IH]; intros Hpos; simpl; constructor.
  - inversion Hpos as [|? ? Hs Hpos']; subst. intros Hin.
    apply list_elem_of_fmap in Hin as (s' & Heq & Hs').
    rewrite Forall_forall in Hpos'. pose proof (Hpos' s' Hs').
    assert (s = s') by lia. subst. contradiction.
  - apply IH. inversion Hpos; assumption.
Qed.

Lemma leaves_at_elem (t : node) (d s d' : Z) :
  (s, d') ∈ leaves_at t d -> s ∈ leaves t.
Proof.
  intros Hin. rewrite <- (leaves_at_fst t d).
  apply list_elem_of_fmap. exists (s, d'). auto.
Qed.

Lemma leaves_elem_at (t : node) (d s : Z) :
  s ∈ leaves t -> exists d', (s, d') ∈ leaves_at t d.
Proof.
  intros Hin. rewrite <- (leaves_at_fst t d) in Hin.
  apply list_elem_of_fmap in Hin as ([s' d'] & -> & Hin). eauto.
Qed.

Section TreeCodebook.
Context (counts : list Z) (t : node).
Context (Hlen : len counts < 2 ^ 32 - 1) (Het : encoder_tree counts t).

Let m0 : codebook := tree_codebook t (S (List.length counts)).

Lemma tree_codebook_length : List.length m0 = S (List.length counts).
Proof.
  unfold m0, tree_codebook. rewrite write_leaves_length.
  apply length_replicate.
Qed.

Lemma tree_codebook_leaf (s d : Z) :
  (s, d) ∈ leaves_at t 0 -> m0 !! Z.to_nat s = Some (symbol.mk s 0 d).
Proof.
  intros Hin. unfold m0, tree_codebook.
  pose proof (et_range _ _ Het s (leaves_at_elem _ _ _ _ Hin)) as Hr.
  apply write_leaves_in; auto.
  - rewrite <- (map_map fst Z.to_nat). rewrite leaves_at_fst.
    apply NoDup_to_nat; [apply (et_NoDup _ _ Het)|].
    apply Forall_forall. intros s' Hs'.
    apply (et_range _ _ Het) in Hs'. lia.
  - rewrite length_replicate. unfold len in Hr. lia.
Qed.

Lemma tree_codebook_other (k : nat) :
  (k <= List.length counts)%nat -> Z.of_nat k ∉ leaves t ->
  m0 !! k = Some symbol.zero.
Proof.
  intros Hk Hnotin. unfold m0, tree_codebook.
  rewrite write_leaves_notin.
  - apply lookup_replicate_2. lia.
  - apply Forall_forall. intros [s d] Hin Heq. simpl in Heq.
    pose proof (leaves_at_elem _ _ _ _ Hin) as Hs.
    pose proof (et_range _ _ Het s Hs). apply Hnotin.
    replace (Z.of_nat k) with s by lia. exact Hs.
Qed.

(** Every slot is the leaf of its index, or empty. *)
Lemma tree_codebook_slot (k : nat) (x : symbol.t) :
  m0 !! k = Some x ->
  (exists d, (Z.of_nat k, d) ∈ leaves_at t 0 /\ x = symbol.mk (Z.of_nat k) 0 d)
  \/ ((Z.of_nat k ∉ leaves t) /\ x = symbol.zero).
Proof.
  intros Hk.
  assert (Hkl : (k <= List.length counts)%nat).
  { apply lookup_lt_Some in Hk. rewrite tree_codebook_length in Hk. lia. }
  destruct (decide (Z.of_nat k ∈ leaves t)) as [Hin|Hnotin].
  - left. destruct (leaves_elem_at t 0 _ Hin) as [d Hd]. exists d.
    split; [exact Hd|]. pose proof (tree_codebook_leaf _ _ Hd) as Hl.
    rewrite Nat2Z.id in Hl. congruence.
  - right. split; [exact Hnotin|].
    pose proof (tree_codebook_other k Hkl Hnotin). congruence.
Qed.

Lemma tree_codebook_lengths :
  Forall (fun x => 0 <= symbol.length x <= len counts) m0.
Proof.
  apply Forall_forall. intros x Hx.
  apply list_elem_of_lookup_1 in Hx as [k Hk].
  assert (Hpos : 0 <= len counts) by (unfold len; lia).
  destruct (tree_codebook_slot k x Hk) as [(d & Hd & ->)|[_ ->]]; simpl; [|lia].
  apply leaves_at_depth in Hd. pose proof (et_height _ _ Het). lia.
Qed.

Lemma tree_codebook_nonzero :
  Exists (fun v => v <> 0) counts -> Exists nonzero_length m0.
Proof.
  intros Hex. destruct (et_node _ _ Het Hex) as (w & c0 & c1 & Ht).
  assert (Heof : len counts ∈ leaves t) by (apply (et_leaves _ _ Het); auto).
  destruct (leaves_elem_at t 0 _ Heof) as [d Hd].
  apply Exists_exists. exists (symbol.mk (len counts) 0 d). split.
  - eapply list_elem_of_lookup_2. apply tree_codebook_leaf. exact Hd.
  - unfold nonzero_length. simpl. rewrite Ht in Hd.
    apply leaves_at_depth_node in Hd. lia.
Qed.

(** The encoder [NewEncoder] returns. *)
Lemma calculateCodes_tree_codebook :
  Exists (fun v => v <> 0) counts ->
  calculateCodes m0
  = Ret (set_codes (sorted_ptrs m0) (canon 0 (-1) (sorted_lengths m0)) m0,
         sorted_ptrs m0,
         tally (sorted_lengths m0) (replicate (Z.to_nat (max_length m0 + 1)) 0)).
Proof.
  intros Hex. apply calculateCodes_spec.
  - apply tree_codebook_nonzero. exact Hex.
  - eapply Forall_impl; [apply tree_codebook_lengths|].
    intros x Hx. simpl in Hx. lia.
Qed.

End TreeCodebook.

(** ** Writing varints, and reading them back *)

Lemma low7_high (x : Z) :
  0 <= x -> Z.lor (x mod 128) (Z.shiftl (Z.shiftr x 7) 7) = x.
Proof.
  intros Hx. apply Z.bits_inj'. intros i Hi.
  rewrite Z.lor_spec. change 128 with (2 ^ 7).
  destruct (Z.lt_ge_cases i 7).
  - rewrite Z.mod_pow2_bits_low by lia.
    rewrite Z.shiftl_spec_low by lia. apply orb_false_r.
  - rewrite Z.mod_pow2_bits_high by lia.
    rewrite Z.shiftl_spec by lia. rewrite Z.shiftr_spec by lia.
    simpl. f_equal. lia.
Qed.

Lemma cont_byte_low7 (x : Z) :
  Z.land (Z.lor (x mod 256) 128) 127 = x mod 128.
Proof.
  apply Z.bits_inj'. intros i Hi.
  rewrite Z.land_spec, Z.lor_spec.
  change 127 with (Z.ones 7). change 256 with (2 ^ 8).
  change 128 with (2 ^ 7) at 2.
  destruct (Z.lt_ge_cases i 7).
  - rewrite Z.ones_spec_low by lia.
    rewrite !Z.mod_pow2_bits_low by lia.
    change 128 with (2 ^ 7). rewrite Z.pow2_bits_false by lia.
    rewrite orb_false_r, andb_true_r. reflexivity.
  - rewrite Z.ones_spec_high by lia.
    rewrite (Z.mod_pow2_bits_high x 7) by lia. apply andb_false_r.
Qed.

Lemma cont_byte_range (x : Z) : cont_byte (Z.lor (x mod 256) 128).
Proof.
  unfold cont_byte.
  pose proof (Z.mod_pos_bound x 256 ltac:(lia)) as Hm.
  assert (Hb : 0 <= Z.lor (x mod 256) 128 < 2 ^ 8).
  { apply lor_lt_pow2; simpl; lia. }
  split; [|simpl in Hb; lia].
  assert (Hbit : Z.testbit (Z.lor (x mod 256) 128) 7 = true).
  { rewrite Z.lor_spec. change 128 with (2 ^ 7).
    rewrite Z.pow2_bits_true by lia. apply orb_true_r. }
  destruct (Z.lt_ge_cases (Z.lor (x mod 256) 128) 128) as [Hlt|]; [|lia].
  rewrite (testbit_above _ 7 7) in Hbit by (simpl; lia). discriminate.
Qed.

Lemma PutUvarint_spec (room : nat) :
  forall x : Z,
    (1 <= room)%nat -> 0 <= x < 2 ^ (7 * Z.of_nat room) ->
    exists conts b,
      PutUvarint room x = Ret (conts ++ [b])
      /\ Forall cont_byte conts /\ final_byte b
      /\ (List.length conts < room)%nat
      /\ varint_value (conts ++ [b]) = x.
Proof.
  induction room as [|room IH]; intros x Hroom Hx; [lia|].
  cbn [PutUvarint].
  destruct (Z.leb_spec 128 x) as [Hbig|Hsmall].
  - assert (Hroom' : (1 <= room)%nat).
    { destruct room; [|lia]. simpl in Hx. lia. }
    destruct (IH (Z.shiftr x 7)) as (conts & b & Hput & Hc & Hb & Hl & Hv); auto.
    { rewrite Z.shiftr_div_pow2 by lia. split; [apply Z.div_pos; lia|].
      apply Z.div_lt_upper_bound; [lia|].
      rewrite <- Z.pow_add_r by lia.
      replace (7 + 7 * Z.of_nat room) with (7 * Z.of_nat (S room)) by lia.
      lia. }
    rewrite Hput. cbn [mbind res_bind].
    exists (Z.lor (x mod 256) 128 :: conts), b.
    split; [reflexivity|].
    split; [constructor; [apply cont_byte_range|exact Hc]|].
    split; [exact Hb|]. split; [simpl; lia|].
    simpl app. cbn [varint_value]. rewrite Hv, cont_byte_low7.
    apply low7_high. lia.
  - exists [], x. split; [reflexivity|].
    split; [constructor|]. split; [unfold final_byte; lia|].
    split; [simpl; lia|].
    simpl. rewrite Z.lor_0_r. change 127 with (Z.ones 7).
    rewrite Z.land_ones by lia. apply Z.mod_small. lia.
Qed.

Lemma PutUvarint_read (x : Z) (rest : list Z) :
  0 <= x < 2 ^ 35 ->
  exists bs,
    PutUvarint MaxVarintLen32 x = Ret bs
    /\ ReadUvarint (bs ++ rest) = (x, None, rest).
Proof.
  intros Hx.
  destruct (PutUvarint_spec MaxVarintLen32 x)
    as (conts & b & Hput & Hc & Hb & Hl & Hv).
  { unfold MaxVarintLen32. lia. }
  { unfold MaxVarintLen32. simpl. lia. }
  exists (conts ++ [b]). split; [exact Hput|].
  rewrite ReadUvarint_complete; [rewrite Hv; reflexivity|].
  exists conts, b. unfold MaxVarintLen32 in Hl.
  split; [reflexivity|]. split; [exact Hc|]. split; [exact Hb|].
  split; lia.
Qed.

(** ** The codebook through the wire *)

Lemma restore_length (c : codebook) :
  forall i, List.length (restore i c) = List.length c.
Proof. induction c as [|x c IH]; intros i; simpl; auto. Qed.

Lemma restore_lookup (c : codebook) :
  forall (i : Z) (k : nat) (x : symbol.t),
    c !! k = Some x ->
    restore i c !! k = Some (symbol.mk (i + Z.of_nat k) 0 (symbol.length x)).
Proof.
  induction c as [|y c IH]; intros i k x Hk; [discriminate|].
  destruct k as [|k]; simpl in *.
  - injection Hk as ->. do 2 f_equal. lia.
  - rewrite (IH (i + 1) k x Hk). do 2 f_equal. lia.
Qed.

Lemma unmarshal_marshal_loop (post : codebook) :
  forall (done : codebook) (bytes tail : list Z),
    Forall (fun x => 0 <= symbol.length x < 2 ^ 35) post ->
    exists bytes,
      marshal_lengths post = Ret bytes
      /\ unmarshal_loop (List.length post) (len done) (bytes ++ tail)
           (done ++ replicate (List.length post) symbol.zero)
         = (done ++ restore (len done) post, None).
Proof.
  induction post as [|x post IH]; intros done bytes0 tail Hl.
  - exists []. simpl. split; reflexivity.
  - inversion Hl as [|? ? Hx Hl']; subst.
    destruct (IH (done ++ [symbol.mk (len done) 0 (symbol.length x)])
                bytes0 tail Hl') as (bytes' & Hm & Hu).
    destruct (PutUvarint_read (symbol.length x) (bytes' ++ tail) Hx)
      as (bx & Hput & Hread).
    exists (bx ++ bytes'). cbn [marshal_lengths].
    rewrite u64_small by lia. rewrite Hput. cbn [mbind res_bind].
    rewrite Hm. cbn [mbind res_bind]. split; [reflexivity|].
    cbn [List.length unmarshal_loop]. rewrite <- app_assoc, Hread.
    rewrite int64_small by lia.
    replace (<[Z.to_nat (len done) := symbol.mk (len done) 0 (symbol.length x)]>
               (done ++ replicate (S (List.length post)) symbol.zero))
      with ((done ++ [symbol.mk (len done) 0 (symbol.length x)])
              ++ replicate (List.length post) symbol.zero).
    + replace (len done + 1)
        with (len (done ++ [symbol.mk (len done) 0 (symbol.length x)]))
        by (unfold len; rewrite length_app; simpl; lia).
      rewrite Hu. rewrite <- app_assoc. simpl. do 3 f_equal.
      f_equal. unfold len. rewrite length_app. simpl. lia.
    + unfold len. rewrite Nat2Z.id. simpl replicate.
      rewrite insert_app_r_alt by lia. rewrite Nat.sub_diag. simpl.
      rewrite <- app_assoc. reflexivity.
Qed.

Lemma unmarshal_marshal (c : codebook) :
  len c < 2 ^ 32 ->
  Forall (fun x => 0 <= symbol.length x < 2 ^ 35) c ->
  exists bytes,
    MarshalBinary c = Ret bytes
    /\ UnmarshalBinary bytes = Ret (restore 0 c, None).
Proof.
  intros Hlen Hl. assert (Hpos : 0 <= len c) by (unfold len; lia).
  destruct (unmarshal_marshal_loop c [] [] [] Hl) as (bytes & Hm & Hu).
  destruct (PutUvarint_read (len c) bytes ltac:(lia)) as (bc & Hput & Hread).
  exists (bc ++ bytes). unfold MarshalBinary.
  rewrite u64_small by lia. rewrite Hput. cbn [mbind res_bind].
  rewrite Hm. cbn [mbind res_bind]. split; [reflexivity|].
  unfold UnmarshalBinary. rewrite Hread.
  unfold make.
  destruct (Z.leb_spec 0 (len c)); [|lia].
  destruct (Z.leb_spec (len c * 16) maxAlloc) as [|Hbig];
    [|unfold maxAlloc in Hbig; lia].
  cbn [andb mbind res_bind mret res_ret].
  rewrite u32_small by lia.
  replace (Z.to_nat (len c)) with (List.length c) by (unfold len; lia).
  rewrite app_nil_r in Hu. cbn [app] in Hu.
  change (len (@nil symbol.t)) with 0 in Hu.
  rewrite Hu. reflexivity.
Qed.

(** ** A decoder from the encoder, and one from its bytes *)

Lemma sym_at_table (d : Decoder.t) (i : Z) :
  sym_at d i
  = (o ← index (table d) i;
     match o with
     | Some x => Ret x
     | None => Panic
     end).
Proof.
  unfold sym_at, table, deref, index, len. rewrite length_map.
  destruct (_ && _); [|reflexivity].
  rewrite list_lookup_fmap.
  destruct (Decoder.sym d !! Z.to_nat i); reflexivity.
Qed.

Lemma read_loop_equiv {R : Type} `{BitReader R} (d1 d2 : Decoder.t) :
  decoder_equiv d1 d2 ->
  forall (k : nat) (i offset code : Z) (br : R),
    read_loop d1 k i offset code br = read_loop d2 k i offset code br.
Proof.
  intros (Heof & Hnuml & Htable).
  assert (Hsym : forall i, sym_at d1 i = sym_at d2 i).
  { intros i. rewrite !sym_at_table, Htable. reflexivity. }
  induction k as [|k IH]; intros i offset code br; [reflexivity|].
  cbn [read_loop]. destruct (ReadBit br) as [[br1 b] [e|]]; [reflexivity|].
  rewrite Hnuml. destruct (index (Decoder.numl d2) i); [|reflexivity].
  cbn [mbind res_bind]. rewrite Hsym.
  destruct (sym_at d2 _); [|reflexivity]. cbn [mbind res_bind].
  destruct (index (Decoder.numl d2) (i + 1)); [|reflexivity].
  cbn [mbind res_bind]. destruct (_ <? _).
  - rewrite Hsym, Heof. reflexivity.
  - apply IH.
Qed.

Lemma ReadSymbol_equiv {R : Type} `{BitReader R} (d1 d2 : Decoder.t) (br : R) :
  decoder_equiv d1 d2 -> ReadSymbol d1 br = ReadSymbol d2 br.
Proof.
  intros Heq. unfold ReadSymbol.
  destruct Heq as (Heof & Hnuml & Htable). rewrite Hnuml.
  apply read_loop_equiv. repeat split; assumption.
Qed.

Lemma set_codes_lengths (ps : symptrs) :
  forall (codes : list Z) (c : codebook),
    map symbol.length (set_codes ps codes c) = map symbol.length c.
Proof.
  induction ps as [|p ps IH]; intros codes c; simpl; auto.
  destruct codes as [|k codes]; auto.
  rewrite IH. destruct (c !! p) as [x|] eqn:E; auto.
  apply list_eq. intros j. rewrite !list_lookup_fmap.
  destruct (decide (j = p)) as [->|Hne].
  - rewrite list_lookup_insert_eq by (eapply lookup_lt_Some; eauto).
    rewrite E. reflexivity.
  - rewrite list_lookup_insert_ne by auto. reflexivity.
Qed.

Lemma restore_lengths (c : codebook) :
  forall i, map symbol.length (restore i c) = map symbol.length c.
Proof. induction c as [|x c IH]; intros i; simpl; f_equal; auto. Qed.

Lemma select_from_lengths (c c' : codebook) :
  map symbol.length c = map symbol.length c' ->
  forall i, select_from i c = select_from i c'.
Proof.
  revert c'. induction c as [|x c IH]; intros [|x' c'] Hmap i;
    try discriminate; [reflexivity|].
  simpl in Hmap. injection Hmap as Hx Hmap. simpl. rewrite Hx.
  rewrite (IH c' Hmap). reflexivity.
Qed.

Lemma lengths_lookup (c c' : codebook) (k : nat) (x : symbol.t) :
  map symbol.length c = map symbol.length c' -> c !! k = Some x ->
  exists x', c' !! k = Some x' /\ symbol.length x' = symbol.length x.
Proof.
  intros Hmap Hk.
  assert (Hl : map symbol.length c !! k = Some (symbol.length x)).
  { rewrite list_lookup_fmap, Hk. reflexivity. }
  rewrite Hmap, list_lookup_fmap in Hl.
  destruct (c' !! k) as [x'|]; [|discriminate].
  injection Hl as Hl. eauto.
Qed.

Lemma Forall_lengths (P : Z -> Prop) (c c' : codebook) :
  map symbol.length c = map symbol.length c' ->
  Forall (fun x => P (symbol.length x)) c ->
  Forall (fun x => P (symbol.length x)) c'.
Proof.
  intros Hmap Hc. rewrite Forall_forall in Hc. apply Forall_forall.
  intros x' Hx'. apply list_elem_of_lookup_1 in Hx' as [k Hk].
  destruct (lengths_lookup c' c k x' (eq_sym Hmap) Hk) as (x & Hx & <-).
  apply Hc. eapply list_elem_of_lookup_2; eauto.
Qed.

Lemma Exists_lengths (c c' : codebook) :
  map symbol.length c = map symbol.length c' ->
  Exists nonzero_length c -> Exists nonzero_length c'.
Proof.
  intros Hmap Hc. apply Exists_exists in Hc as (x & Hx & Hnz).
  apply list_elem_of_lookup_1 in Hx as [k Hk].
  destruct (lengths_lookup c c' k x Hmap Hk) as (x' & Hk' & Hl).
  apply Exists_exists. exists x'. split.
  - eapply list_elem_of_lookup_2; eauto.
  - unfold nonzero_length in *. lia.
Qed.

(** Two stores that agree on the slots with a code are sorted alike. *)
Lemma sorted_ptrs_ext (c c' : codebook) :
  map symbol.length c = map symbol.length c' ->
  (forall p x, c !! p = Some x -> nonzero_length x -> c' !! p = Some x) ->
  sorted_ptrs c' = sorted_ptrs c /\ sorted_syms c' = sorted_syms c.
Proof.
  intros Hmap Hagree.
  assert (Hsame : Forall (fun q => c !! q = c' !! q) (select_from 0 c)).
  { apply Forall_forall. intros q Hq.
    apply select_from_spec in Hq as (x & _ & Hx & Hnz).
    rewrite Nat.sub_0_r in Hx. rewrite Hx. symmetry. apply Hagree; auto. }
  assert (Hptrs : sorted_ptrs c' = sorted_ptrs c).
  { unfold sorted_ptrs. rewrite <- (select_from_lengths c c' Hmap).
    symmetry. apply sort_Sort_ext. exact Hsame. }
  split; [exact Hptrs|].
  unfold sorted_syms. rewrite Hptrs.
  apply map_ext_in. intros p Hp. apply list_elem_of_In in Hp.
  apply sptrs_spec in Hp as (x & Hx & Hnz).
  rewrite Hx, (Hagree p x Hx Hnz). reflexivity.
Qed.

Lemma deref_set_codes_ext (ps : symptrs) (codes : list Z) (c c' : codebook) :
  NoDup ps -> List.length codes = List.length ps ->
  Forall (fun p => is_Some (c !! p) /\ c !! p = c' !! p) ps ->
  deref (set_codes ps codes c) ps = deref (set_codes ps codes c') ps.
Proof.
  intros Hnd Hlen Hagree. unfold deref.
  apply list_eq. intros k. rewrite !list_lookup_fmap.
  destruct (ps !! k) as [p|] eqn:Hk; [|reflexivity]. simpl. f_equal.
  destruct (lookup_lt_is_Some_2 codes k) as [cd Hcd].
  { rewrite Hlen. eapply lookup_lt_Some; eauto. }
  rewrite Forall_forall in Hagree.
  destruct (Hagree p (list_elem_of_lookup_2 _ _ _ Hk)) as [[x Hx] Heq].
  rewrite (set_codes_lookup ps codes c k p cd x Hnd Hk Hcd Hx).
  rewrite Heq in Hx.
  rewrite (set_codes_lookup ps codes c' k p cd x Hnd Hk Hcd Hx).
  reflexivity.
Qed.

(** C5: for counts with a nonzero entry (and fewer than 2^32-1
    entries, so that every symbol and the end-of-input slot fit a
    [uint32]), the decoder [Encoder.Decoder] gives and the decoder
    [NewDecoder] rebuilds from [CodebookBytes] have the same
    end-of-input slot, the same histogram and the same canonically
    ordered table of symbol, code and length; [ReadSymbol] returns the
    same on both, from any state of any bit stream. *)
Theorem decoder_from_bytes_equivalent (counts : list Z) :
  len counts < 2 ^ 32 - 1 ->
  Exists (fun v => v <> 0) counts ->
  exists e bytes d2,
    NewEncoder counts = Ret e
    /\ CodebookBytes e = Ret bytes
    /\ NewDecoder bytes = Ret (Some d2, None)
    /\ decoder_equiv (Encoder_Decoder e) d2
    /\ forall (R : Type) (BR : BitReader R) (br : R),
         ReadSymbol (Encoder_Decoder e) br = ReadSymbol d2 br.
Proof.
  intros Hlen Hex.
  destruct (NewEncoder_tree counts Hlen) as (t & Het & Hnew).
  set (m0 := tree_codebook t (S (List.length counts))) in *.
  pose proof (calculateCodes_tree_codebook counts t Hlen Het Hex) as Hcalc.
  fold m0 in Hcalc. rewrite Hcalc in Hnew. cbn [mbind res_bind] in Hnew.
  set (sptrs := sorted_ptrs m0) in *.
  set (codes := canon 0 (-1) (sorted_lengths m0)) in *.
  set (m := set_codes sptrs codes m0) in *.
  set (numl := tally (sorted_lengths m0)
                 (replicate (Z.to_nat (max_length m0 + 1)) 0)) in *.
  assert (Hpos : 0 <= len counts) by (unfold len; lia).
  assert (Hmlen : len m = len counts + 1).
  { unfold len, m. rewrite set_codes_length.
    unfold m0. rewrite (tree_codebook_length counts t). lia. }
  assert (Hml : map symbol.length m = map symbol.length m0)
    by apply set_codes_lengths.
  pose proof (tree_codebook_lengths counts t Het) as Hl0. fold m0 in Hl0.
  assert (Hmb : Forall (fun x => 0 <= symbol.length x < 2 ^ 35) m).
  { apply (Forall_lengths (fun l => 0 <= l < 2 ^ 35) m0 m); [auto|].
    eapply Forall_impl; [exact Hl0|]. intros x Hx. simpl in Hx. lia. }
  destruct (unmarshal_marshal m ltac:(lia) Hmb) as (bytes & Hmar & Hun).
  set (c1 := restore 0 m) in *.
  assert (Hc1l : map symbol.length m0 = map symbol.length c1).
  { unfold c1. rewrite restore_lengths. auto. }
  assert (Hagree : forall p x, m0 !! p = Some x -> nonzero_length x ->
                               c1 !! p = Some x).
  { intros p x Hp Hnz.
    destruct (lengths_lookup m0 m p x (eq_sym Hml) Hp) as (x' & Hp' & Hx').
    unfold c1. rewrite (restore_lookup m 0 p x' Hp'). f_equal.
    destruct (tree_codebook_slot counts t Het p x Hp)
      as [(d & _ & ->)|[_ ->]].
    - simpl in *. rewrite Hx'. f_equal.
    - elim Hnz. reflexivity. }
  destruct (sorted_ptrs_ext m0 c1 Hc1l Hagree) as [Hptrs Hsyms].
  assert (Hcalc1 : calculateCodes c1
                   = Ret (set_codes sptrs codes c1, sptrs, numl)).
  { rewrite calculateCodes_spec.
    - unfold sptrs, codes, numl, sorted_lengths, max_length, sorted_lengths.
      rewrite Hptrs, Hsyms. reflexivity.
    - apply (Exists_lengths m0 c1 Hc1l).
      apply (tree_codebook_nonzero counts t Het Hex).
    - apply (Forall_lengths (fun l => 0 <= l < 2 ^ 40) m0 c1 Hc1l).
      eapply Forall_impl; [exact Hl0|]. intros x Hx. simpl in Hx. lia. }
  exists (Encoder.mk (len counts) m sptrs numl), bytes,
    (Decoder.mk (len counts) numl sptrs (set_codes sptrs codes c1)).
  split; [exact Hnew|]. split; [exact Hmar|].
  assert (Hequiv : decoder_equiv
                     (Encoder_Decoder (Encoder.mk (len counts) m sptrs numl))
                     (Decoder.mk (len counts) numl sptrs
                        (set_codes sptrs codes c1))).
  { split; [reflexivity|]. split; [reflexivity|].
    unfold table, Encoder_Decoder. simpl. unfold m.
    apply deref_set_codes_ext.
    - apply sorted_ptrs_NoDup.
    - unfold codes, sptrs. rewrite canon_length.
      unfold sorted_lengths, sorted_syms. rewrite !length_map. reflexivity.
    - apply Forall_forall. intros p Hp.
      apply sptrs_spec in Hp as (x & Hx & Hnz).
      split; [eauto|]. rewrite Hx. symmetry. apply Hagree; auto. }
  split; [|split; [exact Hequiv|]].
  - unfold NewDecoder. rewrite Hun. cbn [mbind res_bind].
    rewrite Hcalc1. cbn [mbind res_bind].
    assert (Hlen1 : len c1 = len counts + 1).
    { unfold c1, len. rewrite restore_length. exact Hmlen. }
    rewrite Hlen1. rewrite (u32_small (len counts + 1)) by lia.
    replace (len counts + 1 - 1) with (len counts) by lia.
    rewrite u32_small by lia. reflexivity.
  - intros R BR br. apply ReadSymbol_equiv. exact Hequiv.
Qed.

Lemma decoder_from_bytes_equivalent_witness :
  exists e bytes d2,
    NewEncoder [3; 0; 2] = Ret e
    /\ CodebookBytes e = Ret bytes
    /\ NewDecoder bytes = Ret (Some d2, None)
    /\ decoder_equiv (Encoder_Decoder e) d2
    /\ forall (R : Type) (BR : BitReader R) (br : R),
         ReadSymbol (Encoder_Decoder e) br = ReadSymbol d2 br.
Proof.
  apply (decoder_from_bytes_equivalent [3; 0; 2]).
  - vm_compute. reflexivity.
  - constructor. lia.
Defined.

(** [walk] into a codebook without slots panics at the first leaf. *)
Lemma walk_nil (t : node) : forall d : Z, walk t d [] = Panic.
Proof.
  induction t as [w s|w c0 IH0 c1 IH1]; intros d; simpl.
  - rewrite index_out_of_range; [reflexivity|].
    unfold len. simpl. lia.
  - rewrite IH0. reflexivity.
Qed.

(** With 2^32-1 counts the end-of-input slot is 2^32-1, [eof+1] wraps
    to 0, the codebook is made without a slot, and [walk] panics. *)
Lemma NewEncoder_too_many (counts : list Z) :
  len counts = 2 ^ 32 - 1 -> NewEncoder counts = Panic.
Proof.
  intros Hlen. unfold NewEncoder.
  rewrite (u32_small (len counts)) by lia.
  destruct (push_counts_spec counts 0 [] heap_ok_nil) as [Hok0 _].
  set (h0 := heap_Push (push_counts 0 counts []) (Leaf 0 (len counts))).
  assert (Hok : heap_ok h0) by (apply heap_Push_ok; exact Hok0).
  assert (Hne : h0 <> []).
  { intros Hnil. pose proof (heap_Push_perm (push_counts 0 counts [])
                               (Leaf 0 (len counts))) as Hperm.
    fold h0 in Hperm. rewrite Hnil in Hperm.
    apply Permutation_nil_l in Hperm. discriminate. }
  destruct (merge_loop_spec (List.length h0) h0 eq_refl Hne Hok)
    as (t & Hmerge & _).
  rewrite Hmerge. cbn [mbind res_bind].
  change (index [t] 0) with (Ret t). cbn [mbind res_bind].
  rewrite Hlen. change (u32 (2 ^ 32 - 1 + 1)) with 0.
  change (make symbol.zero 16 0) with (Ret (@nil symbol.t)).
  cbn [mbind res_bind]. rewrite walk_nil. reflexivity.
Qed.

(** C5, as stated, fails: these counts have a nonzero frequency, and
    for them there is no encoder, so neither decoder: [NewEncoder]
    panics. *)
Lemma no_encoder_for_uint32_max_counts :
  Exists (fun v => v <> 0) uint32_max_counts
  /\ NewEncoder uint32_max_counts = Panic.
Proof.
  unfold uint32_max_counts. split.
  - apply Exists_exists. exists 1. split; [|lia].
    apply elem_of_replicate. split; [reflexivity|]. lia.
  - apply NewEncoder_too_many. unfold len. rewrite length_replicate.
    apply Z2Nat.id. lia.
Qed.

(** ** The histogram *)

Lemma cnt_eq_cons (i l : Z) (ls : list Z) :
  cnt_eq i (l :: ls) = (if decide (l = i) then 1 else 0) + cnt_eq i ls.
Proof.
  unfold cnt_eq, len. destruct (decide (l = i)) as [E|E].
  - rewrite filter_cons_True by exact E. simpl List.length. lia.
  - rewrite filter_cons_False by exact E. lia.
Qed.

Lemma below_cons (i l : Z) (ls : list Z) :
  below i (l :: ls) = (if decide (l <= i) then 1 else 0) + below i ls.
Proof.
  unfold below, len. destruct (decide (l <= i)) as [E|E].
  - rewrite filter_cons_True by exact E. simpl List.length. lia.
  - rewrite filter_cons_False by exact E. lia.
Qed.

Lemma cnt_eq_range (i : Z) (ls : list Z) : 0 <= cnt_eq i ls <= len ls.
Proof.
  induction ls as [|l ls IH]; [unfold cnt_eq, len; simpl; lia|].
  rewrite cnt_eq_cons. unfold len in *. simpl List.length.
  destruct (decide (l = i)); lia.
Qed.

Lemma below_range (i : Z) (ls : list Z) : 0 <= below i ls <= len ls.
Proof.
  induction ls as [|l ls IH]; [unfold below, len; simpl; lia|].
  rewrite below_cons. unfold len in *. simpl List.length.
  destruct (decide (l <= i)); lia.
Qed.

Lemma below_step (i : Z) (ls : list Z) :
  below (i + 1) ls = below i ls + cnt_eq (i + 1) ls.
Proof.
  induction ls as [|l ls IH]; [reflexivity|].
  rewrite !below_cons, cnt_eq_cons, IH.
  destruct (decide (l <= i + 1)), (decide (l <= i)), (decide (l = i + 1)); lia.
Qed.

Lemma below_none (i : Z) (ls : list Z) :
  Forall (fun l => i < l) ls -> below i ls = 0.
Proof.
  induction 1 as [|l ls Hl _ IH]; [reflexivity|].
  rewrite below_cons, IH. destruct (decide (l <= i)); lia.
Qed.

Lemma take_below (i : Z) (ls : list Z) :
  StronglySorted Z.le ls ->
  take (Z.to_nat (below i ls)) ls = filter (fun l => l <= i) ls.
Proof.
  induction 1 as [|l ls Hs IH Hall].
  - reflexivity.
  - rewrite below_cons. pose proof (below_range i ls) as Hr.
    destruct (decide (l <= i)) as [E|E].
    + rewrite filter_cons_True by exact E.
      replace (Z.to_nat (1 + below i ls)) with (S (Z.to_nat (below i ls)))
        by lia.
      simpl. rewrite IH. reflexivity.
    + rewrite filter_cons_False by exact E.
      assert (Hnone : Forall (fun l' => i < l') ls).
      { eapply Forall_impl; [exact Hall|]. intros l' Hl'. simpl in Hl'. lia. }
      rewrite (below_none i ls Hnone). simpl.
      symmetry. clear -Hnone. induction Hnone as [|l' ls' Hl' _ IH'];
        [reflexivity|].
      rewrite filter_cons_False by lia. exact IH'.
Qed.

Lemma below_sorted (i : Z) (ls : list Z) (j : nat) (l : Z) :
  StronglySorted Z.le ls -> ls !! j = Some l ->
  (Z.of_nat j < below i ls <-> l <= i).
Proof.
  intros Hs. revert j. induction Hs as [|l0 ls Hs IH Hall]; intros j Hj;
    [discriminate|].
  rewrite below_cons. pose proof (below_range i ls) as Hr.
  destruct j as [|j]; simpl in Hj.
  - injection Hj as ->. destruct (decide (l <= i)) as [E|E]; [lia|].
    assert (Hnone : Forall (fun l' => i < l') ls).
    { eapply Forall_impl; [exact Hall|]. intros l' Hl'. simpl in Hl'. lia. }
    rewrite (below_none i ls Hnone). lia.
  - specialize (IH j Hj). destruct (decide (l0 <= i)) as [E|E]; [lia|].
    assert (Hnone : Forall (fun l' => i < l') ls).
    { eapply Forall_impl; [exact Hall|]. intros l' Hl'. simpl in Hl'. lia. }
    rewrite (below_none i ls Hnone) in *.
    rewrite Forall_forall in Hnone.
    pose proof (Hnone l (list_elem_of_lookup_2 _ _ _ Hj)). lia.
Qed.

Lemma kraft_filter_step (i : Z) (ls : list Z) :
  kraft (filter (fun l => l <= i + 1) ls)
  = kraft (filter (fun l => l <= i) ls)
    + cnt_eq (i + 1) ls * 2 ^ (32 - (i + 1)).
Proof.
  induction ls as [|l ls IH]; [reflexivity|].
  rewrite cnt_eq_cons.
  destruct (decide (l <= i)) as [E0|E0].
  - rewrite (filter_cons_True (fun l => l <= i + 1)) by lia.
    rewrite (filter_cons_True (fun l => l <= i)) by lia.
    simpl kraft. rewrite IH. destruct (decide (l = i + 1)); lia.
  - rewrite (filter_cons_False (fun l => l <= i)) by lia.
    destruct (decide (l = i + 1)) as [Ee|Ee].
    + rewrite (filter_cons_True (fun l => l <= i + 1)) by lia.
      simpl kraft. rewrite IH. subst l. lia.
    + rewrite (filter_cons_False (fun l => l <= i + 1)) by lia.
      rewrite IH. lia.
Qed.

Lemma kraft_take_block (ls : list Z) (o : nat) (L : Z) :
  StronglySorted Z.le ls -> ls !! o = Some L ->
  forall K : nat,
    (o <= K)%nat -> ls !! K = Some L ->
    kraft (take K ls) = kraft (take o ls) + Z.of_nat (K - o) * 2 ^ (32 - L).
Proof.
  intros Hs Ho K. induction K as [|K IH]; intros HoK HK.
  - assert (o = 0%nat) by lia. subst. simpl. lia.
  - destruct (decide (o = S K)) as [->|Hne].
    + rewrite Nat.sub_diag. lia.
    + destruct (lookup_lt_is_Some_2 ls K) as [l Hl].
      { apply lookup_lt_Some in HK. lia. }
      assert (l = L).
      { assert (l <= L) by (eapply (sorted_lookup_le ls K (S K)); eauto).
        destruct (decide (o = K)) as [->|Hne']; [congruence|].
        assert (L <= l) by (eapply (sorted_lookup_le ls o K); eauto; lia).
        lia. }
      subst l. rewrite (kraft_take_S ls K L Hl).
      rewrite IH by (auto; lia).
      replace (Z.of_nat (S K - o)) with (Z.of_nat (K - o) + 1) by lia. lia.
Qed.

Lemma tally_spec (ls : list Z) :
  forall (numl : list Z) (j : nat) (v : Z),
    Forall (fun l => 0 <= l < len numl) ls ->
    Forall (fun v => 0 <= v /\ v + len ls < 2 ^ 32) numl ->
    numl !! j = Some v ->
    tally ls numl !! j = Some (v + cnt_eq (Z.of_nat j) ls).
Proof.
  induction ls as [|l ls IH]; intros numl j v Hr Hb Hj.
  - simpl. unfold cnt_eq, len. simpl. rewrite Z.add_0_r. exact Hj.
  - inversion Hr as [|? ? Hl Hr']; subst. cbn [tally].
    destruct (lookup_lt_is_Some_2 numl (Z.to_nat l)) as [k Hk].
    { unfold len in Hl. lia. }
    rewrite Hk. simpl default.
    assert (Hkb : 0 <= k /\ k + len (l :: ls) < 2 ^ 32).
    { rewrite Forall_forall in Hb. apply Hb.
      eapply list_elem_of_lookup_2; eauto. }
    assert (Hlen : len (l :: ls) = len ls + 1)
      by (unfold len; simpl List.length; lia).
    rewrite Hlen in Hkb. pose proof (cnt_eq_range l ls).
    rewrite u32_small by (unfold len in *; lia).
    rewrite cnt_eq_cons.
    set (numl' := <[Z.to_nat l := k + 1]> numl).
    assert (Hr2 : Forall (fun l0 => 0 <= l0 < len numl') ls).
    { eapply Forall_impl; [exact Hr'|]. intros l0 Hl0. simpl in Hl0.
      unfold len, numl' in *. rewrite length_insert. exact Hl0. }
    assert (Hb2 : Forall (fun v0 => 0 <= v0 /\ v0 + len ls < 2 ^ 32) numl').
    { apply Forall_insert; [|lia].
      eapply Forall_impl; [exact Hb|]. intros v0 Hv0. simpl in Hv0.
      rewrite Hlen in Hv0. lia. }
    destruct (decide (j = Z.to_nat l)) as [->|Hne].
    + rewrite (IH numl' (Z.to_nat l) (k + 1) Hr2 Hb2).
      * rewrite Z2Nat.id by lia. destruct (decide (l = l)); [|contradiction].
        f_equal. assert (k = v) by congruence. lia.
      * apply list_lookup_insert_eq. eapply lookup_lt_Some; eauto.
    + rewrite (IH numl' j v Hr2 Hb2).
      * destruct (decide (l = Z.of_nat j)); [lia|]. f_equal.
      * unfold numl'. rewrite list_lookup_insert_ne by auto. exact Hj.
Qed.

(** ** Shifting bits in *)

Lemma shiftr_step (c m : Z) :
  0 <= m ->
  Z.shiftr c m = 2 * Z.shiftr c (m + 1) + Z.b2z (Z.testbit c m).
Proof.
  intros Hm.
  rewrite <- (Z.shiftr_shiftr c m 1) by lia.
  rewrite (Z.shiftr_div_pow2 _ 1) by lia. change (2 ^ 1) with 2.
  rewrite <- (Z.add_0_l m) at 3. rewrite <- Z.shiftr_spec by lia.
  rewrite Z.bit0_mod. apply Z.div_mod. lia.
Qed.

Lemma lor_one_even (c : Z) : Z.lor (2 * c) 1 = 2 * c + 1.
Proof.
  apply Z.bits_inj'. intros i Hi. rewrite Z.lor_spec.
  destruct (Z.eq_dec i 0) as [->|Hne].
  - rewrite Z.testbit_even_0, Z.testbit_odd_0. reflexivity.
  - replace i with (Z.succ (i - 1)) by lia.
    rewrite Z.testbit_even_succ, Z.testbit_odd_succ by lia.
    change 1 with (2 ^ 0). rewrite Z.pow2_bits_false by lia.
    apply orb_false_r.
Qed.

(** ** Decoding one code *)

Lemma ReadBit_cons (b : bool) (r : list bool) :
  ReadBit (b :: r) = (r, b, None).
Proof. reflexivity. Qed.

Lemma shiftr_bound (c L m : Z) :
  0 <= c < 2 ^ L -> 0 <= m <= L -> 0 <= Z.shiftr c m < 2 ^ (L - m).
Proof.
  intros Hc Hm. rewrite Z.shiftr_div_pow2 by lia.
  assert (0 < 2 ^ m) by (apply pow2_pos; lia).
  split; [apply Z.div_pos; lia|].
  apply Z.div_lt_upper_bound; [lia|].
  rewrite <- Z.pow_add_r by lia. replace (m + (L - m)) with L by lia. lia.
Qed.

Section Decode.
Context (ls : list Z) (d : Decoder.t).
Context (Hs : StronglySorted Z.le ls) (Hok : kraft_ok ls).
Context (Hn : len ls < 2 ^ 32).
Context (Hnuml : Decoder.numl d
                 = tally ls (replicate (Z.to_nat (default 0 (last ls) + 1)) 0)).
Context (Hsym : forall (k : nat) (l cd : Z),
           ls !! k = Some l -> canon 0 (-1) ls !! k = Some cd ->
           exists x, sym_at d (Z.of_nat k) = Ret x /\ symbol.code x = cd).

Let M : Z := default 0 (last ls).

Lemma lengths_range (k : nat) (l : Z) : ls !! k = Some l -> 1 <= l <= M /\ M <= 32.
Proof.
  intros Hk. destruct Hok as [Hr _]. rewrite Forall_forall in Hr.
  pose proof (Hr l (list_elem_of_lookup_2 _ _ _ Hk)) as Hl.
  unfold M. destruct (last ls) as [m|] eqn:E.
  - simpl. pose proof (sorted_last_max ls m Hs E) as Hmax.
    rewrite Forall_forall in Hmax.
    pose proof (Hmax l (list_elem_of_lookup_2 _ _ _ Hk)).
    pose proof (Hr m (last_Some_elem_of _ _ E)). lia.
  - apply last_None in E. rewrite E in Hk. discriminate.
Qed.

Lemma numl_length : len (Decoder.numl d) = M + 1.
Proof.
  rewrite Hnuml. unfold len. rewrite tally_length, length_replicate.
  fold M. assert (0 <= M); [|lia].
  unfold M. destruct (last ls) as [m|] eqn:E; simpl; [|lia].
  destruct Hok as [Hr _]. rewrite Forall_forall in Hr.
  pose proof (Hr m (last_Some_elem_of _ _ E)). lia.
Qed.

Lemma numl_index (i : Z) :
  0 <= i <= M -> index (Decoder.numl d) i = Ret (cnt_eq i ls).
Proof.
  intros Hi. apply index_Ret. split; [lia|].
  rewrite Hnuml. fold M.
  rewrite (tally_spec ls _ (Z.to_nat i) 0).
  - rewrite Z2Nat.id by lia. reflexivity.
  - apply Forall_forall. intros l Hl.
    apply list_elem_of_lookup_1 in Hl as [k Hk].
    pose proof (lengths_range k l Hk).
    unfold len. rewrite length_replicate. lia.
  - apply Forall_replicate. lia.
  - apply lookup_replicate_2. lia.
Qed.

Lemma decode_loop (n : nat) :
  forall (i : Z) (K : nat) (L C : Z) (x : symbol.t) (rest : list bool),
    ls !! K = Some L -> canon 0 (-1) ls !! K = Some C ->
    sym_at d (Z.of_nat K) = Ret x ->
    0 <= i < L -> n = Z.to_nat (L - i) ->
    read_loop d (Z.to_nat (M + 1 - i)) i (below (i - 1) ls)
      (Z.shiftr C (L - i)) (bits_msb n C ++ rest)
    = Ret (rest,
           (if symbol.s x =? Decoder.eof d then EOF else symbol.s x), None).
Proof.
  induction n as [|n IH]; intros i K L C x rest HK HC Hx Hi Hnl; [lia|].
  destruct (lengths_range K L HK) as [HL HM].
  destruct (canon_table ls K L Hs Hok HK) as (C' & HC' & HCb & HCk).
  rewrite HC in HC'. injection HC' as <-.
  replace (Z.to_nat (M + 1 - i)) with (S (Z.to_nat (M + 1 - (i + 1)))) by lia.
  cbn [bits_msb app read_loop]. rewrite ReadBit_cons.
  replace (Z.of_nat n) with (L - i - 1) by lia.
  (* the code after the new bit *)
  pose proof (shiftr_bound C L (L - i) HCb ltac:(lia)) as Hc0.
  replace (L - (L - i)) with i in Hc0 by lia.
  assert (Hpi : 2 * 2 ^ i <= 2 ^ 32).
  { change 2 with (2 ^ 1) at 1. rewrite <- Z.pow_add_r by lia.
    apply Z.pow_le_mono_r; lia. }
  assert (Hcode1 : u32 (Z.shiftl (Z.shiftr C (L - i)) 1)
                   = 2 * Z.shiftr C (L - i)).
  { rewrite Z.shiftl_mul_pow2 by lia. change (2 ^ 1) with 2.
    rewrite u32_small by lia. lia. }
  rewrite Hcode1.
  assert (Hcode2 : (if Z.testbit C (L - i - 1)
                    then Z.lor (2 * Z.shiftr C (L - i)) 1
                    else 2 * Z.shiftr C (L - i))
                   = Z.shiftr C (L - i - 1)).
  { rewrite (shiftr_step C (L - i - 1)) by lia.
    replace (L - i - 1 + 1) with (L - i) by lia.
    destruct (Z.testbit C (L - i - 1)); simpl Z.b2z;
      [apply lor_one_even|lia]. }
  rewrite Hcode2.
  pose proof (shiftr_bound C L (L - i - 1) HCb ltac:(lia)) as Hc2.
  replace (L - (L - i - 1)) with (i + 1) in Hc2 by lia.
  assert (Hpi1 : 2 ^ (i + 1) <= 2 ^ 32) by (apply Z.pow_le_mono_r; lia).
  (* the offset *)
  rewrite (numl_index i) by lia. cbn [mbind res_bind].
  pose proof (below_step (i - 1) ls) as Hstep.
  replace (i - 1 + 1) with i in Hstep by lia. rewrite <- Hstep.
  pose proof (below_range i ls) as Hbr.
  rewrite u32_small by lia.
  set (o := Z.to_nat (below i ls)).
  assert (HoK : (o <= K)%nat).
  { pose proof (below_sorted i ls K L Hs HK) as Hb. unfold o. lia. }
  destruct (lookup_lt_is_Some_2 ls o) as [LF HLF].
  { apply lookup_lt_Some in HK. lia. }
  destruct (canon_table ls o LF Hs Hok HLF) as (F & HF & HFb & HFk).
  destruct (Hsym o LF F HLF HF) as (xf & Hxf & Hxfc).
  replace (below i ls) with (Z.of_nat o) by (unfold o; lia).
  rewrite Hxf. cbn [mbind res_bind].
  rewrite (numl_index (i + 1)) by lia. cbn [mbind res_bind].
  rewrite Hxfc.
  assert (HLFi : i < LF).
  { pose proof (below_sorted i ls o LF Hs HLF) as Hb. unfold o in Hb. lia. }
  assert (HFtake : kraft (take o ls) = kraft (filter (fun l => l <= i) ls)).
  { unfold o. rewrite take_below by exact Hs. reflexivity. }
  pose proof (cnt_eq_range (i + 1) ls) as Hn1.
  pose proof (below_step i ls) as Hstep1.
  destruct (decide (i + 1 = L)) as [Elast|Hmore].
  - (* the last bit of the code *)
    assert (HLFL : LF = L).
    { destruct (decide (o = K)) as [->|Hne]; [congruence|].
      assert (LF <= L) by (eapply (sorted_lookup_le ls o K); eauto; lia).
      lia. }
    subst LF.
    pose proof (kraft_take_block ls o L Hs HLF K HoK HK) as Hblock.
    assert (Hpos : 0 < 2 ^ (32 - L)) by (apply pow2_pos; lia).
    assert (HCF : C = F + Z.of_nat (K - o)) by nia.
    assert (HKb : Z.of_nat K < below (i + 1) ls).
    { apply (below_sorted (i + 1) ls K L Hs HK). lia. }
    replace (L - i - 1) with 0 by lia. rewrite Z.shiftr_0_r.
    assert (HKlen : Z.of_nat K < len ls).
    { apply lookup_lt_Some in HK. unfold len. lia. }
    rewrite (u32_small (C - F)) by lia.
    destruct (Z.ltb_spec (C - F) (cnt_eq (i + 1) ls)) as [_|Hge];
      [|unfold o in *; lia].
    replace (C - F + Z.of_nat o) with (Z.of_nat K) by lia.
    rewrite u32_small by lia. rewrite Hx. cbn [mbind res_bind].
    assert (n = 0%nat) by lia. subst n. reflexivity.
  - (* more bits to come *)
    assert (Hnomatch : (u32 (Z.shiftr C (L - i - 1) - F) <? cnt_eq (i + 1) ls)
                       = false).
    { apply Z.ltb_ge.
      destruct (Z.eq_dec (cnt_eq (i + 1) ls) 0) as [E0|E0].
      - rewrite E0. unfold u32. apply Z.mod_pos_bound. lia.
      - assert (HLF1 : LF = i + 1).
        { pose proof (below_sorted (i + 1) ls o LF Hs HLF) as Hb.
          unfold o in Hb. lia. }
        subst LF.
        assert (HbK : (Z.to_nat (below (i + 1) ls) <= K)%nat).
        { pose proof (below_sorted (i + 1) ls K L Hs HK) as Hb. lia. }
        pose proof (kraft_take_mono ls _ _ HbK) as Hmono.
        rewrite take_below in Hmono by exact Hs.
        rewrite kraft_filter_step in Hmono.
        rewrite <- HFtake, <- HFk, <- HCk in Hmono.
        assert (Hsplit : 2 ^ (32 - (i + 1))
                         = 2 ^ (L - i - 1) * 2 ^ (32 - L)).
        { rewrite <- Z.pow_add_r by lia. f_equal. lia. }
        assert (Hpos : 0 < 2 ^ (32 - L)) by (apply pow2_pos; lia).
        assert (Hpp : 0 < 2 ^ (L - i - 1)) by (apply pow2_pos; lia).
        assert (Hge : (F + cnt_eq (i + 1) ls) * 2 ^ (L - i - 1) <= C) by nia.
        assert (F + cnt_eq (i + 1) ls <= Z.shiftr C (L - i - 1)).
        { rewrite Z.shiftr_div_pow2 by lia.
          apply Z.div_le_lower_bound; lia. }
        rewrite u32_small by lia. lia. }
    rewrite Hnomatch.
    replace (Z.of_nat o) with (below (i + 1 - 1) ls)
      by (replace (i + 1 - 1) with i by lia; unfold o; lia).
    replace (L - i - 1) with (L - (i + 1)) by lia.
    apply (IH (i + 1) K L C x rest); auto; lia.
Qed.

(** [ReadSymbol] on the bits of the code at place [K] of the sorted
    order, followed by any bits. *)
Lemma decode_code (K : nat) (L C : Z) (x : symbol.t) (rest : list bool) :
  ls !! K = Some L -> canon 0 (-1) ls !! K = Some C ->
  sym_at d (Z.of_nat K) = Ret x ->
  ReadSymbol d (bits_msb (Z.to_nat L) C ++ rest)
  = Ret (rest, (if symbol.s x =? Decoder.eof d then EOF else symbol.s x), None).
Proof.
  intros HK HC Hx. destruct (lengths_range K L HK) as [HL HM].
  destruct (canon_table ls K L Hs Hok HK) as (C' & HC' & HCb & _).
  rewrite HC in HC'. injection HC' as <-.
  unfold ReadSymbol.
  pose proof numl_length as Hlen. unfold len in Hlen.
  replace (List.length (Decoder.numl d)) with (Z.to_nat (M + 1 - 0)) by lia.
  assert (Hb0 : below (0 - 1) ls = 0).
  { apply below_none. destruct Hok as [Hr _].
    eapply Forall_impl; [exact Hr|]. intros l Hl. simpl in Hl. lia. }
  assert (Hc0 : Z.shiftr C (L - 0) = 0).
  { pose proof (shiftr_bound C L (L - 0) HCb ltac:(lia)) as Hb.
    replace (L - (L - 0)) with 0 in Hb by lia. simpl in Hb. lia. }
  pose proof (decode_loop (Z.to_nat L) 0 K L C x rest HK HC Hx
                ltac:(lia) ltac:(lia)) as Hloop.
  rewrite Hb0, Hc0 in Hloop. exact Hloop.
Qed.

End Decode.

(** ** Kraft's equality for the tree *)

Lemma leaves_at_nonempty (t : node) (d : Z) : leaves_at t d <> [].
Proof.
  intros Hnil. pose proof (leaves_nonempty t) as Hl.
  rewrite <- (leaves_at_fst t d), Hnil in Hl. simpl in Hl. lia.
Qed.

Lemma leaves_kraft (t : node) :
  forall d, 0 <= d ->
    Forall (fun l => snd l <= 32) (leaves_at t d) ->
    kraft (map snd (leaves_at t d)) = 2 ^ (32 - d).
Proof.
  induction t as [w s|w c0 IH0 c1 IH1]; intros d Hd Hall; simpl.
  - lia.
  - simpl in Hall. apply Forall_app in Hall as [H0 H1].
    assert (Hd1 : d + 1 <= 32).
    { destruct (leaves_at c0 (d + 1)) as [|[s d'] rest] eqn:E.
      - elim (leaves_at_nonempty c0 (d + 1)). exact E.
      - inversion H0 as [|? ? Hd' _]; subst. simpl in Hd'.
        assert (Hin : (s, d') ∈ leaves_at c0 (d + 1)) by (rewrite E; left).
        apply leaves_at_depth in Hin. lia. }
    rewrite map_app, kraft_app, IH0, IH1 by (auto; lia).
    replace (32 - d) with (32 - (d + 1) + 1) by lia.
    rewrite Z.pow_add_r by lia. lia.
Qed.

Lemma code_lengths_app (c c' : codebook) :
  code_lengths (c ++ c') = code_lengths c ++ code_lengths c'.
Proof. unfold code_lengths. rewrite filter_app, map_app. reflexivity. Qed.

Lemma kraft_insert (m : codebook) (k : nat) (y x : symbol.t) :
  m !! k = Some y -> symbol.length y = 0 -> symbol.length x <> 0 ->
  kraft (code_lengths (<[k := x]> m))
  = kraft (code_lengths m) + 2 ^ (32 - symbol.length x).
Proof.
  intros Hk Hy Hx.
  rewrite insert_take_drop by (eapply lookup_lt_Some; eauto).
  rewrite <- (take_drop_middle m k y Hk) at 3.
  rewrite !code_lengths_app, !kraft_app.
  assert (Hcx : code_lengths (x :: drop (S k) m)
                = symbol.length x :: code_lengths (drop (S k) m)).
  { unfold code_lengths. rewrite filter_cons_True by exact Hx. reflexivity. }
  assert (Hcy : code_lengths (y :: drop (S k) m)
                = code_lengths (drop (S k) m)).
  { unfold code_lengths.
    rewrite filter_cons_False by (intros Hn; apply Hn; exact Hy).
    reflexivity. }
  rewrite Hcx, Hcy. simpl. lia.
Qed.

Lemma kraft_write_leaves (ls : list (Z * Z)) :
  forall m : codebook,
    NoDup (map (fun l => Z.to_nat (fst l)) ls) ->
    Forall (fun l => snd l <> 0
                     /\ exists y, m !! Z.to_nat (fst l) = Some y
                                  /\ symbol.length y = 0) ls ->
    kraft (code_lengths (write_leaves ls m))
    = kraft (code_lengths m) + kraft (map snd ls).
Proof.
  induction ls as [|[s d] ls IH]; intros m Hnd Hall.
  - simpl. lia.
  - simpl in Hnd. inversion Hnd as [|? ? Hnotin Hnd']; subst.
    inversion Hall as [|? ? [Hd (y & Hy & Hy0)] Hall']; subst. simpl in *.
    change (write_leaves ((s, d) :: ls) m)
      with (write_leaves ls (<[Z.to_nat s := symbol.mk s 0 d]> m)).
    rewrite IH; auto.
    + rewrite (kraft_insert m (Z.to_nat s) y) by auto. simpl. lia.
    + apply Forall_forall. intros l Hl.
      rewrite Forall_forall in Hall'.
      destruct (Hall' l Hl) as [Hl0 (y' & Hy' & Hy'0)].
      split; [exact Hl0|]. exists y'. split; [|exact Hy'0].
      rewrite list_lookup_insert_ne; [exact Hy'|].
      intros Heq. apply Hnotin. rewrite Heq.
      apply list_elem_of_fmap. exists l. auto.
Qed.

Lemma code_lengths_replicate (n : nat) : code_lengths (replicate n symbol.zero) = [].
Proof.
  unfold code_lengths. induction n as [|n IH]; [reflexivity|].
  simpl replicate. rewrite filter_cons_False; [exact IH|].
  intros Hn. apply Hn. reflexivity.
Qed.

Lemma tree_codebook_kraft (counts : list Z) (t : node) :
  encoder_tree counts t ->
  Exists (fun v => v <> 0) counts ->
  Forall (fun l => snd l <= 32) (leaves_at t 0) ->
  kraft (code_lengths (tree_codebook t (S (List.length counts)))) = 2 ^ 32.
Proof.
  intros Het Hex Hall. unfold tree_codebook.
  rewrite kraft_write_leaves.
  - rewrite code_lengths_replicate, leaves_kraft by (auto; lia).
    simpl. lia.
  - rewrite <- (map_map fst Z.to_nat). rewrite leaves_at_fst.
    apply NoDup_to_nat; [apply (et_NoDup _ _ Het)|].
    apply Forall_forall. intros s Hs. apply (et_range _ _ Het) in Hs. lia.
  - destruct (et_node _ _ Het Hex) as (w & c0 & c1 & Ht).
    apply Forall_forall. intros [s d] Hin. cbn [fst snd]. split.
    + rewrite Ht in Hin. apply leaves_at_depth_node in Hin. lia.
    + exists symbol.zero. split; [|reflexivity].
      apply lookup_replicate_2.
      pose proof (et_range _ _ Het s (leaves_at_elem _ _ _ _ Hin)) as Hr.
      unfold len in Hr. lia.
Qed.

(** ** [ReadSymbol] on the code of a slot *)

Lemma sorted_lengths_len (c : codebook) : len (sorted_lengths c) <= len c.
Proof.
  unfold len. rewrite (Permutation_length (sorted_lengths_perm c)).
  unfold code_lengths. rewrite length_map.
  pose proof (length_filter (fun x => symbol.length x <> 0) c). lia.
Qed.

Lemma decode_slot (c : codebook) (eof : Z) (p : nat) (x : symbol.t)
    (rest : list bool) :
  Forall (fun x => 0 <= symbol.length x <= 32) c ->
  kraft (code_lengths c) <= 2 ^ 32 ->
  len c < 2 ^ 32 ->
  set_codes (sorted_ptrs c) (canon 0 (-1) (sorted_lengths c)) c !! p = Some x ->
  nonzero_length x ->
  ReadSymbol
    (Decoder.mk eof
       (tally (sorted_lengths c) (replicate (Z.to_nat (max_length c + 1)) 0))
       (sorted_ptrs c)
       (set_codes (sorted_ptrs c) (canon 0 (-1) (sorted_lengths c)) c))
    (code_bits x ++ rest)
  = Ret (rest, (if symbol.s x =? eof then EOF else symbol.s x), None).
Proof.
  intros Hlen HK Hc Hp Hnz.
  set (mem := set_codes (sorted_ptrs c) (canon 0 (-1) (sorted_lengths c)) c)
    in *.
  set (d := Decoder.mk eof _ _ mem).
  destruct (coded_slot c p x Hp Hnz) as (k & cd & Hk & Hl & Hcd & Hxc).
  assert (Hat : forall (k' p' : nat) (x' : symbol.t),
             sorted_ptrs c !! k' = Some p' -> mem !! p' = Some x' ->
             sym_at d (Z.of_nat k') = Ret x').
  { intros k' p' x' Hk' Hp'. unfold sym_at.
    assert (Hidx : index (Decoder.sym d) (Z.of_nat k') = Ret p').
    { apply index_Ret. split; [lia|]. rewrite Nat2Z.id. exact Hk'. }
    rewrite Hidx. cbn [mbind res_bind]. simpl Decoder.mem. rewrite Hp'.
    reflexivity. }
  unfold code_bits. rewrite Hxc.
  apply (decode_code (sorted_lengths c) d) with (K := k).
  - apply sorted_lengths_sorted.
  - apply sorted_lengths_kraft_ok; assumption.
  - pose proof (sorted_lengths_len c). lia.
  - reflexivity.
  - intros k' l' cd' Hl' Hcd'.
    destruct (lookup_lt_is_Some_2 (sorted_ptrs c) k') as [p' Hp'].
    { apply lookup_lt_Some in Hl'. unfold sorted_lengths, sorted_syms in Hl'.
      rewrite !length_map in Hl'. exact Hl'. }
    assert (Hin : p' ∈ sorted_ptrs c) by (eapply list_elem_of_lookup_2; eauto).
    apply sptrs_spec in Hin as (x0 & Hx0 & _).
    exists (symbol.with_code x0 cd'). split; [|reflexivity].
    apply (Hat k' p'); [exact Hp'|].
    apply (set_codes_lookup _ _ _ k' p' cd' x0); auto.
    apply sorted_ptrs_NoDup.
  - exact Hl.
  - exact Hcd.
  - apply (Hat k p); assumption.
Qed.

(** ** The round trip *)

Lemma encoding_write (e : Encoder.t) (w : Writer.t (list bool)) (s : Z)
    (x : symbol.t) :
  Writer.e w = e ->
  0 <= slot_of (Encoder.eof e) s <= Encoder.eof e ->
  Encoder.m e !! Z.to_nat (slot_of (Encoder.eof e) s) = Some x ->
  0 <= symbol.code x < 2 ^ 64 ->
  WriteSymbol w s
  = Ret (Writer.mk e (Writer.bw w ++ encoding e s) (Writer.closed w),
         symbol.length x, None).
Proof.
  intros He Hslot Hx Hcode. unfold WriteSymbol, encoding. rewrite He.
  fold (slot_of (Encoder.eof e) s). rewrite Hx.
  destruct (Z.ltb_spec (Encoder.eof e) (slot_of (Encoder.eof e) s)); [lia|].
  assert (Hidx : index (Encoder.m e) (slot_of (Encoder.eof e) s) = Ret x).
  { apply index_Ret. split; [lia|exact Hx]. }
  rewrite Hidx. cbn [mbind res_bind].
  rewrite u64_small by exact Hcode. reflexivity.
Qed.

(** A symbol of the interface that the encoder [e] and its decoder
    carry through: its slot holds a code, and [ReadSymbol] on the bits
    of that code returns the symbol. *)
Definition carried (e : Encoder.t) (s : Z) : Prop :=
  exists x,
    0 <= slot_of (Encoder.eof e) s <= Encoder.eof e
    /\ Encoder.m e !! Z.to_nat (slot_of (Encoder.eof e) s) = Some x
    /\ 0 <= symbol.code x < 2 ^ 64
    /\ forall rest : list bool,
         ReadSymbol (Encoder_Decoder e) (code_bits x ++ rest)
         = Ret (rest, s, None).

Lemma write_symbols_carried (e : Encoder.t) (syms : list Z) :
  Forall (carried e) syms ->
  forall w : Writer.t (list bool),
    Writer.e w = e ->
    exists outs,
      write_symbols w syms
      = Ret (Writer.mk e (Writer.bw w ++ concat (map (encoding e) syms))
               (Writer.closed w), outs)
      /\ Forall (fun o => snd o = None) outs.
Proof.
  induction 1 as [|s syms (x & Hslot & Hx & Hcode & _) _ IH]; intros w He.
  - exists []. simpl. rewrite app_nil_r. split; [|constructor].
    destruct w; simpl in *. subst. reflexivity.
  - cbn [write_symbols].
    rewrite (encoding_write e w s x He Hslot Hx Hcode). cbn [mbind res_bind].
    destruct (IH (Writer.mk e (Writer.bw w ++ encoding e s) (Writer.closed w))
                eq_refl) as (outs & Hw & Hnone).
    rewrite Hw. cbn [mbind res_bind]. simpl Writer.bw. simpl Writer.closed.
    exists ((symbol.length x, None) :: outs).
    split; [|constructor; auto].
    simpl. rewrite <- app_assoc. reflexivity.
Qed.

Lemma read_symbols_carried (e : Encoder.t) (syms : list Z) (rest : list bool) :
  Forall (carried e) syms ->
  read_symbols (Encoder_Decoder e) (List.length syms)
    (concat (map (encoding e) syms) ++ rest)
  = Ret (rest, map (fun s => (s, None)) syms).
Proof.
  induction 1 as [|s syms (x & Hslot & Hx & Hcode & Hread) _ IH];
    [reflexivity|].
  cbn [List.length read_symbols map concat].
  unfold encoding at 1. rewrite Hx. rewrite <- app_assoc.
  rewrite Hread. cbn [mbind res_bind]. rewrite IH. reflexivity.
Qed.

Lemma set_codes_s (ps : symptrs) :
  forall (codes : list Z) (c : codebook),
    map symbol.s (set_codes ps codes c) = map symbol.s c.
Proof.
  induction ps as [|p ps IH]; intros codes c; simpl; auto.
  destruct codes as [|k codes]; auto.
  rewrite IH. destruct (c !! p) as [x|] eqn:E; auto.
  apply list_eq. intros j. rewrite !list_lookup_fmap.
  destruct (decide (j = p)) as [->|Hne].
  - rewrite list_lookup_insert_eq by (eapply lookup_lt_Some; eauto).
    rewrite E. reflexivity.
  - rewrite list_lookup_insert_ne by auto. reflexivity.
Qed.

Lemma slot_fields (c c' : codebook) (k : nat) (x : symbol.t) :
  map symbol.length c = map symbol.length c' ->
  map symbol.s c = map symbol.s c' ->
  c !! k = Some x ->
  exists x', c' !! k = Some x' /\ symbol.length x' = symbol.length x
             /\ symbol.s x' = symbol.s x.
Proof.
  intros Hl Hs Hk.
  destruct (lengths_lookup c c' k x Hl Hk) as (x' & Hk' & Hx').
  exists x'. split; [exact Hk'|]. split; [exact Hx'|].
  assert (H1 : map symbol.s c !! k = Some (symbol.s x))
    by (rewrite list_lookup_fmap, Hk; reflexivity).
  rewrite Hs, list_lookup_fmap, Hk' in H1. simpl in H1. congruence.
Qed.

Lemma encoder_carries (counts : list Z) (t : node) (s : Z) :
  len counts < 2 ^ 32 - 1 ->
  encoder_tree counts t ->
  Exists (fun v => v <> 0) counts ->
  let m0 := tree_codebook t (S (List.length counts)) in
  let e := Encoder.mk (len counts)
             (set_codes (sorted_ptrs m0) (canon 0 (-1) (sorted_lengths m0)) m0)
             (sorted_ptrs m0)
             (tally (sorted_lengths m0)
                (replicate (Z.to_nat (max_length m0 + 1)) 0)) in
  Forall (fun x => symbol.length x <= 32) (Encoder.m e) ->
  s = EOF \/ (0 <= s /\ exists v, counts !! Z.to_nat s = Some v /\ v <> 0) ->
  carried e s.
Proof.
  intros Hlen Het Hex m0 e H32 Hs.
  set (m := Encoder.m e) in *.
  assert (Hml : map symbol.length m0 = map symbol.length m).
  { symmetry. apply set_codes_lengths. }
  assert (Hms : map symbol.s m0 = map symbol.s m).
  { symmetry. apply set_codes_s. }
  pose proof (tree_codebook_lengths counts t Het) as Hl0. fold m0 in Hl0.
  assert (Hl32 : Forall (fun x => 0 <= symbol.length x <= 32) m0).
  { apply Forall_forall. intros x Hx.
    rewrite Forall_forall in Hl0. pose proof (Hl0 x Hx).
    apply list_elem_of_lookup_1 in Hx as [k Hk].
    destruct (lengths_lookup m0 m k x Hml Hk) as (x' & Hk' & Hx').
    rewrite Forall_forall in H32.
    pose proof (H32 x' (list_elem_of_lookup_2 _ _ _ Hk')). lia. }
  assert (Hdepth : Forall (fun l => snd l <= 32) (leaves_at t 0)).
  { apply Forall_forall. intros [s' d'] Hin. simpl.
    pose proof (tree_codebook_leaf counts t Het s' d' Hin) as Hleaf.
    fold m0 in Hleaf. rewrite Forall_forall in Hl32.
    pose proof (Hl32 _ (list_elem_of_lookup_2 _ _ _ Hleaf)) as Hb.
    simpl in Hb. lia. }
  assert (HK : kraft (code_lengths m0) <= 2 ^ 32).
  { unfold m0. rewrite (tree_codebook_kraft counts t Het Hex Hdepth). lia. }
  assert (Hc : len m0 < 2 ^ 32).
  { unfold len, m0. rewrite (tree_codebook_length counts t).
    unfold len in Hlen. lia. }
  assert (Hpos : 0 <= len counts) by (unfold len; lia).
  set (slot := slot_of (len counts) s).
  assert (Hslot : slot ∈ leaves t
                  /\ (if slot =? len counts then EOF else slot) = s).
  { unfold slot, slot_of.
    destruct Hs as [->|(Hs0 & v & Hv & Hvn)].
    - rewrite Z.eqb_refl. split.
      + apply (et_leaves _ _ Het). left. reflexivity.
      + rewrite Z.eqb_refl. reflexivity.
    - pose proof (lookup_lt_Some _ _ _ Hv) as Hlt. unfold len in *.
      destruct (Z.eqb_spec s EOF) as [E|_]; [unfold EOF in E; lia|].
      split.
      + apply (et_leaves _ _ Het). right. exists (Z.to_nat s), v.
        split; [exact Hv|]. split; [exact Hvn|]. lia.
      + destruct (Z.eqb_spec s (Z.of_nat (List.length counts))); [lia|].
        reflexivity. }
  destruct Hslot as [Hin Hback].
  pose proof (et_range _ _ Het slot Hin) as Hrange.
  destruct (leaves_elem_at t 0 slot Hin) as [d Hd].
  pose proof (tree_codebook_leaf counts t Het slot d Hd) as Hm0.
  fold m0 in Hm0.
  assert (Hd1 : 1 <= d).
  { destruct (et_node _ _ Het Hex) as (w & c0 & c1 & Ht). rewrite Ht in Hd.
    apply leaves_at_depth_node in Hd. lia. }
  assert (Hd32 : d <= 32).
  { rewrite Forall_forall in Hdepth. apply (Hdepth (slot, d) Hd). }
  destruct (slot_fields m0 m _ _ Hml Hms Hm0) as (x & Hx & Hxl & Hxs).
  simpl in Hxl, Hxs.
  assert (Hnz : nonzero_length x) by (unfold nonzero_length; lia).
  destruct (coded_slot m0 _ x Hx Hnz) as (k & cd & Hk & Hlk & Hcd & Hxc).
  destruct (canon_table (sorted_lengths m0) k (symbol.length x)
              (sorted_lengths_sorted m0)
              (sorted_lengths_kraft_ok m0 Hl32 HK) Hlk)
    as (cd' & Hcd' & Hcb & _).
  rewrite Hcd in Hcd'. injection Hcd' as <-.
  exists x. simpl Encoder.eof. fold slot.
  split; [lia|]. split; [exact Hx|]. split.
  - rewrite Hxc.
    assert (2 ^ symbol.length x <= 2 ^ 32)
      by (apply Z.pow_le_mono_r; lia).
    lia.
  - intros rest.
    pose proof (decode_slot m0 (len counts) _ x rest Hl32 HK Hc Hx Hnz)
      as Hdec.
    rewrite Hxs, Hback in Hdec. exact Hdec.
Qed.

(** C1 (amended): for counts with a nonzero entry (and fewer than
    2^32-1 entries), [NewEncoder] returns an encoder; when every code
    length it assigned is at most 32, writing symbols of nonzero count
    and then the end-of-input sentinel, closing the writer and reading
    as many symbols back from the bits with the encoder's decoder
    returns the sequence written, sentinel included, with nil errors. *)
Theorem round_trip (counts syms : list Z) :
  len counts < 2 ^ 32 - 1 ->
  Exists (fun v => v <> 0) counts ->
  Forall (fun s => 0 <= s /\ exists v, counts !! Z.to_nat s = Some v /\ v <> 0)
         syms ->
  exists e,
    NewEncoder counts = Ret e
    /\ (Forall (fun x => symbol.length x <= 32) (Encoder.m e) ->
        exists w outs rest,
          write_symbols (Encoder_Writer e ([] : list bool)) (syms ++ [EOF])
          = Ret (w, outs)
          /\ Forall (fun o => snd o = None) outs
          /\ read_symbols (Encoder_Decoder e) (List.length (syms ++ [EOF]))
               (Writer.bw (Close w))
             = Ret (rest, map (fun s => (s, None)) (syms ++ [EOF]))).
Proof.
  intros Hlen Hex Hsyms.
  destruct (NewEncoder_tree counts Hlen) as (t & Het & Hnew).
  rewrite (calculateCodes_tree_codebook counts t Hlen Het Hex) in Hnew.
  cbn [mbind res_bind] in Hnew.
  eexists. split; [exact Hnew|]. intros H32.
  set (e := Encoder.mk _ _ _ _) in *.
  assert (Hall : Forall (carried e) (syms ++ [EOF])).
  { apply Forall_app. split.
    - eapply Forall_impl; [exact Hsyms|]. intros s Hs.
      apply (encoder_carries counts t s Hlen Het Hex H32). right. exact Hs.
    - constructor; [|constructor].
      apply (encoder_carries counts t EOF Hlen Het Hex H32). left. reflexivity. }
  destruct (write_symbols_carried e _ Hall (Encoder_Writer e []) eq_refl)
    as (outs & Hw & Hnone).
  do 3 eexists. split; [exact Hw|]. split; [exact Hnone|].
  unfold Close. cbn [Writer.closed Writer.bw Writer.e Encoder_Writer].
  cbn [Flush mem_writer fst app].
  apply read_symbols_carried. exact Hall.
Qed.

Lemma round_trip_witness :
  exists e,
    NewEncoder [3; 0; 2] = Ret e
    /\ (Forall (fun x => symbol.length x <= 32) (Encoder.m e) ->
        exists w outs rest,
          write_symbols (Encoder_Writer e ([] : list bool)) ([0; 2; 0] ++ [EOF])
          = Ret (w, outs)
          /\ Forall (fun o => snd o = None) outs
          /\ read_symbols (Encoder_Decoder e) (List.length ([0; 2; 0] ++ [EOF]))
               (Writer.bw (Close w))
             = Ret (rest, map (fun s => (s, None)) ([0; 2; 0] ++ [EOF]))).
Proof.
  apply (round_trip [3; 0; 2] [0; 2; 0]).
  - vm_compute. reflexivity.
  - constructor. lia.
  - repeat constructor; simpl; try lia; eexists; split;
      try reflexivity; lia.
Defined.

(** C1, as stated, fails: on [deep_counts] symbol 1 gets a code of 33
    bits, of which the [uint32] code keeps 32; written with the
    sentinel and read back, the two symbols read are 33 and 2. *)
Lemma round_trip_fails_on_long_codes :
  exists e w outs rest,
    Exists (fun v => v <> 0) deep_counts
    /\ deep_counts !! 1%nat = Some 1
    /\ NewEncoder deep_counts = Ret e
    /\ SymbolLen e 1 = Ret 33
    /\ write_symbols (Encoder_Writer e ([] : list bool)) ([1] ++ [EOF])
       = Ret (w, outs)
    /\ read_symbols (Encoder_Decoder e) 2 (Writer.bw (Close w))
       = Ret (rest, [(33, None); (2, None)])
    /\ [(33, None); (2, None)]
       <> map (fun s => (s, @None error)) ([1] ++ [EOF]).
Proof.
  do 4 eexists.
  split; [constructor; lia|].
  split; [reflexivity|].
  split; [vm_compute; reflexivity|].
  split; [vm_compute; reflexivity|].
  split; [vm_compute; reflexivity|].
  split; [vm_compute; reflexivity|].
  discriminate.
Qed.

(** ** Depths of subtrees *)

Lemma at_depth_trans (x y t : node) (a b : nat) :
  at_depth x y a -> at_depth y t b -> at_depth x t (a + b).
Proof.
  intros Hx Hy. induction Hy as [|w c0 c1 d Hy IH|w c0 c1 d Hy IH].
  - rewrite Nat.add_0_r. exact Hx.
  - rewrite Nat.add_succ_r. apply at_child0. exact IH.
  - rewrite Nat.add_succ_r. apply at_child1. exact IH.
Qed.

Lemma at_depth_size (x t : node) (d : nat) :
  at_depth x t d -> (size x <= size t)%nat.
Proof. induction 1; simpl; lia. Qed.

Lemma at_depth_leaves (x t : node) (d : nat) (s : Z) :
  at_depth x t d -> s ∈ leaves x -> s ∈ leaves t.
Proof.
  induction 1 as [|w c0 c1 d Hx IH|w c0 c1 d Hx IH]; intros Hs; auto;
    simpl; apply elem_of_app; auto.
Qed.

Lemma leaves_inhabited (t : node) : exists s, s ∈ leaves t.
Proof.
  pose proof (leaves_nonempty t) as Hl.
  destruct (leaves t) as [|s l]; [simpl in Hl; lia|].
  exists s. left.
Qed.

Lemma at_depth_unique (x t : node) :
  NoDup (leaves t) ->
  forall d d' : nat, at_depth x t d -> at_depth x t d' -> d = d'.
Proof.
  induction t as [w s|w c0 IH0 c1 IH1]; intros Hnd d d' Hd Hd'.
  - inversion Hd; subst. inversion Hd'; subst. reflexivity.
  - simpl in Hnd. apply NoDup_app in Hnd as (Hnd0 & Hdisj & Hnd1).
    assert (Hroot : forall c e, at_depth (Node w c0 c1) c e ->
                                (size c < size (Node w c0 c1))%nat -> False).
    { intros c e Hc Hsz. apply at_depth_size in Hc. lia. }
    inversion Hd as [|? ? ? e He|? ? ? e He]; subst;
      inversion Hd' as [|? ? ? e' He'|? ? ? e' He']; subst;
      try reflexivity;
      try (exfalso; eapply Hroot; [eassumption|simpl; lia]).
    + f_equal. apply IH0; auto.
    + exfalso. destruct (leaves_inhabited x) as [s Hs].
      apply (Hdisj s); eapply at_depth_leaves; eauto.
    + exfalso. destruct (leaves_inhabited x) as [s Hs].
      apply (Hdisj s); eapply at_depth_leaves; eauto.
    + f_equal. apply IH1; auto.
Qed.

Lemma at_depth_leaves_at (w s : Z) (t : node) (d : nat) :
  at_depth (Leaf w s) t d ->
  forall d0, (s, d0 + Z.of_nat d) ∈ leaves_at t d0.
Proof.
  remember (Leaf w s) as x eqn:Ex.
  induction 1 as [|w' c0 c1 d Hx IH|w' c0 c1 d Hx IH]; intros d0.
  - subst. simpl. rewrite Z.add_0_r. left.
  - simpl. apply elem_of_app. left.
    replace (d0 + Z.of_nat (S d)) with (d0 + 1 + Z.of_nat d) by lia.
    apply IH.
  - simpl. apply elem_of_app. right.
    replace (d0 + Z.of_nat (S d)) with (d0 + 1 + Z.of_nat d) by lia.
    apply IH.
Qed.

Lemma leaves_at_unique (t : node) (d0 s d d' : Z) :
  NoDup (leaves t) ->
  (s, d) ∈ leaves_at t d0 -> (s, d') ∈ leaves_at t d0 -> d = d'.
Proof.
  intros Hnd. rewrite <- (leaves_at_fst t d0) in Hnd.
  intros H1 H2.
  apply list_elem_of_lookup_1 in H1 as [i Hi].
  apply list_elem_of_lookup_1 in H2 as [j Hj].
  assert (i = j).
  { apply (NoDup_lookup _ i j s Hnd);
      rewrite list_lookup_fmap; [rewrite Hi|rewrite Hj]; reflexivity. }
  subst. congruence.
Qed.

(** ** Every tree of the heap ends up in the tree that is left *)

Lemma huff_run_at_depth (h : nodes) (t : node) :
  huff_run h t -> forall x, x ∈ h -> exists d, at_depth x t d.
Proof.
  induction 1 as [t|h h' t Hstep Hrun IH]; intros x Hx.
  - apply list_elem_of_singleton in Hx. subst. exists 0%nat. constructor.
  - destruct Hstep as [h h' rest n1 n2 H1 _ _ H4].
    assert (HP : exists dP,
               at_depth (Node (int64 (weight n1 + weight n2)) n2 n1) t dP).
    { apply IH. rewrite H4. left. }
    destruct HP as [dP HdP].
    rewrite H1 in Hx. apply elem_of_cons in Hx as [->|Hx].
    { exists (1 + dP)%nat. eapply at_depth_trans; [|exact HdP].
      apply at_child1. constructor. }
    apply elem_of_cons in Hx as [->|Hx].
    { exists (1 + dP)%nat. eapply at_depth_trans; [|exact HdP].
      apply at_child0. constructor. }
    apply IH. rewrite H4. right. exact Hx.
Qed.

(** ** Well-formed heaps *)

Lemma total_weight_perm (h h' : nodes) :
  h ≡ₚ h' -> total_weight h = total_weight h'.
Proof. unfold total_weight. induction 1; simpl; lia. Qed.

Lemma total_weight_ge (h : nodes) (x : node) :
  Forall (fun y => 0 <= weight y) h -> x ∈ h -> weight x <= total_weight h.
Proof.
  unfold total_weight. induction 1 as [|y h Hy Hall IH]; intros Hx.
  - inversion Hx.
  - simpl. assert (0 <= fold_right (fun x acc => weight x + acc) 0 h).
    { clear -Hall. induction Hall; simpl; lia. }
    apply elem_of_cons in Hx as [->|Hx]; [lia|]. specialize (IH Hx). lia.
Qed.

Lemma wf_forest_perm (h h' : nodes) : h ≡ₚ h' -> wf_forest h -> wf_forest h'.
Proof.
  intros Hp (Hnn & Htot & Hnd). split; [|split].
  - rewrite <- Hp. exact Hnn.
  - rewrite <- (total_weight_perm _ _ Hp). exact Htot.
  - rewrite <- (forest_leaves_perm _ _ Hp). exact Hnd.
Qed.

Lemma huff_step_weight (n1 n2 : node) (rest : nodes) :
  wf_forest (n1 :: n2 :: rest) ->
  int64 (weight n1 + weight n2) = weight n1 + weight n2
  /\ 0 <= weight n1 /\ 0 <= weight n2.
Proof.
  intros (Hnn & Htot & _).
  inversion Hnn as [|? ? H1 Hnn']; subst.
  inversion Hnn' as [|? ? H2 Hnn'']; subst.
  unfold total_weight in Htot. simpl in Htot.
  assert (0 <= fold_right (fun x acc => weight x + acc) 0 rest).
  { clear -Hnn''. induction Hnn''; simpl; lia. }
  split; [|lia]. apply int64_small. lia.
Qed.

Lemma huff_step_wf (h h' : nodes) : huff_step h h' -> wf_forest h -> wf_forest h'.
Proof.
  intros [h0 h0' rest n1 n2 H1 _ _ H4] Hwf.
  apply (wf_forest_perm _ _ H1) in Hwf.
  destruct (huff_step_weight n1 n2 rest Hwf) as (Hw & Hw1 & Hw2).
  apply (wf_forest_perm _ _ (symmetry H4)).
  destruct Hwf as (Hnn & Htot & Hnd).
  inversion Hnn as [|? ? _ Hnn']; subst. inversion Hnn' as [|? ? _ Hnn'']; subst.
  split; [|split].
  - constructor; [simpl; lia|exact Hnn''].
  - unfold total_weight in *. simpl in *. lia.
  - unfold forest_leaves in *. simpl in *.
    rewrite app_assoc in Hnd.
    rewrite (Permutation_app_comm (leaves n2)). exact Hnd.
Qed.

Lemma huff_run_NoDup (h : nodes) (t : node) :
  huff_run h t -> wf_forest h -> NoDup (leaves t).
Proof.
  intros Hrun (_ & _ & Hnd). rewrite (huff_run_leaves h t Hrun). exact Hnd.
Qed.

(** ** Heavier trees sit no deeper *)

(** Along the merge loop, with [tt] a lower bound of the weights in the
    heap: a tree lighter than another by less than [k] times [tt] ends
    up at most [k] levels above it. *)
Lemma huff_run_depth_order (h : nodes) (t : node) :
  huff_run h t -> wf_forest h ->
  forall (k : nat) (tt : Z) (x y : node) (dx dy : nat),
    x ∈ h -> y ∈ h -> 0 <= tt ->
    (forall z, z ∈ h -> tt <= weight z) ->
    weight x < weight y + Z.of_nat k * tt ->
    at_depth x t dx -> at_depth y t dy -> (dy <= dx + k)%nat.
Proof.
  intros Hrun. induction Hrun as [t|h h' t Hstep Hrun IH];
    intros Hwf k tt x y dx dy Hx Hy Htt Hmin Hlt Hdx Hdy.
  - apply list_elem_of_singleton in Hx. apply list_elem_of_singleton in Hy.
    subst x y.
    assert (Hnd : NoDup (leaves t)).
    { destruct Hwf as (_ & _ & Hnd). unfold forest_leaves in Hnd.
      simpl in Hnd. rewrite app_nil_r in Hnd. exact Hnd. }
    rewrite (at_depth_unique t t Hnd dx dy Hdx Hdy). lia.
  - assert (Hnd : NoDup (leaves t)).
    { apply (huff_run_NoDup h t); [|exact Hwf].
      eapply huff_run_step; eauto. }
    pose proof (huff_step_wf h h' Hstep Hwf) as Hwf'.
    specialize (IH Hwf').
    destruct Hstep as [h h' rest n1 n2 H1 H2 H3 H4].
    apply (wf_forest_perm _ _ H1) in Hwf.
    destruct (huff_step_weight n1 n2 rest Hwf) as (Hw & Hw1 & Hw2).
    set (P := Node (int64 (weight n1 + weight n2)) n2 n1) in *.
    assert (HwP : weight P = weight n1 + weight n2) by (simpl; exact Hw).
    assert (HPin : P ∈ h') by (rewrite H4; left).
    destruct (huff_run_at_depth h' t Hrun P HPin) as [dP HdP].
    assert (Hpop : forall z d, z = n1 \/ z = n2 -> at_depth z t d -> d = S dP).
    { intros z d Hz Hd.
      assert (Hz1 : at_depth z P 1).
      { destruct Hz as [->| ->]; [apply at_child1|apply at_child0];
          constructor. }
      pose proof (at_depth_trans z P t 1 dP Hz1 HdP) as Hz2.
      apply (at_depth_unique z t Hnd d (1 + dP) Hd Hz2). }
    assert (H12 : weight n1 <= weight n2) by (apply H2; left).
    assert (Hin1 : n1 ∈ h) by (rewrite H1; left).
    assert (Hin2 : n2 ∈ h) by (rewrite H1; right; left).
    pose proof (Hmin n1 Hin1) as Ht1. pose proof (Hmin n2 Hin2) as Ht2.
    assert (Hrest : forall z, z ∈ rest -> z ∈ h' /\ weight n2 <= weight z
                                          /\ tt <= weight z).
    { intros z Hz. split; [rewrite H4; right; exact Hz|].
      split; [apply H3; exact Hz|].
      apply Hmin. rewrite H1. right. right. exact Hz. }
    assert (Hmin' : forall z, z ∈ h' -> tt <= weight z).
    { intros z Hz. rewrite H4 in Hz. apply elem_of_cons in Hz as [->|Hz].
      - lia.
      - apply Hrest. exact Hz. }
    assert (Hmin2 : forall z, z ∈ h' -> weight n2 <= weight z).
    { intros z Hz. rewrite H4 in Hz. apply elem_of_cons in Hz as [->|Hz].
      - lia.
      - apply Hrest. exact Hz. }
    assert (Hcases : forall z, z ∈ h -> (z = n1 \/ z = n2) \/ z ∈ rest).
    { intros z Hz. rewrite H1 in Hz.
      apply elem_of_cons in Hz as [->|Hz]; [auto|].
      apply elem_of_cons in Hz as [->|Hz]; auto. }
    assert (Hpw : forall z, z = n1 \/ z = n2 ->
                            tt <= weight P - weight z <= weight n2
                            /\ weight z <= weight n2).
    { intros z [->| ->]; lia. }
    destruct (Hcases x Hx) as [Hxp|Hxr]; destruct (Hcases y Hy) as [Hyp|Hyr].
    + rewrite (Hpop x dx Hxp Hdx), (Hpop y dy Hyp Hdy). lia.
    + rewrite (Hpop x dx Hxp Hdx).
      destruct (Hrest y Hyr) as (Hyin & _ & _).
      destruct (Hpw x Hxp) as [Hother _].
      assert (Hgoal : (dy <= dP + S k)%nat).
      { apply (IH (S k) (weight n2) P y dP dy); auto.
        assert (Z.of_nat k * tt <= Z.of_nat k * weight n2) by nia.
        rewrite Nat2Z.inj_succ. nia. }
      lia.
    + rewrite (Hpop y dy Hyp Hdy).
      destruct (Hrest x Hxr) as (Hxin & Hx2 & _).
      destruct (Hpw y Hyp) as [Hother Hy2].
      destruct k as [|k]; [simpl in Hlt; lia|].
      assert (Hgoal : (dP <= dx + k)%nat).
      { apply (IH k tt x P dx dP); auto.
        rewrite Nat2Z.inj_succ in Hlt. nia. }
      lia.
    + destruct (Hrest x Hxr) as (Hxin & _ & _).
      destruct (Hrest y Hyr) as (Hyin & _ & _).
      apply (IH k tt x y dx dy); auto.
Qed.

(** ** The heap [NewEncoder] starts from *)

Lemma count_leaves_elem (counts : list Z) :
  forall (i k : nat) (v : Z),
    counts !! k = Some v -> v <> 0 ->
    Leaf v (u32 (Z.of_nat (i + k))) ∈ count_leaves i counts.
Proof.
  induction counts as [|v0 counts IH]; intros i k v Hk Hv; [discriminate|].
  destruct k as [|k]; simpl in *.
  - injection Hk as ->. destruct (Z.eqb_spec v 0); [contradiction|].
    rewrite Nat.add_0_r. left.
  - replace (i + S k)%nat with (S i + k)%nat by lia.
    destruct (v0 =? 0); [|right]; apply IH; auto.
Qed.

Lemma count_leaves_weights (counts : list Z) :
  Forall (fun v => 0 <= v) counts ->
  forall i : nat,
    Forall (fun x => 0 <= weight x) (count_leaves i counts)
    /\ total_weight (count_leaves i counts) = sum_counts counts.
Proof.
  induction 1 as [|v counts Hv _ IH]; intros i; simpl.
  - split; [constructor|reflexivity].
  - destruct (IH (S i)) as [Hnn Htot].
    destruct (Z.eqb_spec v 0) as [->|Hne].
    + split; [exact Hnn|]. rewrite Htot. lia.
    + split; [constructor; [simpl; lia|exact Hnn]|].
      unfold total_weight in *. simpl. rewrite Htot. reflexivity.
Qed.

Lemma initial_forest_wf (counts : list Z) :
  len counts < 2 ^ 32 ->
  Forall (fun v => 0 <= v) counts -> sum_counts counts < 2 ^ 63 ->
  wf_forest (initial_forest counts).
Proof.
  intros Hlen Hnn Hsum.
  destruct (count_leaves_weights counts Hnn 0) as [Hw Htot].
  split; [|split].
  - constructor; [simpl; lia|exact Hw].
  - unfold initial_forest, total_weight in *. simpl. rewrite Htot. lia.
  - apply initial_forest_NoDup. exact Hlen.
Qed.

(** ** The encoder, explicitly *)

Lemma NewEncoder_explicit (counts : list Z) :
  len counts < 2 ^ 32 - 1 -> Exists (fun v => v <> 0) counts ->
  exists t, encoder_tree counts t /\ NewEncoder counts = Ret (encoder_of counts t).
Proof.
  intros Hlen Hex.
  destruct (NewEncoder_tree counts Hlen) as (t & Het & Hnew).
  exists t. split; [exact Het|].
  rewrite (calculateCodes_tree_codebook counts t Hlen Het Hex) in Hnew.
  exact Hnew.
Qed.

Lemma encoder_of_slot (counts : list Z) (t : node) (k : nat) (x0 : symbol.t) :
  tree_codebook t (S (List.length counts)) !! k = Some x0 ->
  exists x, Encoder.m (encoder_of counts t) !! k = Some x
            /\ symbol.length x = symbol.length x0
            /\ symbol.s x = symbol.s x0.
Proof.
  intros Hk. apply (slot_fields (tree_codebook t (S (List.length counts)))).
  - symmetry. apply set_codes_lengths.
  - symmetry. apply set_codes_s.
  - exact Hk.
Qed.

Lemma encoder_of_len (counts : list Z) (t : node) :
  len (Encoder.m (encoder_of counts t)) = len counts + 1.
Proof.
  unfold encoder_of, len. simpl. rewrite set_codes_length.
  rewrite tree_codebook_length. lia.
Qed.

(** [SymbolLen] on a slot of the codebook. *)
Lemma SymbolLen_slot (counts : list Z) (t : node) (s : Z) (x0 : symbol.t) :
  len counts < 2 ^ 32 - 1 -> 0 <= s -> s <> EOF ->
  tree_codebook t (S (List.length counts)) !! Z.to_nat s = Some x0 ->
  SymbolLen (encoder_of counts t) s = Ret (symbol.length x0).
Proof.
  intros Hlen Hs Hne Hk.
  destruct (encoder_of_slot counts t _ x0 Hk) as (x & Hx & Hxl & _).
  unfold SymbolLen. destruct (Z.eqb_spec s EOF); [contradiction|].
  rewrite encoder_of_len.
  assert (Hpos : 0 <= len counts) by (unfold len; lia).
  rewrite u32_small by lia.
  pose proof (lookup_lt_Some _ _ _ Hk) as Hlt.
  rewrite tree_codebook_length in Hlt. unfold len in *.
  destruct (Z.leb_spec (Z.of_nat (List.length counts) + 1) s); [lia|].
  assert (Hidx : index (Encoder.m (encoder_of counts t)) s = Ret x).
  { apply index_Ret. auto. }
  rewrite Hidx. cbn [mbind res_bind]. rewrite Hxl. reflexivity.
Qed.

Lemma SymbolLen_EOF (e : Encoder.t) :
  SymbolLen e EOF = SymbolLen e (Encoder.eof e).
Proof.
  unfold SymbolLen. rewrite Z.eqb_refl.
  destruct (Z.eqb_spec (Encoder.eof e) EOF); reflexivity.
Qed.

(** [SymbolLen] on a leaf of the tree is the depth of the leaf. *)
Lemma SymbolLen_leaf (counts : list Z) (t : node) (s d : Z) :
  len counts < 2 ^ 32 - 1 -> encoder_tree counts t ->
  (s, d) ∈ leaves_at t 0 ->
  SymbolLen (encoder_of counts t) s = Ret d.
Proof.
  intros Hlen Het Hin.
  pose proof (et_range _ _ Het s (leaves_at_elem _ _ _ _ Hin)) as Hr.
  apply (SymbolLen_slot counts t s (symbol.mk s 0 d)); auto; try lia.
  - unfold EOF. lia.
  - apply (tree_codebook_leaf counts t Het). exact Hin.
Qed.

(** [SymbolLen] on a slot that is no leaf of the tree is 0. *)
Lemma SymbolLen_no_leaf (counts : list Z) (t : node) (s : Z) :
  len counts < 2 ^ 32 - 1 -> encoder_tree counts t ->
  0 <= s <= len counts -> s ∉ leaves t ->
  SymbolLen (encoder_of counts t) s = Ret 0.
Proof.
  intros Hlen Het Hs Hnotin.
  apply (SymbolLen_slot counts t s symbol.zero); auto; try lia.
  - unfold EOF. lia.
  - apply (tree_codebook_other counts t Het).
    + unfold len in Hs. lia.
    + rewrite Z2Nat.id by lia. exact Hnotin.
Qed.

(** The depth of a leaf in the tree of the encoder is at least 1 and at
    most the number of counts. *)
Lemma leaf_depth_range (counts : list Z) (t : node) (s d : Z) :
  encoder_tree counts t -> Exists (fun v => v <> 0) counts ->
  (s, d) ∈ leaves_at t 0 -> 1 <= d <= len counts.
Proof.
  intros Het Hex Hin. split.
  - destruct (et_node _ _ Het Hex) as (w & c0 & c1 & ->).
    apply leaves_at_depth_node in Hin. lia.
  - apply leaves_at_depth in Hin. pose proof (et_height _ _ Het). lia.
Qed.

(** The leaf of a present symbol in the heap [NewEncoder] starts from,
    and its depth in the tree. *)
Lemma present_leaf (counts : list Z) (t : node) (k : nat) (v : Z) :
  len counts < 2 ^ 32 - 1 -> encoder_tree counts t ->
  counts !! k = Some v -> v <> 0 ->
  Leaf v (Z.of_nat k) ∈ initial_forest counts
  /\ exists d : nat,
       at_depth (Leaf v (Z.of_nat k)) t d
       /\ SymbolLen (encoder_of counts t) (Z.of_nat k) = Ret (Z.of_nat d).
Proof.
  intros Hlen Het Hk Hv.
  assert (Hin : Leaf v (Z.of_nat k) ∈ initial_forest counts).
  { unfold initial_forest. right.
    pose proof (count_leaves_elem counts 0 k v Hk Hv) as Hin.
    rewrite Nat.add_0_l in Hin. rewrite u32_small in Hin; [exact Hin|].
    apply lookup_lt_Some in Hk. unfold len in Hlen. lia. }
  split; [exact Hin|].
  destruct (huff_run_at_depth _ _ (et_run _ _ Het) _ Hin) as [d Hd].
  exists d. split; [exact Hd|].
  apply (SymbolLen_leaf counts t _ _ Hlen Het).
  apply (at_depth_leaves_at v (Z.of_nat k) t d Hd 0).
Qed.

(** The same for the end-of-input leaf. *)
Lemma eof_leaf (counts : list Z) (t : node) :
  len counts < 2 ^ 32 - 1 -> encoder_tree counts t ->
  Leaf 0 (len counts) ∈ initial_forest counts
  /\ exists d : nat,
       at_depth (Leaf 0 (len counts)) t d
       /\ SymbolLen (encoder_of counts t) EOF = Ret (Z.of_nat d).
Proof.
  intros Hlen Het.
  assert (Hin : Leaf 0 (len counts) ∈ initial_forest counts) by left.
  split; [exact Hin|].
  destruct (huff_run_at_depth _ _ (et_run _ _ Het) _ Hin) as [d Hd].
  exists d. split; [exact Hd|].
  rewrite SymbolLen_EOF. cbn [encoder_of Encoder.eof].
  apply (SymbolLen_leaf counts t _ _ Hlen Het).
  apply (at_depth_leaves_at 0 (len counts) t d Hd 0).
Qed.

(** * Further properties of the code *)

(** ** The heap of trees *)

(** X1: [heap.Push] of a node onto a heap of nodes that is in heap order
    (no node lighter than its parent, by [nodes.Less]) leaves a heap in
    heap order that holds the pushed node and the nodes it held. *)
Theorem heap_Push_keeps_heap_order (h : nodes) (x : node) :
  heap_ok h -> heap_ok (heap_Push h x) /\ heap_Push h x ≡ₚ x :: h.
Proof.
  intros Hok. split; [apply heap_Push_ok; exact Hok|apply heap_Push_perm].
Qed.

Lemma heap_Push_keeps_heap_order_witness :
  heap_ok (heap_Push [Leaf 1 0; Leaf 3 1] (Leaf 2 2))
  /\ heap_Push [Leaf 1 0; Leaf 3 1] (Leaf 2 2)
     ≡ₚ Leaf 2 2 :: [Leaf 1 0; Leaf 3 1].
Proof.
  apply (heap_Push_keeps_heap_order [Leaf 1 0; Leaf 3 1] (Leaf 2 2)).
  unfold heap_ok, heap_ok_n. intros k Hk. simpl in Hk.
  assert (k = 1%nat) as -> by lia. vm_compute. discriminate.
Defined.

(** X2: [heap.Pop] on a heap of nodes that is not empty and in heap
    order returns a node no heavier than any node that stays, and leaves
    the other nodes, in heap order. *)
Theorem heap_Pop_takes_lightest (h : nodes) :
  h <> [] -> heap_ok h ->
  exists (x : node) (h' : nodes),
    heap_Pop h = Ret (x, h')
    /\ h ≡ₚ x :: h'
    /\ heap_ok h'
    /\ forall y : node, y ∈ h' -> weight x <= weight y.
Proof.
  intros Hne Hok.
  destruct (heap_Pop_spec h Hne) as (x & h' & Hpop & Hperm & Hmin).
  destruct (Hmin Hok) as [Hok' Hle].
  exists x, h'. auto.
Qed.

Lemma heap_Pop_takes_lightest_witness :
  exists (x : node) (h' : nodes),
    heap_Pop [Leaf 1 0; Leaf 3 1; Leaf 2 2] = Ret (x, h')
    /\ [Leaf 1 0; Leaf 3 1; Leaf 2 2] ≡ₚ x :: h'
    /\ heap_ok h'
    /\ forall y : node, y ∈ h' -> weight x <= weight y.
Proof.
  apply (heap_Pop_takes_lightest [Leaf 1 0; Leaf 3 1; Leaf 2 2]).
  - discriminate.
  - unfold heap_ok, heap_ok_n. intros k Hk. simpl in Hk.
    assert (k = 1%nat \/ k = 2%nat) as [-> | ->] by lia;
      vm_compute; discriminate.
Defined.

(** ** The encoder *)

(** X3: for counts with a nonzero entry (and fewer than 2^32-1 entries)
    [NewEncoder] returns an encoder: its end-of-input slot is the number
    of counts, its codebook has one slot more than there are counts, and
    its sorted pointers point, without repetition, at exactly the slots
    of the symbols with a nonzero count and the end-of-input slot. *)
Theorem NewEncoder_returns (counts : list Z) :
  len counts < 2 ^ 32 - 1 -> Exists (fun v => v <> 0) counts ->
  exists e,
    NewEncoder counts = Ret e
    /\ Encoder.eof e = len counts
    /\ len (Encoder.m e) = len counts + 1
    /\ NoDup (Encoder.sym e)
    /\ forall p : nat,
         p ∈ Encoder.sym e <->
         (Z.of_nat p = len counts
          \/ exists v, counts !! p = Some v /\ v <> 0).
Proof.
  intros Hlen Hex.
  destruct (NewEncoder_explicit counts Hlen Hex) as (t & Het & Hnew).
  exists (encoder_of counts t). split; [exact Hnew|].
  split; [reflexivity|]. split; [apply encoder_of_len|].
  split; [apply sorted_ptrs_NoDup|].
  intros p. cbn [encoder_of Encoder.sym]. unfold sorted_ptrs.
  rewrite sptrs_spec. split.
  - intros (x & Hx & Hnz).
    destruct (tree_codebook_slot counts t Het p x Hx)
      as [(d & Hd & _)|[_ ->]]; [|contradiction].
    apply leaves_at_elem in Hd. apply (et_leaves _ _ Het) in Hd.
    destruct Hd as [Hd|(k & v & Hk & Hv & Hd)]; [left; exact Hd|].
    right. apply Nat2Z.inj in Hd. subst k. eauto.
  - intros Hp.
    assert (Hleaf : Z.of_nat p ∈ leaves t).
    { apply (et_leaves _ _ Het).
      destruct Hp as [Hp|(v & Hv & Hnz)]; [left; exact Hp|].
      right. exists p, v. auto. }
    destruct (leaves_elem_at t 0 _ Hleaf) as [d Hd].
    exists (symbol.mk (Z.of_nat p) 0 d). split.
    + pose proof (tree_codebook_leaf counts t Het _ _ Hd) as Hl.
      rewrite Nat2Z.id in Hl. exact Hl.
    + simpl. pose proof (leaf_depth_range counts t _ _ Het Hex Hd). lia.
Qed.

Lemma NewEncoder_returns_witness :
  exists e,
    NewEncoder [3; 0; 2] = Ret e
    /\ Encoder.eof e = len [3; 0; 2]
    /\ len (Encoder.m e) = len [3; 0; 2] + 1
    /\ NoDup (Encoder.sym e)
    /\ forall p : nat,
         p ∈ Encoder.sym e <->
         (Z.of_nat p = len [3; 0; 2]
          \/ exists v, [3; 0; 2] !! p = Some v /\ v <> 0).
Proof.
  apply (NewEncoder_returns [3; 0; 2]).
  - vm_compute. reflexivity.
  - constructor. lia.
Defined.

(** X4: in the encoder [NewEncoder] returns, [SymbolLen] of every symbol
    with a nonzero count, and of the end-of-input sentinel, is at least
    1 and at most the number of counts. *)
Theorem SymbolLen_of_present_symbols (counts : list Z) :
  len counts < 2 ^ 32 - 1 -> Exists (fun v => v <> 0) counts ->
  exists e,
    NewEncoder counts = Ret e
    /\ (exists l, SymbolLen e EOF = Ret l /\ 1 <= l <= len counts)
    /\ forall (s : nat) (v : Z),
         counts !! s = Some v -> v <> 0 ->
         exists l, SymbolLen e (Z.of_nat s) = Ret l /\ 1 <= l <= len counts.
Proof.
  intros Hlen Hex.
  destruct (NewEncoder_explicit counts Hlen Hex) as (t & Het & Hnew).
  exists (encoder_of counts t). split; [exact Hnew|].
  assert (Hany : forall s, s ∈ leaves t ->
            exists l, SymbolLen (encoder_of counts t) s = Ret l
                      /\ 1 <= l <= len counts).
  { intros s Hs. destruct (leaves_elem_at t 0 s Hs) as [d Hd].
    exists d. split; [apply (SymbolLen_leaf counts t s d Hlen Het Hd)|].
    apply (leaf_depth_range counts t s d Het Hex Hd). }
  split.
  - rewrite SymbolLen_EOF. apply Hany. apply (et_leaves _ _ Het). left.
    reflexivity.
  - intros s v Hs Hv. apply Hany. apply (et_leaves _ _ Het). right.
    exists s, v. auto.
Qed.

Lemma SymbolLen_of_present_symbols_witness :
  exists e,
    NewEncoder [3; 0; 2] = Ret e
    /\ (exists l, SymbolLen e EOF = Ret l /\ 1 <= l <= len [3; 0; 2])
    /\ forall (s : nat) (v : Z),
         [3; 0; 2] !! s = Some v -> v <> 0 ->
         exists l, SymbolLen e (Z.of_nat s) = Ret l /\ 1 <= l <= len [3; 0; 2].
Proof.
  apply (SymbolLen_of_present_symbols [3; 0; 2]).
  - vm_compute. reflexivity.
  - constructor. lia.
Defined.

(** X5: in the encoder [NewEncoder] returns, [SymbolLen] is 0 for every
    symbol whose count is zero and for every symbol value beyond the
    alphabet (other than the sentinel). *)
Theorem SymbolLen_of_absent_symbols (counts : list Z) :
  len counts < 2 ^ 32 - 1 -> Exists (fun v => v <> 0) counts ->
  exists e,
    NewEncoder counts = Ret e
    /\ (forall s : nat, counts !! s = Some 0 ->
          SymbolLen e (Z.of_nat s) = Ret 0)
    /\ (forall s : Z, len counts < s < EOF -> SymbolLen e s = Ret 0).
Proof.
  intros Hlen Hex.
  destruct (NewEncoder_explicit counts Hlen Hex) as (t & Het & Hnew).
  exists (encoder_of counts t). split; [exact Hnew|]. split.
  - intros s Hs. pose proof (lookup_lt_Some _ _ _ Hs) as Hlt.
    apply (SymbolLen_no_leaf counts t _ Hlen Het).
    + unfold len. lia.
    + intros Hin. apply (et_leaves _ _ Het) in Hin.
      destruct Hin as [Hin|(k & v & Hk & Hv & Hin)].
      * unfold len in Hin. lia.
      * apply Nat2Z.inj in Hin. subst k. congruence.
  - intros s Hs. unfold SymbolLen.
    destruct (Z.eqb_spec s EOF); [lia|].
    rewrite encoder_of_len.
    assert (Hpos : 0 <= len counts) by (unfold len; lia).
    rewrite u32_small by lia.
    destruct (Z.leb_spec (len counts + 1) s); [reflexivity|lia].
Qed.

Lemma SymbolLen_of_absent_symbols_witness :
  exists e,
    NewEncoder [3; 0; 2] = Ret e
    /\ (forall s : nat, [3; 0; 2] !! s = Some 0 ->
          SymbolLen e (Z.of_nat s) = Ret 0)
    /\ (forall s : Z, len [3; 0; 2] < s < EOF -> SymbolLen e s = Ret 0).
Proof.
  apply (SymbolLen_of_absent_symbols [3; 0; 2]).
  - vm_compute. reflexivity.
  - constructor. lia.
Defined.

(** X6: [SymbolLen] never indexes the codebook out of range: on every
    encoder and every symbol value it returns a length. *)
Theorem SymbolLen_never_panics (e : Encoder.t) (s : Z) :
  0 <= s -> 0 <= Encoder.eof e -> exists l, SymbolLen e s = Ret l.
Proof.
  intros Hs He. unfold SymbolLen.
  set (s' := if s =? EOF then Encoder.eof e else s).
  assert (Hs' : 0 <= s') by (subst s'; destruct (s =? EOF); lia).
  destruct (Z.leb_spec (u32 (len (Encoder.m e))) s') as [|Hlt]; [eauto|].
  assert (Hle : u32 (len (Encoder.m e)) <= len (Encoder.m e)).
  { unfold u32. apply Z.mod_le; [unfold len; lia|lia]. }
  destruct (index_in_range (Encoder.m e) s') as (x & Hx & _); [lia|].
  rewrite Hx. cbn [mbind res_bind]. eauto.
Qed.

Lemma SymbolLen_never_panics_witness :
  exists l, SymbolLen (Encoder.mk 7 [symbol.mk 0 0 1] [0%nat] [0; 1]) 9 = Ret l.
Proof.
  apply (SymbolLen_never_panics (Encoder.mk 7 [symbol.mk 0 0 1] [0%nat] [0; 1]) 9).
  - lia.
  - simpl. lia.
Defined.

(** X7: when no count is negative and the counts add up to less than
    2^63, a symbol with the greater count never gets the longer code:
    for counts [f1 > f2 > 0] of the symbols [s1] and [s2], [SymbolLen]
    of [s1] is at most [SymbolLen] of [s2]. *)
Theorem heavier_symbol_not_longer (counts : list Z) (s1 s2 : nat) (f1 f2 : Z) :
  len counts < 2 ^ 32 - 1 ->
  Forall (fun v => 0 <= v) counts -> sum_counts counts < 2 ^ 63 ->
  counts !! s1 = Some f1 -> counts !! s2 = Some f2 ->
  0 < f2 -> f2 < f1 ->
  exists e l1 l2,
    NewEncoder counts = Ret e
    /\ SymbolLen e (Z.of_nat s1) = Ret l1
    /\ SymbolLen e (Z.of_nat s2) = Ret l2
    /\ l1 <= l2.
Proof.
  intros Hlen Hnn Hsum H1 H2 Hf2 Hf.
  assert (Hex : Exists (fun v => v <> 0) counts).
  { apply Exists_exists. exists f1. split; [|lia].
    eapply list_elem_of_lookup_2; eauto. }
  destruct (NewEncoder_explicit counts Hlen Hex) as (t & Het & Hnew).
  destruct (present_leaf counts t s1 f1 Hlen Het H1 ltac:(lia))
    as (Hin1 & d1 & Hd1 & Hl1).
  destruct (present_leaf counts t s2 f2 Hlen Het H2 ltac:(lia))
    as (Hin2 & d2 & Hd2 & Hl2).
  exists (encoder_of counts t), (Z.of_nat d1), (Z.of_nat d2).
  split; [exact Hnew|]. split; [exact Hl1|]. split; [exact Hl2|].
  assert (Hwf : wf_forest (initial_forest counts))
    by (apply initial_forest_wf; auto; lia).
  pose proof (huff_run_depth_order _ _ (et_run _ _ Het) Hwf 0 0
                (Leaf f2 (Z.of_nat s2)) (Leaf f1 (Z.of_nat s1)) d2 d1
                Hin2 Hin1 ltac:(lia)) as Hord.
  assert (d1 <= d2 + 0)%nat; [|lia].
  apply Hord; auto.
  - intros z Hz. destruct Hwf as [Hw _]. rewrite Forall_forall in Hw.
    apply Hw. exact Hz.
  - simpl. lia.
Qed.

Lemma heavier_symbol_not_longer_witness :
  exists e l1 l2,
    NewEncoder [5; 1; 2] = Ret e
    /\ SymbolLen e (Z.of_nat 0) = Ret l1
    /\ SymbolLen e (Z.of_nat 2) = Ret l2
    /\ l1 <= l2.
Proof.
  apply (heavier_symbol_not_longer [5; 1; 2] 0 2 5 2).
  - vm_compute. reflexivity.
  - repeat constructor; lia.
  - vm_compute. reflexivity.
  - reflexivity.
  - reflexivity.
  - lia.
  - lia.
Defined.

(** X8: when no count is negative and the counts add up to less than
    2^63, no symbol with a nonzero count gets a longer code than the
    end-of-input sentinel. *)
Theorem end_of_input_code_is_longest (counts : list Z) (s : nat) (f : Z) :
  len counts < 2 ^ 32 - 1 ->
  Forall (fun v => 0 <= v) counts -> sum_counts counts < 2 ^ 63 ->
  counts !! s = Some f -> f <> 0 ->
  exists e l leof,
    NewEncoder counts = Ret e
    /\ SymbolLen e (Z.of_nat s) = Ret l
    /\ SymbolLen e EOF = Ret leof
    /\ l <= leof.
Proof.
  intros Hlen Hnn Hsum Hs Hf.
  assert (Hfpos : 0 < f).
  { rewrite Forall_forall in Hnn.
    pose proof (Hnn f (list_elem_of_lookup_2 _ _ _ Hs)). lia. }
  assert (Hex : Exists (fun v => v <> 0) counts).
  { apply Exists_exists. exists f. split; [|lia].
    eapply list_elem_of_lookup_2; eauto. }
  destruct (NewEncoder_explicit counts Hlen Hex) as (t & Het & Hnew).
  destruct (present_leaf counts t s f Hlen Het Hs Hf)
    as (Hin1 & d1 & Hd1 & Hl1).
  destruct (eof_leaf counts t Hlen Het) as (Hin2 & d2 & Hd2 & Hl2).
  exists (encoder_of counts t), (Z.of_nat d1), (Z.of_nat d2).
  split; [exact Hnew|]. split; [exact Hl1|]. split; [exact Hl2|].
  assert (Hwf : wf_forest (initial_forest counts))
    by (apply initial_forest_wf; auto; lia).
  pose proof (huff_run_depth_order _ _ (et_run _ _ Het) Hwf 0 0
                (Leaf 0 (len counts)) (Leaf f (Z.of_nat s)) d2 d1
                Hin2 Hin1 ltac:(lia)) as Hord.
  assert (d1 <= d2 + 0)%nat; [|lia].
  apply Hord; auto.
  - intros z Hz. destruct Hwf as [Hw _]. rewrite Forall_forall in Hw.
    apply Hw. exact Hz.
  - simpl. lia.
Qed.

Lemma end_of_input_code_is_longest_witness :
  exists e l leof,
    NewEncoder [5; 1; 2] = Ret e
    /\ SymbolLen e (Z.of_nat 0) = Ret l
    /\ SymbolLen e EOF = Ret leof
    /\ l <= leof.
Proof.
  apply (end_of_input_code_is_longest [5; 1; 2] 0 5).
  - vm_compute. reflexivity.
  - repeat constructor; lia.
  - vm_compute. reflexivity.
  - reflexivity.
  - lia.
Defined.

(** ** Codes of the encoder *)

Lemma code_lengths_ext (c c' : codebook) :
  map symbol.length c = map symbol.length c' -> code_lengths c = code_lengths c'.
Proof.
  revert c'. induction c as [|x c IH]; intros [|y c'] Hmap;
    try discriminate; [reflexivity|].
  simpl in Hmap. injection Hmap as Hxy Hrest.
  specialize (IH c' Hrest). unfold code_lengths in *.
  rewrite !filter_cons.
  destruct (decide (symbol.length x <> 0)), (decide (symbol.length y <> 0));
    simpl; try congruence; exfalso; lia.
Qed.

Lemma encoder_of_depths (counts : list Z) (t : node) :
  encoder_tree counts t ->
  Forall (fun x => symbol.length x <= 32) (Encoder.m (encoder_of counts t)) ->
  Forall (fun l => snd l <= 32) (leaves_at t 0).
Proof.
  intros Het H32. apply Forall_forall. intros [s d] Hin. simpl.
  pose proof (tree_codebook_leaf counts t Het s d Hin) as Hl.
  destruct (encoder_of_slot counts t _ _ Hl) as (x & Hx & Hxl & _).
  rewrite Forall_forall in H32.
  pose proof (H32 x (list_elem_of_lookup_2 _ _ _ Hx)) as Hle.
  simpl in Hxl. lia.
Qed.

Lemma tree_codebook_lengths_32 (counts : list Z) (t : node) :
  encoder_tree counts t ->
  Forall (fun x => symbol.length x <= 32) (Encoder.m (encoder_of counts t)) ->
  Forall (fun x => 0 <= symbol.length x <= 32)
         (tree_codebook t (S (List.length counts))).
Proof.
  intros Het H32. apply Forall_forall. intros x Hx.
  pose proof (tree_codebook_lengths counts t Het) as Hl0.
  rewrite Forall_forall in Hl0. pose proof (Hl0 x Hx) as Hl.
  apply list_elem_of_lookup_1 in Hx as [k Hk].
  destruct (encoder_of_slot counts t _ _ Hk) as (x' & Hx' & Hxl & _).
  rewrite Forall_forall in H32.
  pose proof (H32 x' (list_elem_of_lookup_2 _ _ _ Hx')). lia.
Qed.

(** In the codebook [calculateCodes] leaves, no code is a prefix of
    another, when the lengths fit 32 bits and Kraft's bound. *)
Lemma set_codes_prefix_free (c : codebook) (i j : nat) (x y : symbol.t) :
  Forall (fun x => 0 <= symbol.length x <= 32) c ->
  kraft (code_lengths c) <= 2 ^ 32 ->
  i <> j ->
  set_codes (sorted_ptrs c) (canon 0 (-1) (sorted_lengths c)) c !! i = Some x ->
  set_codes (sorted_ptrs c) (canon 0 (-1) (sorted_lengths c)) c !! j = Some y ->
  nonzero_length x -> nonzero_length y ->
  ~ code_bits x `prefix_of` code_bits y.
Proof.
  intros Hlen HK Hij Hi Hj Hx Hy.
  pose proof (sorted_lengths_sorted c) as Hs.
  pose proof (sorted_lengths_kraft_ok c Hlen HK) as Hok.
  destruct (coded_slot c i x Hi Hx) as (ki & ci & Hki & Hli & Hci & Hxc).
  destruct (coded_slot c j y Hj Hy) as (kj & cj & Hkj & Hlj & Hcj & Hyc).
  unfold code_bits. rewrite Hxc, Hyc.
  destruct (Nat.lt_total ki kj) as [Hlt|[Heq|Hlt]].
  - destruct (canon_gap _ ki kj _ _ ci cj Hs Hok Hlt Hli Hlj Hci Hcj)
      as (H1 & H2 & H3 & H4 & H5).
    apply (codes_not_prefix _ _ ci cj); auto.
  - subst kj. rewrite Hki in Hkj. injection Hkj as ->. contradiction.
  - destruct (canon_gap _ kj ki _ _ cj ci Hs Hok Hlt Hlj Hli Hcj Hci)
      as (H1 & H2 & H3 & H4 & H5).
    apply (codes_not_prefix _ _ cj ci); auto.
Qed.

(** X9: the code lengths [NewEncoder] assigns meet Kraft's bound with
    equality: when no code is longer than 32 bits, the sum of
    2^(32 - length) over the slots that carry a code is 2^32. *)
Theorem NewEncoder_kraft_equality (counts : list Z) :
  len counts < 2 ^ 32 - 1 -> Exists (fun v => v <> 0) counts ->
  exists e,
    NewEncoder counts = Ret e
    /\ (Forall (fun x => symbol.length x <= 32) (Encoder.m e) ->
        kraft (code_lengths (Encoder.m e)) = 2 ^ 32).
Proof.
  intros Hlen Hex.
  destruct (NewEncoder_explicit counts Hlen Hex) as (t & Het & Hnew).
  exists (encoder_of counts t). split; [exact Hnew|]. intros H32.
  rewrite (code_lengths_ext _ (tree_codebook t (S (List.length counts)))).
  - apply (tree_codebook_kraft counts t Het Hex).
    apply (encoder_of_depths counts t Het H32).
  - apply set_codes_lengths.
Qed.

Lemma NewEncoder_kraft_equality_witness :
  exists e,
    NewEncoder [3; 0; 2] = Ret e
    /\ (Forall (fun x => symbol.length x <= 32) (Encoder.m e) ->
        kraft (code_lengths (Encoder.m e)) = 2 ^ 32).
Proof.
  apply (NewEncoder_kraft_equality [3; 0; 2]).
  - vm_compute. reflexivity.
  - constructor. lia.
Defined.

(** X10: the codes [NewEncoder] assigns are prefix-free when no code is
    longer than 32 bits: of two distinct slots that carry a code,
    neither code, as a bit string of its length, is a prefix of the
    other's. *)
Theorem NewEncoder_codes_prefix_free (counts : list Z) :
  len counts < 2 ^ 32 - 1 -> Exists (fun v => v <> 0) counts ->
  exists e,
    NewEncoder counts = Ret e
    /\ (Forall (fun x => symbol.length x <= 32) (Encoder.m e) ->
        forall (i j : nat) (x y : symbol.t),
          i <> j ->
          Encoder.m e !! i = Some x -> Encoder.m e !! j = Some y ->
          nonzero_length x -> nonzero_length y ->
          ~ code_bits x `prefix_of` code_bits y).
Proof.
  intros Hlen Hex.
  destruct (NewEncoder_explicit counts Hlen Hex) as (t & Het & Hnew).
  exists (encoder_of counts t). split; [exact Hnew|].
  intros H32 i j x y Hij Hi Hj Hx Hy.
  apply (set_codes_prefix_free (tree_codebook t (S (List.length counts)))
           i j x y); auto.
  - apply (tree_codebook_lengths_32 counts t Het H32).
  - rewrite (tree_codebook_kraft counts t Het Hex); [lia|].
    apply (encoder_of_depths counts t Het H32).
Qed.

Lemma NewEncoder_codes_prefix_free_witness :
  exists e,
    NewEncoder [3; 0; 2] = Ret e
    /\ (Forall (fun x => symbol.length x <= 32) (Encoder.m e) ->
        forall (i j : nat) (x y : symbol.t),
          i <> j ->
          Encoder.m e !! i = Some x -> Encoder.m e !! j = Some y ->
          nonzero_length x -> nonzero_length y ->
          ~ code_bits x `prefix_of` code_bits y).
Proof.
  apply (NewEncoder_codes_prefix_free [3; 0; 2]).
  - vm_compute. reflexivity.
  - constructor. lia.
Defined.

(** ** What [calculateCodes] returns *)

Lemma StronglySorted_lookup {A : Type} (R : A -> A -> Prop) (l : list A)
    (j k : nat) (a b : A) :
  StronglySorted R l -> (j < k)%nat ->
  l !! j = Some a -> l !! k = Some b -> R a b.
Proof.
  intros Hs. revert j k. induction Hs as [|x l Hs IH Hall];
    intros j k Hjk Hj Hk; [discriminate|].
  destruct k as [|k]; [lia|]. simpl in Hk.
  destruct j as [|j]; simpl in Hj.
  - injection Hj as <-. rewrite Forall_forall in Hall. apply Hall.
    eapply list_elem_of_lookup_2; eauto.
  - apply (IH j k); auto. lia.
Qed.

(** The slot a sorted pointer points to, before and after the codes are
    written. *)
Lemma sorted_slot (c : codebook) (j p : nat) (x : symbol.t) :
  sorted_ptrs c !! j = Some p ->
  set_codes (sorted_ptrs c) (canon 0 (-1) (sorted_lengths c)) c !! p = Some x ->
  exists x0,
    c !! p = Some x0 /\ nonzero_length x0
    /\ sorted_syms c !! j = Some x0
    /\ sorted_lengths c !! j = Some (symbol.length x)
    /\ canon 0 (-1) (sorted_lengths c) !! j = Some (symbol.code x)
    /\ symbol.length x = symbol.length x0 /\ symbol.s x = symbol.s x0.
Proof.
  intros Hj Hx.
  assert (Hin : p ∈ sorted_ptrs c) by (eapply list_elem_of_lookup_2; eauto).
  apply sptrs_spec in Hin as (x0 & Hx0 & Hnz).
  assert (Hsym : sorted_syms c !! j = Some x0).
  { unfold sorted_syms. rewrite list_lookup_fmap, Hj. simpl.
    rewrite Hx0. reflexivity. }
  assert (Hl : sorted_lengths c !! j = Some (symbol.length x0)).
  { unfold sorted_lengths. rewrite list_lookup_fmap, Hsym. reflexivity. }
  destruct (lookup_lt_is_Some_2 (canon 0 (-1) (sorted_lengths c)) j)
    as [cd Hcd].
  { rewrite canon_length. eapply lookup_lt_Some; eauto. }
  rewrite (set_codes_lookup _ _ c j p cd x0 (sorted_ptrs_NoDup c) Hj Hcd Hx0)
    in Hx.
  injection Hx as <-. exists x0. simpl. auto 10.
Qed.

(** X11: on a codebook with a slot of nonzero length (and lengths that
    are not negative), [calculateCodes] returns pointers that point,
    without repetition, at exactly the slots of nonzero length, in
    canonical order: by length first, then by symbol value. *)
Theorem calculateCodes_pointers (c : codebook) :
  Exists nonzero_length c ->
  Forall (fun x => 0 <= symbol.length x < 2 ^ 40) c ->
  exists c' sptrs numl,
    calculateCodes c = Ret (c', sptrs, numl)
    /\ NoDup sptrs
    /\ (forall p : nat,
          p ∈ sptrs <-> exists x, c !! p = Some x /\ symbol.length x <> 0)
    /\ forall (j k p q : nat) (x y : symbol.t),
         (j < k)%nat -> sptrs !! j = Some p -> sptrs !! k = Some q ->
         c' !! p = Some x -> c' !! q = Some y ->
         canonical_le x y.
Proof.
  intros Hex Hlen. do 3 eexists.
  split; [apply calculateCodes_spec; auto|].
  split; [apply sorted_ptrs_NoDup|].
  split; [intros p; apply sptrs_spec|].
  intros j k p q x y Hjk Hj Hk Hx Hy.
  destruct (sorted_slot c j p x Hj Hx)
    as (x0 & _ & _ & Hsx & _ & _ & Hxl & Hxs).
  destruct (sorted_slot c k q y Hk Hy)
    as (y0 & _ & _ & Hsy & _ & _ & Hyl & Hys).
  pose proof (StronglySorted_lookup canonical_le _ j k x0 y0
                (sorted_syms_sorted c) Hjk Hsx Hsy) as Hle.
  unfold canonical_le in *. rewrite Hxl, Hyl, Hxs, Hys. exact Hle.
Qed.

Lemma calculateCodes_pointers_witness :
  exists c' sptrs numl,
    calculateCodes [symbol.mk 0 0 2; symbol.mk 1 0 0; symbol.mk 2 0 1]
    = Ret (c', sptrs, numl)
    /\ NoDup sptrs
    /\ (forall p : nat,
          p ∈ sptrs <->
          exists x, [symbol.mk 0 0 2; symbol.mk 1 0 0; symbol.mk 2 0 1] !! p
                    = Some x /\ symbol.length x <> 0)
    /\ forall (j k p q : nat) (x y : symbol.t),
         (j < k)%nat -> sptrs !! j = Some p -> sptrs !! k = Some q ->
         c' !! p = Some x -> c' !! q = Some y ->
         canonical_le x y.
Proof.
  apply (calculateCodes_pointers
           [symbol.mk 0 0 2; symbol.mk 1 0 0; symbol.mk 2 0 1]).
  - constructor. unfold nonzero_length. simpl. lia.
  - repeat constructor; simpl; lia.
Defined.

(** X12: [calculateCodes] writes codes only: the codebook keeps its
    number of slots, every slot keeps its symbol value and its length,
    and a slot of length zero is left as it was. *)
Theorem calculateCodes_writes_codes_only (c : codebook) :
  Exists nonzero_length c ->
  Forall (fun x => 0 <= symbol.length x < 2 ^ 40) c ->
  exists c' sptrs numl,
    calculateCodes c = Ret (c', sptrs, numl)
    /\ len c' = len c
    /\ map symbol.s c' = map symbol.s c
    /\ map symbol.length c' = map symbol.length c
    /\ forall (p : nat) (x : symbol.t),
         c !! p = Some x -> symbol.length x = 0 -> c' !! p = Some x.
Proof.
  intros Hex Hlen. do 3 eexists.
  split; [apply calculateCodes_spec; auto|].
  split; [unfold len; rewrite set_codes_length; reflexivity|].
  split; [apply set_codes_s|]. split; [apply set_codes_lengths|].
  intros p x Hp Hx. rewrite set_codes_notin; [exact Hp|].
  intros Hin. apply sptrs_spec in Hin as (x' & Hx' & Hnz). congruence.
Qed.

Lemma calculateCodes_writes_codes_only_witness :
  exists c' sptrs numl,
    calculateCodes [symbol.mk 0 0 2; symbol.mk 1 7 0; symbol.mk 2 0 1]
    = Ret (c', sptrs, numl)
    /\ len c' = len [symbol.mk 0 0 2; symbol.mk 1 7 0; symbol.mk 2 0 1]
    /\ map symbol.s c'
       = map symbol.s [symbol.mk 0 0 2; symbol.mk 1 7 0; symbol.mk 2 0 1]
    /\ map symbol.length c'
       = map symbol.length [symbol.mk 0 0 2; symbol.mk 1 7 0; symbol.mk 2 0 1]
    /\ forall (p : nat) (x : symbol.t),
         [symbol.mk 0 0 2; symbol.mk 1 7 0; symbol.mk 2 0 1] !! p = Some x ->
         symbol.length x = 0 -> c' !! p = Some x.
Proof.
  apply (calculateCodes_writes_codes_only
           [symbol.mk 0 0 2; symbol.mk 1 7 0; symbol.mk 2 0 1]).
  - constructor. unfold nonzero_length. simpl. lia.
  - repeat constructor; simpl; lia.
Defined.

Lemma cnt_eq_perm (i : Z) (ls ls' : list Z) :
  ls ≡ₚ ls' -> cnt_eq i ls = cnt_eq i ls'.
Proof.
  intros Hp. unfold cnt_eq, len. rewrite Hp. reflexivity.
Qed.

Lemma sorted_lengths_nonempty (c : codebook) :
  Exists nonzero_length c -> exists m, last (sorted_lengths c) = Some m.
Proof.
  intros Hex. destruct (last (sorted_lengths c)) as [m|] eqn:E; [eauto|].
  exfalso. apply last_None in E.
  apply last_sptrs_in_range in Hex. apply Hex. apply last_None.
  fold (sorted_ptrs c). unfold sorted_lengths, sorted_syms in E.
  destruct (sorted_ptrs c); [reflexivity|discriminate].
Qed.

(** X13: the histogram [calculateCodes] returns has one entry per
    length from 0 to the greatest length of the codebook, and entry [l]
    is the number of slots of nonzero length whose length is [l]. *)
Theorem calculateCodes_histogram (c : codebook) :
  Exists nonzero_length c ->
  Forall (fun x => 0 <= symbol.length x < 2 ^ 40) c ->
  len c < 2 ^ 32 ->
  exists c' sptrs numl M,
    calculateCodes c = Ret (c', sptrs, numl)
    /\ (exists x, x ∈ c /\ symbol.length x = M)
    /\ Forall (fun x => symbol.length x <= M) c
    /\ len numl = M + 1
    /\ forall l, 0 <= l <= M ->
         numl !! Z.to_nat l = Some (cnt_eq l (code_lengths c)).
Proof.
  intros Hex Hlen Hc. do 3 eexists. exists (max_length c).
  split; [apply calculateCodes_spec; auto|].
  destruct (sorted_lengths_nonempty c Hex) as [m Hm].
  assert (HM : max_length c = m) by (unfold max_length; rewrite Hm; reflexivity).
  assert (Hmx : exists x, x ∈ c /\ symbol.length x = m).
  { apply last_Some_elem_of in Hm.
    apply sorted_lengths_elem in Hm as (x & Hx & Hxl & _). eauto. }
  assert (Hm0 : 0 <= m).
  { destruct Hmx as (x & Hx & <-). rewrite Forall_forall in Hlen.
    apply Hlen in Hx. lia. }
  pose proof (sorted_lengths_le_max c) as Hmax. rewrite HM in Hmax.
  rewrite Forall_forall in Hmax.
  assert (Hnn : forall l, l ∈ sorted_lengths c -> 0 <= l).
  { intros l Hl. apply sorted_lengths_elem in Hl as (x & Hx & <- & _).
    rewrite Forall_forall in Hlen. apply Hlen in Hx. lia. }
  rewrite HM. split; [exact Hmx|]. split; [|split].
  - apply Forall_forall. intros x Hx.
    destruct (Z.eq_dec (symbol.length x) 0) as [->|Hnz]; [exact Hm0|].
    apply Hmax. rewrite (sorted_lengths_perm c). unfold code_lengths.
    apply list_elem_of_fmap. exists x. split; [reflexivity|].
    apply list_elem_of_filter. auto.
  - unfold len. rewrite tally_length, length_replicate. lia.
  - intros l Hl.
    rewrite (tally_spec (sorted_lengths c) _ (Z.to_nat l) 0).
    + rewrite Z2Nat.id by lia. simpl.
      rewrite (cnt_eq_perm l _ _ (sorted_lengths_perm c)). reflexivity.
    + apply Forall_forall. intros l' Hl'.
      pose proof (Hmax l' Hl'). pose proof (Hnn l' Hl').
      unfold len. rewrite length_replicate. lia.
    + apply Forall_replicate. pose proof (sorted_lengths_len c). lia.
    + apply lookup_replicate_2. lia.
Qed.

Lemma calculateCodes_histogram_witness :
  exists c' sptrs numl M,
    calculateCodes [symbol.mk 0 0 2; symbol.mk 1 0 0; symbol.mk 2 0 1]
    = Ret (c', sptrs, numl)
    /\ (exists x, x ∈ [symbol.mk 0 0 2; symbol.mk 1 0 0; symbol.mk 2 0 1]
                  /\ symbol.length x = M)
    /\ Forall (fun x => symbol.length x <= M)
              [symbol.mk 0 0 2; symbol.mk 1 0 0; symbol.mk 2 0 1]
    /\ len numl = M + 1
    /\ forall l, 0 <= l <= M ->
         numl !! Z.to_nat l
         = Some (cnt_eq l (code_lengths
                   [symbol.mk 0 0 2; symbol.mk 1 0 0; symbol.mk 2 0 1])).
Proof.
  apply (calculateCodes_histogram
           [symbol.mk 0 0 2; symbol.mk 1 0 0; symbol.mk 2 0 1]).
  - constructor. unfold nonzero_length. simpl. lia.
  - repeat constructor; simpl; lia.
  - vm_compute. reflexivity.
Defined.

(** X14: when the lengths are at most 32 and meet Kraft's bound, the
    codes [calculateCodes] writes grow along the sorted pointers: each
    code fits its length, and a later code is greater than an earlier
    code padded with zero bits to the later length, by at least one
    step of the earlier length. *)
Theorem canonical_codes_increase (c : codebook) :
  Exists nonzero_length c ->
  Forall (fun x => 0 <= symbol.length x <= 32) c ->
  kraft (code_lengths c) <= 2 ^ 32 ->
  exists c' sptrs numl,
    calculateCodes c = Ret (c', sptrs, numl)
    /\ forall (j k p q : nat) (x y : symbol.t),
         (j < k)%nat -> sptrs !! j = Some p -> sptrs !! k = Some q ->
         c' !! p = Some x -> c' !! q = Some y ->
         1 <= symbol.length x <= symbol.length y
         /\ 0 <= symbol.code x < 2 ^ symbol.length x
         /\ 0 <= symbol.code y < 2 ^ symbol.length y
         /\ (symbol.code x + 1) * 2 ^ (symbol.length y - symbol.length x)
            <= symbol.code y.
Proof.
  intros Hex Hlen HK. do 3 eexists. split.
  { apply calculateCodes_spec; auto.
    eapply Forall_impl; [exact Hlen|]. simpl. lia. }
  intros j k p q x y Hjk Hj Hk Hx Hy.
  destruct (sorted_slot c j p x Hj Hx) as (_ & _ & _ & _ & Hlx & Hcx & _).
  destruct (sorted_slot c k q y Hk Hy) as (_ & _ & _ & _ & Hly & Hcy & _).
  destruct (canon_gap _ j k _ _ _ _ (sorted_lengths_sorted c)
              (sorted_lengths_kraft_ok c Hlen HK) Hjk Hlx Hly Hcx Hcy)
    as (H1 & H2 & H3 & H4 & H5).
  auto.
Qed.

Lemma canonical_codes_increase_witness :
  exists c' sptrs numl,
    calculateCodes [symbol.mk 0 0 2; symbol.mk 1 0 0; symbol.mk 2 0 1]
    = Ret (c', sptrs, numl)
    /\ forall (j k p q : nat) (x y : symbol.t),
         (j < k)%nat -> sptrs !! j = Some p -> sptrs !! k = Some q ->
         c' !! p = Some x -> c' !! q = Some y ->
         1 <= symbol.length x <= symbol.length y
         /\ 0 <= symbol.code x < 2 ^ symbol.length x
         /\ 0 <= symbol.code y < 2 ^ symbol.length y
         /\ (symbol.code x + 1) * 2 ^ (symbol.length y - symbol.length x)
            <= symbol.code y.
Proof.
  apply (canonical_codes_increase
           [symbol.mk 0 0 2; symbol.mk 1 0 0; symbol.mk 2 0 1]).
  - constructor. unfold nonzero_length. simpl. lia.
  - repeat constructor; simpl; lia.
  - vm_compute. discriminate.
Defined.

(** X15: [calculateCodes] panics on a codebook that holds a negative
    length (a length of 2^63 or more on the wire): the slot of least
    length is sorted first, and the histogram is indexed with its
    length. *)
Theorem calculateCodes_negative_length_panics (c : codebook) :
  Exists (fun x => symbol.length x < 0) c -> calculateCodes c = Panic.
Proof.
  intros Hex. apply Exists_exists in Hex as (x & Hx & Hneg).
  apply list_elem_of_lookup_1 in Hx as [i Hi].
  assert (Hin : i ∈ sorted_ptrs c).
  { apply sptrs_spec. exists x. split; [exact Hi|lia]. }
  assert (Hxs : x ∈ sorted_syms c).
  { unfold sorted_syms. apply list_elem_of_fmap. exists i.
    rewrite Hi. auto. }
  pose proof (sorted_syms_sorted c) as Hs.
  pose proof (sorted_syms_points c) as Hpts.
  unfold calculateCodes. fold (sorted_ptrs c).
  destruct (sorted_ptrs c) as [|p0 rest] eqn:Eptrs; [inversion Hin|].
  destruct (sorted_syms c) as [|x0 xs] eqn:Esyms; [inversion Hpts|].
  apply Forall2_cons in Hpts as [Hp0 _].
  assert (Hx0 : symbol.length x0 < 0).
  { apply StronglySorted_inv in Hs as [_ Hall].
    apply elem_of_cons in Hxs as [<-|Hxs]; [exact Hneg|].
    rewrite Forall_forall in Hall.
    pose proof (canonical_le_length _ _ (Hall x Hxs)). lia. }
  destruct (last (p0 :: rest)) as [p|]; [|reflexivity].
  destruct (c !! p) as [xl|]; [|reflexivity].
  destruct (make 0 4 (int64 (symbol.length xl + 1))) as [numl|];
    [|reflexivity].
  cbn [mbind res_bind assign]. rewrite Hp0.
  rewrite index_out_of_range by (left; lia). reflexivity.
Qed.

Lemma calculateCodes_negative_length_panics_witness :
  calculateCodes [symbol.mk 0 0 1; symbol.mk 1 0 (-1)] = Panic.
Proof.
  apply (calculateCodes_negative_length_panics
           [symbol.mk 0 0 1; symbol.mk 1 0 (-1)]).
  right. left. simpl. lia.
Defined.

(** ** The codebook on the wire, and back *)

Lemma unmarshal_marshal_tail (c : codebook) (tail : list Z) :
  len c < 2 ^ 32 ->
  Forall (fun x => 0 <= symbol.length x < 2 ^ 35) c ->
  exists bytes,
    MarshalBinary c = Ret bytes
    /\ UnmarshalBinary (bytes ++ tail) = Ret (restore 0 c, None).
Proof.
  intros Hlen Hl. assert (Hpos : 0 <= len c) by (unfold len; lia).
  destruct (unmarshal_marshal_loop c [] [] tail Hl) as (bytes & Hm & Hu).
  destruct (PutUvarint_read (len c) (bytes ++ tail) ltac:(lia))
    as (bc & Hput & Hread).
  exists (bc ++ bytes). unfold MarshalBinary.
  rewrite u64_small by lia. rewrite Hput. cbn [mbind res_bind].
  rewrite Hm. cbn [mbind res_bind]. split; [reflexivity|].
  unfold UnmarshalBinary. rewrite <- app_assoc. rewrite Hread.
  unfold make.
  destruct (Z.leb_spec 0 (len c)); [|lia].
  destruct (Z.leb_spec (len c * 16) maxAlloc) as [|Hbig];
    [|unfold maxAlloc in Hbig; lia].
  cbn [andb mbind res_bind mret res_ret].
  rewrite u32_small by lia.
  replace (Z.to_nat (len c)) with (List.length c) by (unfold len; lia).
  cbn [app] in Hu.
  change (len (@nil symbol.t)) with 0 in Hu.
  rewrite Hu. reflexivity.
Qed.

(** X16: [UnmarshalBinary] reads back what [MarshalBinary] wrote,
    whatever bytes follow: for a codebook of fewer than 2^32 slots whose
    lengths are below 2^35, the codebook read has the same number of
    slots, and slot [k] holds symbol value [k], code 0 and the length
    of slot [k]. *)
Theorem UnmarshalBinary_after_MarshalBinary (c : codebook) (tail : list Z) :
  len c < 2 ^ 32 ->
  Forall (fun x => 0 <= symbol.length x < 2 ^ 35) c ->
  exists bytes c',
    MarshalBinary c = Ret bytes
    /\ UnmarshalBinary (bytes ++ tail) = Ret (c', None)
    /\ len c' = len c
    /\ forall (k : nat) (x : symbol.t),
         c !! k = Some x ->
         c' !! k = Some (symbol.mk (Z.of_nat k) 0 (symbol.length x)).
Proof.
  intros Hlen Hl.
  destruct (unmarshal_marshal_tail c tail Hlen Hl) as (bytes & Hm & Hu).
  exists bytes, (restore 0 c). split; [exact Hm|]. split; [exact Hu|].
  split; [unfold len; rewrite restore_length; reflexivity|].
  intros k x Hk. rewrite (restore_lookup c 0 k x Hk). reflexivity.
Qed.

Lemma UnmarshalBinary_after_MarshalBinary_witness :
  exists bytes c',
    MarshalBinary [symbol.mk 0 1 2; symbol.mk 1 0 0; symbol.mk 2 0 300]
    = Ret bytes
    /\ UnmarshalBinary (bytes ++ [9; 9]) = Ret (c', None)
    /\ len c' = len [symbol.mk 0 1 2; symbol.mk 1 0 0; symbol.mk 2 0 300]
    /\ forall (k : nat) (x : symbol.t),
         [symbol.mk 0 1 2; symbol.mk 1 0 0; symbol.mk 2 0 300] !! k = Some x ->
         c' !! k = Some (symbol.mk (Z.of_nat k) 0 (symbol.length x)).
Proof.
  apply (UnmarshalBinary_after_MarshalBinary
           [symbol.mk 0 1 2; symbol.mk 1 0 0; symbol.mk 2 0 300] [9; 9]).
  - vm_compute. reflexivity.
  - repeat constructor; simpl; lia.
Defined.

Lemma PutUvarint_complete (x : Z) :
  0 <= x < 2 ^ 35 ->
  exists v,
    PutUvarint MaxVarintLen32 x = Ret v
    /\ complete_varint v /\ varint_value v = x
    /\ (List.length v <= 5)%nat.
Proof.
  intros Hx.
  destruct (PutUvarint_spec MaxVarintLen32 x)
    as (conts & b & Hput & Hc & Hb & Hl & Hv).
  { unfold MaxVarintLen32. lia. }
  { unfold MaxVarintLen32. simpl. lia. }
  unfold MaxVarintLen32 in Hl.
  exists (conts ++ [b]). split; [exact Hput|]. split; [|split; [exact Hv|]].
  - exists conts, b. repeat split; auto; try lia. apply Hb. apply Hb.
  - rewrite length_app. simpl. lia.
Qed.

Lemma marshal_lengths_format (c : codebook) :
  Forall (fun x => 0 <= symbol.length x < 2 ^ 35) c ->
  exists vs,
    marshal_lengths c = Ret (concat vs)
    /\ Forall2 (fun v x => complete_varint v
                           /\ varint_value v = symbol.length x
                           /\ (List.length v <= 5)%nat) vs c.
Proof.
  induction 1 as [|x c Hx _ (vs & Hm & Hvs)].
  - exists []. split; [reflexivity|constructor].
  - destruct (PutUvarint_complete (symbol.length x) Hx) as (v & Hput & Hv).
    exists (v :: vs). cbn [marshal_lengths].
    rewrite u64_small by lia. rewrite Hput. cbn [mbind res_bind].
    rewrite Hm. cbn [mbind res_bind]. split; [reflexivity|].
    constructor; auto.
Qed.

(** X17: the bytes [MarshalBinary] writes for a codebook of fewer than
    2^32 slots with lengths below 2^35 are a varint of the number of
    slots followed by one varint per slot, in slot order, of the length
    of the slot; each varint takes at most five bytes. *)
Theorem MarshalBinary_format (c : codebook) :
  len c < 2 ^ 32 ->
  Forall (fun x => 0 <= symbol.length x < 2 ^ 35) c ->
  exists cb vs,
    MarshalBinary c = Ret (cb ++ concat vs)
    /\ complete_varint cb /\ varint_value cb = len c
    /\ (List.length cb <= 5)%nat
    /\ Forall2 (fun v x => complete_varint v
                           /\ varint_value v = symbol.length x
                           /\ (List.length v <= 5)%nat) vs c.
Proof.
  intros Hlen Hl. assert (Hpos : 0 <= len c) by (unfold len; lia).
  destruct (PutUvarint_complete (len c) ltac:(lia)) as (cb & Hput & Hc & Hv & Hn).
  destruct (marshal_lengths_format c Hl) as (vs & Hm & Hvs).
  exists cb, vs. unfold MarshalBinary.
  rewrite u64_small by lia. rewrite Hput. cbn [mbind res_bind].
  rewrite Hm. cbn [mbind res_bind]. auto.
Qed.

Lemma MarshalBinary_format_witness :
  exists cb vs,
    MarshalBinary [symbol.mk 0 1 2; symbol.mk 1 0 300] = Ret (cb ++ concat vs)
    /\ complete_varint cb
    /\ varint_value cb = len [symbol.mk 0 1 2; symbol.mk 1 0 300]
    /\ (List.length cb <= 5)%nat
    /\ Forall2 (fun v x => complete_varint v
                           /\ varint_value v = symbol.length x
                           /\ (List.length v <= 5)%nat)
               vs [symbol.mk 0 1 2; symbol.mk 1 0 300].
Proof.
  apply (MarshalBinary_format [symbol.mk 0 1 2; symbol.mk 1 0 300]).
  - vm_compute. reflexivity.
  - repeat constructor; simpl; lia.
Defined.

Lemma unmarshal_loop_error (k : nat) :
  forall (i : Z) (r : list Z) (c c' : codebook) (e : error),
    unmarshal_loop k i r c = (c', Some e) -> e = ErrInvalidCodebook.
Proof.
  induction k as [|k IH]; intros i r c c' e Hu; simpl in Hu; [discriminate|].
  destruct (ReadUvarint r) as [[clen [err|]] r'].
  - congruence.
  - eapply IH; eauto.
Qed.

(** X18: [NewDecoder] returns either a decoder and no error, or no
    decoder and [ErrInvalidCodebook]: every error of the varint reader
    is reported as [ErrInvalidCodebook], and a decoder that is returned
    has at least one pointer in its table. *)
Theorem NewDecoder_outcomes (cb : list Z) (d : option Decoder.t)
    (err : option error) :
  NewDecoder cb = Ret (d, err) ->
  (d = None /\ err = Some ErrInvalidCodebook)
  \/ (exists d', d = Some d' /\ err = None /\ Decoder.sym d' <> []).
Proof.
  unfold NewDecoder, UnmarshalBinary. intros Hnew.
  destruct (ReadUvarint cb) as [[l [e|]] r].
  - cbn in Hnew. injection Hnew as <- <-. left. auto.
  - destruct (make symbol.zero 16 l) as [c0|]; [|discriminate].
    cbn [mbind res_bind] in Hnew.
    destruct (unmarshal_loop (Z.to_nat (u32 l)) 0 r c0) as [c [e|]] eqn:Eloop.
    + apply unmarshal_loop_error in Eloop. subst e.
      cbn in Hnew. injection Hnew as <- <-. left. auto.
    + cbn [mbind res_bind] in Hnew. unfold calculateCodes in Hnew.
      destruct (last (sort_Sort c (select_from 0 c))) as [p|] eqn:Elast;
        [|discriminate].
      destruct (c !! p) as [x|]; [|discriminate].
      destruct (make 0 4 (int64 (symbol.length x + 1))) as [numl|];
        [|discriminate].
      cbn [mbind res_bind] in Hnew.
      destruct (assign (sort_Sort c (select_from 0 c)) c 0 (-1) numl)
        as [[c' numl']|]; [|discriminate].
      cbn in Hnew. injection Hnew as <- <-. right.
      eexists. split; [reflexivity|]. split; [reflexivity|].
      simpl. intros Hnil. rewrite Hnil in Elast. discriminate.
Qed.

Lemma NewDecoder_outcomes_witness :
  (Some (Decoder.mk 0 [0; 1] [0%nat] [symbol.mk 0 0 1]) = None
   /\ None = Some ErrInvalidCodebook)
  \/ (exists d', Some (Decoder.mk 0 [0; 1] [0%nat] [symbol.mk 0 0 1]) = Some d'
                 /\ @None error = None /\ Decoder.sym d' <> []).
Proof.
  apply (NewDecoder_outcomes [1; 1]). vm_compute. reflexivity.
Defined.

(** X19: a decoder made by [NewDecoder] from the bytes of a codebook
    whose lengths are at most 32 and meet Kraft's bound reads every
    code back: its end-of-input slot is the last slot, and [ReadSymbol]
    on the bits of the code of a slot, whatever bits follow, returns
    the index of the slot (the sentinel for the last slot) and leaves
    the bits that follow. *)
Theorem NewDecoder_reads_codes (c : codebook) :
  Exists nonzero_length c ->
  Forall (fun x => 0 <= symbol.length x <= 32) c ->
  kraft (code_lengths c) <= 2 ^ 32 ->
  len c < 2 ^ 32 ->
  exists bytes d,
    MarshalBinary c = Ret bytes
    /\ NewDecoder bytes = Ret (Some d, None)
    /\ Decoder.eof d = len c - 1
    /\ map symbol.length (Decoder.mem d) = map symbol.length c
    /\ forall (p : nat) (x : symbol.t) (rest : list bool),
         Decoder.mem d !! p = Some x -> nonzero_length x ->
         ReadSymbol d (code_bits x ++ rest)
         = Ret (rest,
                (if Z.of_nat p =? len c - 1 then EOF else Z.of_nat p), None).
Proof.
  intros Hex Hlen HK Hc.
  assert (Hl35 : Forall (fun x => 0 <= symbol.length x < 2 ^ 35) c).
  { eapply Forall_impl; [exact Hlen|]. simpl. lia. }
  destruct (unmarshal_marshal c Hc Hl35) as (bytes & Hm & Hu).
  set (c0 := restore 0 c) in *.
  assert (Hmap : map symbol.length c = map symbol.length c0).
  { symmetry. apply restore_lengths. }
  assert (Hlen0 : Forall (fun x => 0 <= symbol.length x <= 32) c0).
  { apply (Forall_lengths (fun l => 0 <= l <= 32) c c0 Hmap Hlen). }
  assert (Hex0 : Exists nonzero_length c0)
    by (apply (Exists_lengths c c0 Hmap Hex)).
  assert (HK0 : kraft (code_lengths c0) <= 2 ^ 32).
  { rewrite <- (code_lengths_ext c c0 Hmap). exact HK. }
  assert (Hc0 : len c0 = len c)
    by (unfold len, c0; rewrite restore_length; reflexivity).
  assert (Hpos : 1 <= len c).
  { apply Exists_exists in Hex as (x & Hx & _).
    destruct c; [inversion Hx|]. unfold len. simpl. lia. }
  exists bytes. eexists. split; [exact Hm|].
  split.
  { unfold NewDecoder. rewrite Hu. cbn [mbind res_bind].
    rewrite (calculateCodes_spec c0 Hex0).
    - cbn [mbind res_bind]. reflexivity.
    - eapply Forall_impl; [exact Hlen0|]. simpl. lia. }
  assert (Heof : u32 (u32 (len c0) - 1) = len c - 1).
  { rewrite Hc0. rewrite (u32_small (len c)) by lia.
    rewrite u32_small by lia. reflexivity. }
  cbn [Decoder.eof Decoder.mem]. split; [exact Heof|].
  split; [rewrite set_codes_lengths; symmetry; exact Hmap|].
  intros p x rest Hp Hnz.
  rewrite (decode_slot c0 _ p x rest Hlen0 HK0 ltac:(lia) Hp Hnz).
  rewrite Heof.
  assert (Hs : symbol.s x = Z.of_nat p).
  { pose proof (lookup_lt_Some _ _ _ Hp) as Hlt.
    rewrite set_codes_length in Hlt. unfold c0 in Hlt.
    rewrite restore_length in Hlt.
    destruct (lookup_lt_is_Some_2 c p Hlt) as [y Hy].
    pose proof (restore_lookup c 0 p y Hy) as Hr. fold c0 in Hr.
    destruct (slot_fields c0
                (set_codes (sorted_ptrs c0) (canon 0 (-1) (sorted_lengths c0)) c0)
                p _ (eq_sym (set_codes_lengths _ _ c0))
                (eq_sym (set_codes_s _ _ c0)) Hr) as (x' & Hx' & _ & Hxs).
    rewrite Hp in Hx'. injection Hx' as <-. rewrite Hxs. simpl. lia. }
  rewrite Hs. reflexivity.
Qed.

Lemma NewDecoder_reads_codes_witness :
  exists bytes d,
    MarshalBinary [symbol.mk 0 0 2; symbol.mk 1 0 0; symbol.mk 2 0 1]
    = Ret bytes
    /\ NewDecoder bytes = Ret (Some d, None)
    /\ Decoder.eof d
       = len [symbol.mk 0 0 2; symbol.mk 1 0 0; symbol.mk 2 0 1] - 1
    /\ map symbol.length (Decoder.mem d)
       = map symbol.length [symbol.mk 0 0 2; symbol.mk 1 0 0; symbol.mk 2 0 1]
    /\ forall (p : nat) (x : symbol.t) (rest : list bool),
         Decoder.mem d !! p = Some x -> nonzero_length x ->
         ReadSymbol d (code_bits x ++ rest)
         = Ret (rest,
                (if Z.of_nat p
                    =? len [symbol.mk 0 0 2; symbol.mk 1 0 0; symbol.mk 2 0 1] - 1
                 then EOF else Z.of_nat p), None).
Proof.
  apply (NewDecoder_reads_codes
           [symbol.mk 0 0 2; symbol.mk 1 0 0; symbol.mk 2 0 1]).
  - constructor. unfold nonzero_length. simpl. lia.
  - repeat constructor; simpl; lia.
  - vm_compute. discriminate.
  - vm_compute. reflexivity.
Defined.

(** ** What [ReadSymbol] returns *)

Lemma assign_numl_length (sptrs : symptrs) :
  forall (c : codebook) (code prevlen : Z) (numl : list Z)
         (c' : codebook) (numl' : list Z),
    assign sptrs c code prevlen numl = Ret (c', numl') ->
    List.length numl' = List.length numl.
Proof.
  induction sptrs as [|p sptrs IH]; intros c code prevlen numl c' numl' Ha.
  - simpl in Ha. injection Ha as _ <-. reflexivity.
  - cbn [assign] in Ha. destruct (c !! p) as [x|]; [|discriminate].
    destruct (index numl (symbol.length x)) as [k|]; [|discriminate].
    cbn [mbind res_bind] in Ha. apply IH in Ha.
    rewrite Ha. apply length_insert.
Qed.

(** The histogram [calculateCodes] returns is never empty. *)
Lemma calculateCodes_numl_nonempty (c c' : codebook) (sptrs : symptrs)
    (numl : list Z) :
  calculateCodes c = Ret (c', sptrs, numl) -> (1 <= List.length numl)%nat.
Proof.
  unfold calculateCodes. intros Hc.
  destruct (sort_Sort c (select_from 0 c)) as [|p0 rest] eqn:Es;
    [discriminate|].
  destruct (last (p0 :: rest)) as [p|]; [|discriminate].
  destruct (c !! p) as [x|]; [|discriminate].
  destruct (make 0 4 (int64 (symbol.length x + 1))) as [numl0|];
    [|discriminate].
  cbn [mbind res_bind] in Hc.
  destruct (assign (p0 :: rest) c 0 (-1) numl0) as [[c1 n1]|] eqn:Ea;
    [|discriminate].
  cbn in Hc. injection Hc as _ _ <-.
  rewrite (assign_numl_length _ _ _ _ _ _ _ Ea).
  cbn [assign] in Ea. destruct (c !! p0) as [x0|]; [|discriminate].
  destruct (index numl0 (symbol.length x0)) as [k|] eqn:Ei; [|discriminate].
  apply index_Ret in Ei as [_ Hk]. apply lookup_lt_Some in Hk. lia.
Qed.

Lemma read_loop_error {R : Type} `{BitReader R} (d : Decoder.t) (k : nat) :
  forall (i offset code : Z) (br rest : R) (s : Z) (e : error),
    (1 <= k)%nat -> i + Z.of_nat k = len (Decoder.numl d) ->
    read_loop d k i offset code br = Ret (rest, s, Some e) ->
    s = 0 /\ exists (r0 : R) (b : bool), ReadBit r0 = (rest, b, Some e).
Proof.
  induction k as [|k IH]; intros i offset code br rest s e Hk Hi Hr; [lia|].
  cbn [read_loop] in Hr.
  destruct (ReadBit br) as [[br1 b] [err|]] eqn:Ebit.
  - injection Hr as <- <- <-. split; [reflexivity|]. eauto.
  - destruct (index (Decoder.numl d) i) as [n|]; [|discriminate].
    cbn [mbind res_bind] in Hr.
    destruct (sym_at d (u32 (offset + n))) as [first|]; [|discriminate].
    cbn [mbind res_bind] in Hr.
    destruct (index (Decoder.numl d) (i + 1)) as [n1|] eqn:E1; [|discriminate].
    cbn [mbind res_bind] in Hr.
    destruct (_ <? n1).
    + destruct (sym_at d _) as [x|]; [|discriminate].
      cbn in Hr. discriminate.
    + destruct k as [|k].
      * rewrite index_out_of_range in E1 by (right; lia). discriminate.
      * apply (IH (i + 1) _ _ _ _ _ _ ltac:(lia) ltac:(lia) Hr).
Qed.

Lemma read_loop_consumes (d : Decoder.t) (k : nat) :
  forall (i offset code : Z) (bits rest : list bool) (s : Z),
    (1 <= k)%nat -> i + Z.of_nat k = len (Decoder.numl d) ->
    read_loop d k i offset code bits = Ret (rest, s, None) ->
    exists used, bits = used ++ rest /\ (1 <= List.length used < k)%nat.
Proof.
  induction k as [|k IH]; intros i offset code bits rest s Hk Hi Hr; [lia|].
  cbn [read_loop] in Hr.
  destruct bits as [|b bits]; [cbn in Hr; discriminate|].
  cbn [ReadBit mem_reader] in Hr.
  destruct (index (Decoder.numl d) i) as [n|]; [|discriminate].
  cbn [mbind res_bind] in Hr.
  destruct (sym_at d (u32 (offset + n))) as [first|]; [|discriminate].
  cbn [mbind res_bind] in Hr.
  destruct (index (Decoder.numl d) (i + 1)) as [n1|] eqn:E1; [|discriminate].
  cbn [mbind res_bind] in Hr.
  assert (Hk1 : (1 <= k)%nat).
  { destruct k as [|k]; [|lia].
    rewrite index_out_of_range in E1 by (right; lia). discriminate. }
  destruct (_ <? n1).
  - destruct (sym_at d _) as [x|]; [|discriminate].
    cbn in Hr. injection Hr as <- _. exists [b]. split; [reflexivity|].
    simpl. lia.
  - destruct (IH (i + 1) _ _ _ _ _ Hk1 ltac:(lia) Hr) as (used & -> & Hu).
    exists (b :: used). split; [reflexivity|]. simpl. lia.
Qed.

(** X20: [ReadSymbol] of a decoder built on what [calculateCodes]
    returned (as [Encoder.Decoder] and [NewDecoder] build theirs) never
    makes up an error: an error it returns was returned by [ReadBit],
    and comes back unchanged with symbol 0.  In particular it never
    returns [ErrUnknownSymbol] over a bit reader that does not. *)
Theorem ReadSymbol_errors_are_stream_errors {R : Type} `{BitReader R}
    (c c' : codebook) (sptrs : symptrs) (numl : list Z) (eof : Z)
    (br rest : R) (s : Z) (e : error) :
  calculateCodes c = Ret (c', sptrs, numl) ->
  ReadSymbol (Decoder.mk eof numl sptrs c') br = Ret (rest, s, Some e) ->
  s = 0 /\ exists (r0 : R) (b : bool), ReadBit r0 = (rest, b, Some e).
Proof.
  intros Hc Hr. pose proof (calculateCodes_numl_nonempty _ _ _ _ Hc) as Hn.
  unfold ReadSymbol in Hr. cbn [Decoder.numl] in Hr.
  apply (read_loop_error _ _ _ _ _ _ _ _ _ Hn) in Hr; [exact Hr|].
  unfold len. cbn [Decoder.numl]. lia.
Qed.

Lemma ReadSymbol_errors_are_stream_errors_witness :
  0 = 0
  /\ exists (r0 : list bool) (b : bool), ReadBit r0 = ([], b, Some io_EOF).
Proof.
  apply (ReadSymbol_errors_are_stream_errors
           [symbol.mk 0 0 1; symbol.mk 1 0 1]
           [symbol.mk 0 0 1; symbol.mk 1 1 1] [0%nat; 1%nat] [0; 2] 1
           [] [] 0 io_EOF).
  - vm_compute. reflexivity.
  - vm_compute. reflexivity.
Defined.

(** X21: when [ReadSymbol] of such a decoder returns a symbol from a
    sequence of bits, it has taken at least one bit and at most as many
    bits as the greatest code length (one less than the histogram has
    entries), and it leaves the bits that follow. *)
Theorem ReadSymbol_consumes_one_code (c c' : codebook) (sptrs : symptrs)
    (numl : list Z) (eof : Z) (bits rest : list bool) (s : Z) :
  calculateCodes c = Ret (c', sptrs, numl) ->
  ReadSymbol (Decoder.mk eof numl sptrs c') bits = Ret (rest, s, None) ->
  exists used,
    bits = used ++ rest
    /\ (1 <= List.length used < List.length numl)%nat.
Proof.
  intros Hc Hr. pose proof (calculateCodes_numl_nonempty _ _ _ _ Hc) as Hn.
  unfold ReadSymbol in Hr. cbn [Decoder.numl] in Hr.
  apply (read_loop_consumes _ _ _ _ _ _ _ _ Hn) in Hr; [exact Hr|].
  unfold len. cbn [Decoder.numl]. lia.
Qed.

Lemma ReadSymbol_consumes_one_code_witness :
  exists used,
    [true; false; true] = used ++ [false; true]
    /\ (1 <= List.length used < List.length [0; 2])%nat.
Proof.
  apply (ReadSymbol_consumes_one_code
           [symbol.mk 0 0 1; symbol.mk 1 0 1]
           [symbol.mk 0 0 1; symbol.mk 1 1 1] [0%nat; 1%nat] [0; 2] 7
           [true; false; true] [false; true] 1).
  - vm_compute. reflexivity.
  - vm_compute. reflexivity.
Defined.

(** ** What [WriteSymbol] writes *)

Lemma WriteSymbol_slot (e : Encoder.t) (w : Writer.t (list bool)) (s : Z)
    (x : symbol.t) :
  Writer.e w = e ->
  0 <= slot_of (Encoder.eof e) s <= Encoder.eof e ->
  Encoder.m e !! Z.to_nat (slot_of (Encoder.eof e) s) = Some x ->
  WriteSymbol w s
  = Ret (Writer.mk e
           (Writer.bw w
            ++ bits_msb (Z.to_nat (symbol.length x)) (u64 (symbol.code x)))
           (Writer.closed w),
         symbol.length x, None).
Proof.
  intros He Hslot Hx. unfold WriteSymbol. rewrite He.
  fold (slot_of (Encoder.eof e) s).
  destruct (Z.ltb_spec (Encoder.eof e) (slot_of (Encoder.eof e) s)); [lia|].
  assert (Hidx : index (Encoder.m e) (slot_of (Encoder.eof e) s) = Ret x).
  { apply index_Ret. split; [lia|exact Hx]. }
  rewrite Hidx. cbn [mbind res_bind]. reflexivity.
Qed.

Lemma SymbolLen_slot_of (e : Encoder.t) (s : Z) (x : symbol.t) :
  0 <= slot_of (Encoder.eof e) s ->
  Encoder.m e !! Z.to_nat (slot_of (Encoder.eof e) s) = Some x ->
  len (Encoder.m e) < 2 ^ 32 ->
  SymbolLen e s = Ret (symbol.length x).
Proof.
  intros Hs Hx Hm. unfold SymbolLen. fold (slot_of (Encoder.eof e) s).
  pose proof (lookup_lt_Some _ _ _ Hx) as Hlt.
  rewrite u32_small by (unfold len in *; lia).
  destruct (Z.leb_spec (len (Encoder.m e)) (slot_of (Encoder.eof e) s));
    [unfold len in *; lia|].
  assert (Hidx : index (Encoder.m e) (slot_of (Encoder.eof e) s) = Ret x).
  { apply index_Ret. split; [lia|exact Hx]. }
  rewrite Hidx. reflexivity.
Qed.

(** X22: a writer of the encoder [NewEncoder] returns accepts a symbol
    whose count was zero without a word: [WriteSymbol] returns 0 bits
    and no error, and nothing is written.  A symbol value beyond the
    alphabet (other than the sentinel) gets 0 bits and
    [ErrUnknownSymbol], and nothing is written either. *)
Theorem WriteSymbol_of_symbols_without_code (counts : list Z) :
  len counts < 2 ^ 32 - 1 -> Exists (fun v => v <> 0) counts ->
  exists e,
    NewEncoder counts = Ret e
    /\ (forall (w : Writer.t (list bool)) (s : nat),
          Writer.e w = e -> counts !! s = Some 0 ->
          WriteSymbol w (Z.of_nat s) = Ret (w, 0, None))
    /\ (forall (w : Writer.t (list bool)) (s : Z),
          Writer.e w = e -> len counts < s < EOF ->
          WriteSymbol w s = Ret (w, 0, Some ErrUnknownSymbol)).
Proof.
  intros Hlen Hex.
  destruct (NewEncoder_explicit counts Hlen Hex) as (t & Het & Hnew).
  exists (encoder_of counts t). split; [exact Hnew|]. split.
  - intros w s He Hs. pose proof (lookup_lt_Some _ _ _ Hs) as Hlt.
    assert (Hslot : slot_of (Encoder.eof (encoder_of counts t)) (Z.of_nat s)
                    = Z.of_nat s).
    { unfold slot_of. destruct (Z.eqb_spec (Z.of_nat s) EOF) as [Heq|]; auto.
      unfold EOF, len in *. lia. }
    assert (Hzero : tree_codebook t (S (List.length counts)) !! s
                    = Some symbol.zero).
    { apply (tree_codebook_other counts t Het); [lia|].
      intros Hin. apply (et_leaves _ _ Het) in Hin.
      destruct Hin as [Hin|(k & v & Hk & Hv & Hin)].
      - unfold len in Hin. lia.
      - apply Nat2Z.inj in Hin. subst k. congruence. }
    destruct (encoder_of_slot counts t s _ Hzero) as (x & Hx & Hxl & _).
    rewrite (WriteSymbol_slot _ w (Z.of_nat s) x He).
    + rewrite Hxl. simpl. rewrite app_nil_r.
      destruct w; simpl in *; subst; reflexivity.
    + rewrite Hslot. cbn [encoder_of Encoder.eof]. unfold len. lia.
    + rewrite Hslot, Nat2Z.id. exact Hx.
  - intros w s He Hs. unfold WriteSymbol. rewrite He.
    cbn [encoder_of Encoder.eof].
    destruct (Z.eqb_spec s EOF); [lia|].
    destruct (Z.ltb_spec (len counts) s); [reflexivity|lia].
Qed.

Lemma WriteSymbol_of_symbols_without_code_witness :
  exists e,
    NewEncoder [3; 0; 2] = Ret e
    /\ (forall (w : Writer.t (list bool)) (s : nat),
          Writer.e w = e -> [3; 0; 2] !! s = Some 0 ->
          WriteSymbol w (Z.of_nat s) = Ret (w, 0, None))
    /\ (forall (w : Writer.t (list bool)) (s : Z),
          Writer.e w = e -> len [3; 0; 2] < s < EOF ->
          WriteSymbol w s = Ret (w, 0, Some ErrUnknownSymbol)).
Proof.
  apply (WriteSymbol_of_symbols_without_code [3; 0; 2]).
  - vm_compute. reflexivity.
  - constructor. lia.
Defined.

(** X23: for every symbol of the alphabet and for the sentinel, a
    writer of the encoder [NewEncoder] returns answers [WriteSymbol]
    with the length [SymbolLen] gives and no error, and has appended
    exactly that many bits to the bits written before. *)
Theorem WriteSymbol_writes_SymbolLen_bits (counts : list Z) :
  len counts < 2 ^ 32 - 1 -> Exists (fun v => v <> 0) counts ->
  exists e,
    NewEncoder counts = Ret e
    /\ forall (w : Writer.t (list bool)) (s : Z),
         Writer.e w = e -> s = EOF \/ 0 <= s <= len counts ->
         exists (l : Z) (bits : list bool),
           SymbolLen e s = Ret l
           /\ WriteSymbol w s
              = Ret (Writer.mk e (Writer.bw w ++ bits) (Writer.closed w),
                     l, None)
           /\ len bits = l.
Proof.
  intros Hlen Hex.
  destruct (NewEncoder_explicit counts Hlen Hex) as (t & Het & Hnew).
  exists (encoder_of counts t). split; [exact Hnew|].
  intros w s He Hs.
  assert (Hpos : 0 <= len counts) by (unfold len; lia).
  assert (Heof : Encoder.eof (encoder_of counts t) = len counts)
    by reflexivity.
  assert (Hslot : 0 <= slot_of (Encoder.eof (encoder_of counts t)) s
                  <= len counts).
  { unfold slot_of. rewrite Heof.
    destruct (Z.eqb_spec s EOF); [lia|]. destruct Hs; [contradiction|lia]. }
  destruct (lookup_lt_is_Some_2 (tree_codebook t (S (List.length counts)))
              (Z.to_nat (slot_of (Encoder.eof (encoder_of counts t)) s)))
    as [x0 Hx0].
  { rewrite (tree_codebook_length counts t). unfold len in Hslot. lia. }
  destruct (encoder_of_slot counts t _ _ Hx0) as (x & Hx & Hxl & _).
  assert (Hx0l : 0 <= symbol.length x0).
  { pose proof (tree_codebook_lengths counts t Het) as Hall.
    rewrite Forall_forall in Hall.
    pose proof (Hall x0 (list_elem_of_lookup_2 _ _ _ Hx0)). lia. }
  exists (symbol.length x). eexists. split; [|split].
  - apply SymbolLen_slot_of; [lia|exact Hx|].
    rewrite encoder_of_len. lia.
  - apply (WriteSymbol_slot _ w s x He); [|exact Hx].
    split; [apply Hslot|]. rewrite Heof at 2. apply Hslot.
  - unfold len. rewrite bits_msb_length. lia.
Qed.

Lemma WriteSymbol_writes_SymbolLen_bits_witness :
  exists e,
    NewEncoder [3; 0; 2] = Ret e
    /\ forall (w : Writer.t (list bool)) (s : Z),
         Writer.e w = e -> s = EOF \/ 0 <= s <= len [3; 0; 2] ->
         exists (l : Z) (bits : list bool),
           SymbolLen e s = Ret l
           /\ WriteSymbol w s
              = Ret (Writer.mk e (Writer.bw w ++ bits) (Writer.closed w),
                     l, None)
           /\ len bits = l.
Proof.
  apply (WriteSymbol_writes_SymbolLen_bits [3; 0; 2]).
  - vm_compute. reflexivity.
  - constructor. lia.
Defined.

(** ** The order of the sorted pointers *)

Lemma symbol_less_spec (a b : symbol.t) :
  symbol_less a b = true <->
  symbol.length a < symbol.length b
  \/ (symbol.length a = symbol.length b /\ symbol.s a < symbol.s b).
Proof.
  unfold symbol_less.
  rewrite orb_true_iff, andb_true_iff, !Z.ltb_lt, Z.eqb_eq. reflexivity.
Qed.

(** X24: [symptrs.Less] is a strict order on pointers into a codebook,
    as [sort.Sort] needs: no pointer is less than itself, two pointers
    are never each less than the other, less is transitive, and two
    pointers of which neither is less than the other point to symbols
    with the same length and the same symbol value. *)
Theorem symptrs_Less_strict_order (c : codebook) (p q r : nat)
    (a b d : symbol.t) :
  c !! p = Some a -> c !! q = Some b -> c !! r = Some d ->
  symptrs_Less c p p = false
  /\ (symptrs_Less c p q = true -> symptrs_Less c q p = false)
  /\ (symptrs_Less c p q = true -> symptrs_Less c q r = true ->
      symptrs_Less c p r = true)
  /\ (symptrs_Less c p q = false -> symptrs_Less c q p = false ->
      symbol.length a = symbol.length b /\ symbol.s a = symbol.s b).
Proof.
  intros Hp Hq Hr.
  rewrite (symptrs_Less_valid c p p a a Hp Hp).
  rewrite (symptrs_Less_valid c p q a b Hp Hq).
  rewrite (symptrs_Less_valid c q p b a Hq Hp).
  rewrite (symptrs_Less_valid c q r b d Hq Hr).
  rewrite (symptrs_Less_valid c p r a d Hp Hr).
  rewrite <- !not_true_iff_false, !symbol_less_spec.
  repeat split; intros; lia.
Qed.

Lemma symptrs_Less_strict_order_witness :
  symptrs_Less [symbol.mk 0 0 2; symbol.mk 1 0 1; symbol.mk 2 0 2] 1 1 = false
  /\ (symptrs_Less [symbol.mk 0 0 2; symbol.mk 1 0 1; symbol.mk 2 0 2] 1 0 = true ->
      symptrs_Less [symbol.mk 0 0 2; symbol.mk 1 0 1; symbol.mk 2 0 2] 0 1 = false)
  /\ (symptrs_Less [symbol.mk 0 0 2; symbol.mk 1 0 1; symbol.mk 2 0 2] 1 0 = true ->
      symptrs_Less [symbol.mk 0 0 2; symbol.mk 1 0 1; symbol.mk 2 0 2] 0 2 = true ->
      symptrs_Less [symbol.mk 0 0 2; symbol.mk 1 0 1; symbol.mk 2 0 2] 1 2 = true)
  /\ (symptrs_Less [symbol.mk 0 0 2; symbol.mk 1 0 1; symbol.mk 2 0 2] 1 0 = false ->
      symptrs_Less [symbol.mk 0 0 2; symbol.mk 1 0 1; symbol.mk 2 0 2] 0 1 = false ->
      symbol.length (symbol.mk 1 0 1) = symbol.length (symbol.mk 0 0 2)
      /\ symbol.s (symbol.mk 1 0 1) = symbol.s (symbol.mk 0 0 2)).
Proof.
  apply (symptrs_Less_strict_order
           [symbol.mk 0 0 2; symbol.mk 1 0 1; symbol.mk 2 0 2] 1 0 2
           (symbol.mk 1 0 1) (symbol.mk 0 0 2) (symbol.mk 2 0 2));
    reflexivity.
Defined.

(** ** Walking the tree *)

Lemma walk_length (t : node) :
  forall (d : Z) (m m' : codebook),
    walk t d m = Ret m' -> List.length m' = List.length m.
Proof.
  induction t as [w s|w c0 IH0 c1 IH1]; intros d m m' Hw; simpl in Hw.
  - destruct (index m s); [|discriminate]. cbn in Hw.
    injection Hw as <-. apply length_insert.
  - destruct (walk c0 (int64 (d + 1)) m) as [m1|] eqn:E0; [|discriminate].
    cbn [mbind res_bind] in Hw.
    rewrite (IH1 _ _ _ Hw). apply (IH0 _ _ _ E0).
Qed.

(** X25: on a tree whose leaves carry distinct symbols, all of them
    slots of the codebook, [walk] from depth 0 writes into the slot of
    every leaf the symbol of the leaf, code 0 and the depth of the leaf,
    and leaves every other slot as it was. *)
Theorem walk_writes_leaf_depths (t : node) (m : codebook) :
  NoDup (leaves t) ->
  (forall s, s ∈ leaves t -> 0 <= s < len m) ->
  height t < 2 ^ 63 ->
  exists m',
    walk t 0 m = Ret m'
    /\ len m' = len m
    /\ (forall s d : Z,
          (s, d) ∈ leaves_at t 0 ->
          m' !! Z.to_nat s = Some (symbol.mk s 0 d))
    /\ (forall k : nat, Z.of_nat k ∉ leaves t -> m' !! k = m !! k).
Proof.
  intros Hnd Hin Hh. exists (write_leaves (leaves_at t 0) m).
  split; [apply walk_spec; auto; lia|].
  split; [unfold len; rewrite write_leaves_length; reflexivity|]. split.
  - intros s d Hsd.
    pose proof (Hin s (leaves_at_elem _ _ _ _ Hsd)) as Hr.
    apply write_leaves_in; auto.
    + rewrite <- (map_map fst Z.to_nat). rewrite leaves_at_fst.
      apply NoDup_to_nat; [exact Hnd|].
      apply Forall_forall. intros s' Hs'. apply Hin in Hs'. lia.
    + unfold len in Hr. lia.
  - intros k Hk. apply write_leaves_notin.
    apply Forall_forall. intros [s d] Hsd Heq. simpl in Heq.
    pose proof (leaves_at_elem _ _ _ _ Hsd) as Hs.
    pose proof (Hin s Hs). apply Hk.
    replace (Z.of_nat k) with s by lia. exact Hs.
Qed.

Lemma walk_writes_leaf_depths_witness :
  exists m',
    walk (Node 3 (Leaf 1 2) (Node 2 (Leaf 1 0) (Leaf 1 3))) 0
      (replicate 4 symbol.zero) = Ret m'
    /\ len m' = len (replicate 4 symbol.zero)
    /\ (forall s d : Z,
          (s, d) ∈ leaves_at (Node 3 (Leaf 1 2) (Node 2 (Leaf 1 0) (Leaf 1 3))) 0 ->
          m' !! Z.to_nat s = Some (symbol.mk s 0 d))
    /\ (forall k : nat,
          Z.of_nat k ∉ leaves (Node 3 (Leaf 1 2) (Node 2 (Leaf 1 0) (Leaf 1 3))) ->
          m' !! k = replicate 4 symbol.zero !! k).
Proof.
  apply (walk_writes_leaf_depths
           (Node 3 (Leaf 1 2) (Node 2 (Leaf 1 0) (Leaf 1 3)))
           (replicate 4 symbol.zero)).
  - simpl. apply NoDup_ListNoDup. repeat constructor; simpl; intuition lia.
  - simpl. intros s Hs. apply list_elem_of_In in Hs. simpl in Hs.
    unfold len. simpl. intuition lia.
  - vm_compute. reflexivity.
Defined.

(** X26: [walk] panics when a leaf of the tree carries a symbol that is
    not a slot of the codebook. *)
Theorem walk_out_of_range_panics (t : node) (d : Z) (m : codebook) (s : Z) :
  s ∈ leaves t -> s < 0 \/ len m <= s -> walk t d m = Panic.
Proof.
  revert d m. induction t as [w s0|w c0 IH0 c1 IH1]; intros d m Hin Hs.
  - simpl in Hin. apply list_elem_of_singleton in Hin. subst s0.
    simpl. rewrite index_out_of_range by exact Hs. reflexivity.
  - simpl in Hin. simpl. apply elem_of_app in Hin as [Hin|Hin].
    + rewrite (IH0 _ _ Hin Hs). reflexivity.
    + destruct (walk c0 (int64 (d + 1)) m) as [m1|] eqn:E0; [|reflexivity].
      cbn [mbind res_bind]. apply IH1; [exact Hin|].
      unfold len in *. rewrite (walk_length _ _ _ _ E0). exact Hs.
Qed.

Lemma walk_out_of_range_panics_witness :
  walk (Node 2 (Leaf 1 0) (Leaf 1 5)) 0 (replicate 2 symbol.zero) = Panic.
Proof.
  apply (walk_out_of_range_panics (Node 2 (Leaf 1 0) (Leaf 1 5)) 0
           (replicate 2 symbol.zero) 5).
  - simpl. right. left.
  - right. vm_compute. discriminate.
Defined.

(** ** Symbols a decoder can return *)

Lemma read_loop_symbol {R : Type} `{BitReader R} (d : Decoder.t) (k : nat) :
  forall (i offset code : Z) (br rest : R) (s : Z),
    read_loop d k i offset code br = Ret (rest, s, None) ->
    exists (j : Z) (x : symbol.t),
      sym_at d j = Ret x
      /\ s = (if symbol.s x =? Decoder.eof d then EOF else symbol.s x).
Proof.
  induction k as [|k IH]; intros i offset code br rest s Hr;
    [discriminate|].
  cbn [read_loop] in Hr.
  destruct (ReadBit br) as [[br1 b] [err|]]; [discriminate|].
  destruct (index (Decoder.numl d) i) as [n|]; [|discriminate].
  cbn [mbind res_bind] in Hr.
  destruct (sym_at d (u32 (offset + n))) as [first|]; [|discriminate].
  cbn [mbind res_bind] in Hr.
  destruct (index (Decoder.numl d) (i + 1)) as [n1|]; [|discriminate].
  cbn [mbind res_bind] in Hr.
  destruct (_ <? n1).
  - destruct (sym_at d _) as [x|] eqn:Ex; [|discriminate].
    cbn in Hr. injection Hr as _ <-. eauto.
  - eapply IH. exact Hr.
Qed.

Lemma sym_at_points (d : Decoder.t) (j : Z) (x : symbol.t) :
  sym_at d j = Ret x ->
  exists p : nat, p ∈ Decoder.sym d /\ Decoder.mem d !! p = Some x.
Proof.
  unfold sym_at. intros Hs.
  destruct (index (Decoder.sym d) j) as [p|] eqn:Ei; [|discriminate].
  cbn [mbind res_bind] in Hs.
  destruct (Decoder.mem d !! p) as [y|] eqn:Ep; [|discriminate].
  injection Hs as ->. apply index_Ret in Ei as [_ Hp].
  exists p. split; [eapply list_elem_of_lookup_2; eauto|exact Ep].
Qed.

(** X27: whatever bits it is given, the decoder of the encoder
    [NewEncoder] returns never reads a symbol that was not counted:
    when [ReadSymbol] returns a symbol, it is the sentinel or a symbol
    with a nonzero count. *)
Theorem ReadSymbol_returns_counted_symbols {R : Type} `{BitReader R}
    (counts : list Z) :
  len counts < 2 ^ 32 - 1 -> Exists (fun v => v <> 0) counts ->
  exists e,
    NewEncoder counts = Ret e
    /\ forall (br rest : R) (s : Z),
         ReadSymbol (Encoder_Decoder e) br = Ret (rest, s, None) ->
         s = EOF
         \/ exists (k : nat) (v : Z),
              s = Z.of_nat k /\ counts !! k = Some v /\ v <> 0.
Proof.
  intros Hlen Hex.
  destruct (NewEncoder_explicit counts Hlen Hex) as (t & Het & Hnew).
  exists (encoder_of counts t). split; [exact Hnew|].
  intros br rest s Hr. unfold ReadSymbol in Hr.
  apply read_loop_symbol in Hr as (j & x & Hx & ->).
  apply sym_at_points in Hx as (p & Hp & Hmem).
  cbn [Encoder_Decoder Decoder.sym Decoder.mem Decoder.eof encoder_of
       Encoder.sym Encoder.m Encoder.eof] in *.
  unfold sorted_ptrs in Hp. apply sptrs_spec in Hp as (x0 & Hx0 & Hnz).
  destruct (encoder_of_slot counts t p x0 Hx0) as (x' & Hx' & _ & Hxs).
  cbn [encoder_of Encoder.m] in Hx'. rewrite Hmem in Hx'.
  injection Hx' as <-.
  destruct (tree_codebook_slot counts t Het p x0 Hx0)
    as [(d & Hd & ->)|[_ ->]]; [|contradiction].
  simpl in Hxs. rewrite Hxs.
  apply leaves_at_elem in Hd. apply (et_leaves _ _ Het) in Hd.
  destruct Hd as [Hd|(k & v & Hk & Hv & Hd)].
  - left. rewrite Hd, Z.eqb_refl. reflexivity.
  - right. exists k, v. rewrite Hd.
    pose proof (lookup_lt_Some _ _ _ Hk) as Hlt.
    destruct (Z.eqb_spec (Z.of_nat k) (len counts)) as [Heq|];
      [unfold len in Heq; lia|auto].
Qed.

Lemma ReadSymbol_returns_counted_symbols_witness :
  exists e,
    NewEncoder [3; 0; 2] = Ret e
    /\ forall (br rest : list bool) (s : Z),
         ReadSymbol (Encoder_Decoder e) br = Ret (rest, s, None) ->
         s = EOF
         \/ exists (k : nat) (v : Z),
              s = Z.of_nat k /\ [3; 0; 2] !! k = Some v /\ v <> 0.
Proof.
  apply (ReadSymbol_returns_counted_symbols [3; 0; 2]).
  - vm_compute. reflexivity.
  - constructor. lia.
Defined.

(** ** The bytes of the encoder's codebook *)

(** X28: for the encoder [NewEncoder] returns, [CodebookBytes] returns
    a varint of the number of slots (one more than there are counts)
    followed by one varint per slot, and the varint of slot [s] carries
    [SymbolLen] of [s]. *)
Theorem CodebookBytes_carries_SymbolLen (counts : list Z) :
  len counts < 2 ^ 32 - 1 -> Exists (fun v => v <> 0) counts ->
  exists e cb vs,
    NewEncoder counts = Ret e
    /\ CodebookBytes e = Ret (cb ++ concat vs)
    /\ complete_varint cb
    /\ varint_value cb = len counts + 1
    /\ len vs = len counts + 1
    /\ forall (s : nat) (v : list Z),
         vs !! s = Some v ->
         complete_varint v
         /\ SymbolLen e (Z.of_nat s) = Ret (varint_value v).
Proof.
  intros Hlen Hex.
  destruct (NewEncoder_explicit counts Hlen Hex) as (t & Het & Hnew).
  set (e := encoder_of counts t) in *.
  assert (Hpos : 0 <= len counts) by (unfold len; lia).
  assert (Hm : len (Encoder.m e) = len counts + 1) by apply encoder_of_len.
  assert (Hl : Forall (fun x => 0 <= symbol.length x < 2 ^ 35) (Encoder.m e)).
  { apply (Forall_lengths (fun l => 0 <= l < 2 ^ 35)
             (tree_codebook t (S (List.length counts)))).
    - symmetry. apply set_codes_lengths.
    - eapply Forall_impl; [apply (tree_codebook_lengths counts t Het)|].
      intros x Hx. simpl in Hx. lia. }
  destruct (PutUvarint_complete (len (Encoder.m e)) ltac:(lia))
    as (cb & Hput & Hc & Hv & _).
  destruct (marshal_lengths_format (Encoder.m e) Hl) as (vs & Hml & Hvs).
  exists e, cb, vs. split; [exact Hnew|]. split.
  { unfold CodebookBytes, MarshalBinary.
    rewrite u64_small by lia. rewrite Hput. cbn [mbind res_bind].
    rewrite Hml. reflexivity. }
  split; [exact Hc|]. split; [lia|]. split.
  { unfold len in *. rewrite (Forall2_length _ _ _ Hvs). exact Hm. }
  intros s v Hs.
  destruct (Forall2_lookup_l _ _ _ _ _ Hvs Hs) as (x & Hx & Hcv & Hval & _).
  split; [exact Hcv|]. rewrite Hval.
  pose proof (lookup_lt_Some _ _ _ Hx) as Hlt.
  assert (Hslot : slot_of (Encoder.eof e) (Z.of_nat s) = Z.of_nat s).
  { unfold slot_of. destruct (Z.eqb_spec (Z.of_nat s) EOF) as [Heq|]; auto.
    unfold EOF, len in *. lia. }
  apply SymbolLen_slot_of; rewrite ?Hslot, ?Nat2Z.id; auto; lia.
Qed.

Lemma CodebookBytes_carries_SymbolLen_witness :
  exists e cb vs,
    NewEncoder [3; 0; 2] = Ret e
    /\ CodebookBytes e = Ret (cb ++ concat vs)
    /\ complete_varint cb
    /\ varint_value cb = len [3; 0; 2] + 1
    /\ len vs = len [3; 0; 2] + 1
    /\ forall (s : nat) (v : list Z),
         vs !! s = Some v ->
         complete_varint v
         /\ SymbolLen e (Z.of_nat s) = Ret (varint_value v).
Proof.
  apply (CodebookBytes_carries_SymbolLen [3; 0; 2]).
  - vm_compute. reflexivity.
  - constructor. lia.
Defined.
